(** * imprints: the static-data build pipeline of [scripts/build-data.mjs]

    A shallow embedding of the pure parts of the build script (canonical
    serializer, image path normalizer, lite projections, patch
    classification, duplicate validation, image directory discovery) and
    the properties its specification states about them.

    Conventions of the model:
    - a JavaScript string is a [string]: a sequence of code units, here
      restricted to the 8-bit range;
    - a JavaScript number is a [number]: a safe integer (of magnitude
      below 2^53, which a double holds exactly and prints with all its
      digits; the negative zero prints as zero and is not told apart
      from it) or an infinity (an overflowing literal such as [1e999]);
      fractions and larger finite numbers are outside the model;
    - a value produced by [JSON.parse] is a [json] tree; an object keeps
      its properties as an association list in enumeration order;
    - [undefined] only arises from reading an absent property, so a
      property read returns an [option json];
    - a thrown exception is an [inl] of the [result] sum. *)

From Stdlib Require Import Ascii String DecimalString.
From Stdlib Require DecimalNat DecimalPos DecimalZ.
From stdpp Require Import gmap strings list sorting.

Local Open Scope string_scope.
Local Open Scope list_scope.
Set Warnings "-register-all,-clear-no-such-hyp".

(** ** Errors *)

Inductive namespace := Amiibo | Skylander.

Inductive error :=
| TypeError
| SyntaxError
| IoFailure
| MalformedBase
| MalformedPatch
| DuplicateRecord (ns : namespace) (key : string)
| CircularStructure.

Definition result (A : Type) : Type := error + A.

Definition ok {A} (a : A) : result A := inr a.
Definition throw {A} (e : error) : result A := inl e.

Definition bind {A B} (r : result A) (k : A → result B) : result B :=
  match r with
  | inl e => inl e
  | inr a => k a
  end.

Notation "'let*' x ':=' r 'in' k" := (bind r (fun x => k))
  (at level 10, x name, r at level 100, k at level 200).

(** ** Strings *)

Module JsString.

Definition backslash : ascii := "\"%char.
Definition slash : ascii := "/"%char.

Definition is_slash (c : ascii) : bool := bool_decide (c = slash).

(** [s.replaceAll("\\", "/")] *)
Fixpoint replaceAll_backslash (s : string) : string :=
  match s with
  | EmptyString => EmptyString
  | String c s' =>
      String (if bool_decide (c = backslash) then slash else c)
             (replaceAll_backslash s')
  end.

(** [s.startsWith(p)] *)
Fixpoint startsWith (s p : string) {struct p} : bool :=
  match p, s with
  | EmptyString, _ => true
  | String a p', String b s' => bool_decide (a = b) && startsWith s' p'
  | String _ _, EmptyString => false
  end.

(** [s.endsWith(p)] *)
Definition endsWith (s p : string) : bool :=
  startsWith (String.rev s) (String.rev p).

(** One code unit of [toLowerCase], on the 8-bit range: the ASCII
    capitals and the Latin-1 capitals (all of 0xC0..0xDE but the
    multiplication sign 0xD7) move up by 0x20. *)
Definition lower_char (c : ascii) : ascii :=
  let n := N_of_ascii c in
  if ((65 <=? n) && (n <=? 90))%N then ascii_of_N (n + 32)
  else if ((192 <=? n) && (n <=? 222) && negb (n =? 215))%N
       then ascii_of_N (n + 32)
  else c.

Fixpoint toLowerCase (s : string) : string :=
  match s with
  | EmptyString => EmptyString
  | String c s' => String (lower_char c) (toLowerCase s')
  end.

(** [parts.join(sep)] *)
Fixpoint join (sep : string) (parts : list string) : string :=
  match parts with
  | [] => ""
  | [p] => p
  | p :: rest => p +:+ sep +:+ join sep rest
  end.

Fixpoint dropWhile (f : ascii → bool) (l : list ascii) : list ascii :=
  match l with
  | [] => []
  | c :: l' => if f c then dropWhile f l' else l
  end.

Fixpoint takeWhile (f : ascii → bool) (l : list ascii) : list ascii :=
  match l with
  | [] => []
  | c :: l' => if f c then c :: takeWhile f l' else []
  end.

(** [path.posix.basename(p)] of Node, without a suffix argument: the
    scan runs from the end of the string, skips the separators that
    close the path, and keeps the code units up to the next separator. *)
Definition basename (p : string) : string :=
  let from_end := rev (list_ascii_of_string p) in
  let trimmed := dropWhile is_slash from_end in
  let segment := takeWhile (fun c => negb (is_slash c)) trimmed in
  string_of_list_ascii (rev segment).

(** The predicate "no code unit of [s] is a backslash". *)
Definition no_backslash (s : string) : Prop :=
  Forall (fun c => c ≠ backslash) (list_ascii_of_string s).

End JsString.

(** ** Numbers *)

(** [Number.isSafeInteger(z)]: the magnitude is below 2^53. *)
Definition safeInteger (z : Z) : Prop := (Z.abs z < 9007199254740992)%Z.

(** The numbers of the model: the safe integers and the two infinities.
    (Minus zero prints and compares as zero, and stands with it.) *)
Inductive number :=
| NumSafe (z : Z) (safe : bool_decide (safeInteger z))
| NumInf (negative : bool).

(** The number written by an integer literal of the safe range. *)
Abbreviation NumInt z := (NumSafe z I).

Definition isFinite (n : number) : bool :=
  match n with
  | NumSafe _ _ => true
  | NumInf _ => false
  end.

(** [Number::toString], radix 10: a safe integer is written with all its
    digits, after a minus sign when it is negative. *)
Definition numberToString (n : number) : string :=
  match n with
  | NumSafe z _ => NilZero.string_of_int (Z.to_int z)
  | NumInf false => "Infinity"
  | NumInf true => "-Infinity"
  end.

(** ** JSON values *)

Inductive json :=
| JNull
| JBool (b : bool)
| JNum (n : number)
| JStr (s : string)
| JArr (items : list json)
| JObj (props : list (string * json)).

(** Lookup of an own property in an object's property list. *)
Fixpoint assoc {A} (k : string) (l : list (string * A)) : option A :=
  match l with
  | [] => None
  | (k', v) :: l' => if decide (k = k') then Some v else assoc k l'
  end.

(** [e?.k] for the property names the script reads ([head], [tail],
    [type], [image], [sig], ...): none of them is a property of an array,
    a string, a number or a boolean, so only an object can answer with
    something other than [undefined]. *)
Definition getOpt (e : json) (k : string) : option json :=
  match e with
  | JObj props => assoc k props
  | _ => None
  end.

(** [e.k]: as [e?.k], but reading a property of [null] throws. *)
Definition get (e : json) (k : string) : result (option json) :=
  match e with
  | JNull => throw TypeError
  | _ => ok (getOpt e k)
  end.

(** [x ?? d] *)
Definition nullish (x : option json) (d : json) : json :=
  match x with
  | None | Some JNull => d
  | Some v => v
  end.

(** ** Image path normalizer *)

(** The body of [normalizeImagePath] once [entry.image] has been read. *)
Definition normalizeImage (image_field : option json) : string :=
  let image := match image_field with Some (JStr s) => s | _ => "" end in
  if decide (image = "") then ""
  else
    let posixish := JsString.replaceAll_backslash image in
    if JsString.startsWith posixish "images/" then posixish
    else
      let basename := JsString.basename posixish in
      if decide (basename = "") then "" else "images/" +:+ basename.

Definition normalizeImagePath (entry : json) : result string :=
  let* image := get entry "image" in
  ok (normalizeImage image).

(** ** Objects: property order and property writes *)

(** A property name is an array index when it is the canonical decimal
    form of an integer below 2^32 - 1. An object enumerates its array
    index properties first, in ascending numeric order, and then its other
    properties in creation order. *)
Definition arrayIndex (k : string) : option N :=
  match NilEmpty.uint_of_string k with
  | Some u =>
      let n := N.of_uint u in
      if decide (NilZero.string_of_uint (N.to_uint n) = k)
      then (if decide (n < 4294967295)%N then Some n else None)
      else None
  | None => None
  end.

(** Overwrite the value of a property that exists, keeping its place. *)
Fixpoint overwrite {A} (k : string) (v : A) (l : list (string * A))
  : list (string * A) :=
  match l with
  | [] => []
  | (k', v') :: l' =>
      if decide (k = k') then (k, v) :: l' else (k', v') :: overwrite k v l'
  end.

(** Create an array index property [k] (of index [n]): it goes before the
    first property that is not an array index or has a larger index. *)
Fixpoint createIndex {A} (n : N) (k : string) (v : A) (l : list (string * A))
  : list (string * A) :=
  match l with
  | [] => [(k, v)]
  | (k', v') :: l' =>
      match arrayIndex k' with
      | Some n' =>
          if decide (n' < n)%N then (k', v') :: createIndex n k v l'
          else (k, v) :: l
      | None => (k, v) :: l
      end
  end.

(** [o[k] = v] on the property list of [o]. *)
Definition setProp {A} (k : string) (v : A) (l : list (string * A))
  : list (string * A) :=
  match assoc k l with
  | Some _ => overwrite k v l
  | None =>
      match arrayIndex k with
      | Some n => createIndex n k v l
      | None => l ++ [(k, v)]
      end
  end.

(** The assignment [out[k] = v] on an object literal [out]: a write like
    any other, except under the name [__proto__], where the assignment
    reaches the accessor of [Object.prototype] and creates no property. *)
Definition assign {A} (k : string) (v : A) (l : list (string * A))
  : list (string * A) :=
  if decide (k = "__proto__") then l else setProp k v l.

(** The property names of an object, [Object.keys(o)]. *)
Definition keys {A} (l : list (string * A)) : list string := l.*1.

(** [arr.sort()] on strings: ascending by code units. The order is total
    and antisymmetric, so every correct sort returns this list. *)
Definition sortStrings (l : list string) : list string :=
  merge_sort String.le l.

(** The property name of the element [i] of an array or a string. *)
Definition indexKey (i : nat) : string :=
  NilZero.string_of_uint (Nat.to_uint i).

(** The properties copied by [{...e}]: the own enumerable properties of
    [e], in enumeration order. An array spreads its elements under their
    indices, a string its code units; other primitives spread nothing. *)
Definition spread (e : json) : list (string * json) :=
  match e with
  | JObj props => props
  | JArr items => imap (fun i v => (indexKey i, v)) items
  | JStr s =>
      imap (fun i c => (indexKey i, JStr (String c EmptyString)))
           (list_ascii_of_string s)
  | _ => []
  end.

(** [entries.map(f)] for a callback that may throw. *)
Fixpoint mapResult {A B} (f : A → result B) (l : list A) : result (list B) :=
  match l with
  | [] => ok []
  | x :: rest =>
      let* y := f x in
      let* ys := mapResult f rest in
      ok (y :: ys)
  end.

(** ** String conversion of a value, as a template literal does it *)

(** [`${v}`]. An array joins the conversions of its elements, [null]
    counting for nothing. An object is converted by the [toString] it
    finds: the one of [Object.prototype], unless the object has a property
    of that name of its own; a value read from JSON is never callable, so
    the conversion then goes on to [valueOf], which returns the object
    itself, and ends in a TypeError. *)
Fixpoint toString (v : json) : result string :=
  match v with
  | JNull => ok "null"
  | JBool true => ok "true"
  | JBool false => ok "false"
  | JNum n => ok (numberToString n)
  | JStr s => ok s
  | JArr items =>
      let* parts :=
        mapResult
          (fun x => match x with JNull => ok "" | _ => toString x end) items in
      ok (JsString.join "," parts)
  | JObj props =>
      match assoc "toString" props with
      | Some _ => throw TypeError
      | None => ok "[object Object]"
      end
  end.

(** ** Lite projections *)

Definition toLiteAmiibo (entry : json) : result json :=
  let* amiiboSeries := get entry "amiiboSeries" in
  let* character := get entry "character" in
  let* gameSeries := get entry "gameSeries" in
  let* head := get entry "head" in
  let* image := normalizeImagePath entry in
  let* name := get entry "name" in
  let* tail := get entry "tail" in
  let* type := get entry "type" in
  ok (JObj [ ("amiiboSeries", nullish amiiboSeries (JStr ""));
             ("character", nullish character (JStr ""));
             ("gameSeries", nullish gameSeries (JStr ""));
             ("head", nullish head (JStr ""));
             ("image", JStr image);
             ("name", nullish name (JStr ""));
             ("tail", nullish tail (JStr ""));
             ("type", nullish type (JStr "amiibo")) ]).

Definition toLiteSkylander (entry : json) : result json :=
  let* gameSeries := get entry "gameSeries" in
  let* gameSeriesName := get entry "gameSeriesName" in
  let* game := get entry "game" in
  let* figureId := get entry "figureId" in
  let* variant := get entry "variant" in
  let* sig := get entry "sig" in
  let* image := normalizeImagePath entry in
  let* name := get entry "name" in
  let* type := get entry "type" in
  ok (JObj [ ("gameSeries",
               nullish gameSeries
                 (nullish gameSeriesName (nullish game (JStr ""))));
             ("figureId", nullish figureId (JNum (NumInt 0)));
             ("variant", nullish variant (JNum (NumInt 0)));
             ("sig", nullish sig (JNum (NumInt 0)));
             ("image", JStr image);
             ("name", nullish name (JStr ""));
             ("type", nullish type (JStr "skylander")) ]).

(** ** Patch classification *)

Definition isNumber (x : option json) : bool :=
  match x with
  | Some (JNum _) => true
  | _ => false
  end.

(** [(e?.type ?? "").toLowerCase()]: only a string has the method. *)
Definition typeTag (e : json) : result string :=
  match nullish (getOpt e "type") (JStr "") with
  | JStr s => ok (JsString.toLowerCase s)
  | _ => throw TypeError
  end.

Definition looksSky (e : json) : result bool :=
  let* type := typeTag e in
  ok (bool_decide (type = "skylander")
      || isNumber (getOpt e "figureId")
      || isNumber (getOpt e "variant")
      || isNumber (getOpt e "sig")).

Definition classify (e : json) : result namespace :=
  let* sky := looksSky e in
  ok (if sky then Skylander else Amiibo).

(** The inner loop of [loadPatchEntriesAndImageDirs] over one parsed
    patch file, pushing onto the two accumulators. *)
Fixpoint classifyEntries (parsed : list json) (amiibo sky : list json)
  : result (list json * list json) :=
  match parsed with
  | [] => ok (amiibo, sky)
  | e :: rest =>
      let* ns := classify e in
      match ns with
      | Skylander => classifyEntries rest amiibo (sky ++ [e])
      | Amiibo => classifyEntries rest (amiibo ++ [e]) sky
      end
  end.

(** ** Duplicate validation *)

(** [v !== ""] *)
Definition notEmptyString (v : json) : bool :=
  match v with
  | JStr "" => false
  | _ => true
  end.

Definition amiiboHead (e : json) : json := nullish (getOpt e "head") (JStr "").
Definition amiiboTail (e : json) : json := nullish (getOpt e "tail") (JStr "").

(** [`${head}-${tail}`] *)
Definition amiiboKey (e : json) : result string :=
  let* head := toString (amiiboHead e) in
  let* tail := toString (amiiboTail e) in
  ok (head +:+ "-" +:+ tail).

Fixpoint validateAmiibo (seen : gset string) (entries : list json)
  : result unit :=
  match entries with
  | [] => ok ()
  | e :: rest =>
      let* key := amiiboKey e in
      if notEmptyString (amiiboHead e) && notEmptyString (amiiboTail e)
         && bool_decide (key ∈ seen)
      then throw (DuplicateRecord Amiibo key)
      else validateAmiibo ({[key]} ∪ seen) rest
  end.

(** [typeof x === "number" && Number.isFinite(x) ? x : null] *)
Definition finiteNumber (x : option json) : option number :=
  match x with
  | Some (JNum n) => if isFinite n then Some n else None
  | _ => None
  end.

(** [`${x ?? "?"}`] *)
Definition orQuestionMark (x : option number) : string :=
  match x with
  | Some n => numberToString n
  | None => "?"
  end.

Definition skylanderKey (e : json) : string :=
  match finiteNumber (getOpt e "sig") with
  | Some sig => "sig:" +:+ numberToString sig
  | None =>
      "figureId-variant:"
        +:+ orQuestionMark (finiteNumber (getOpt e "figureId"))
        +:+ "-"
        +:+ orQuestionMark (finiteNumber (getOpt e "variant"))
  end.

Fixpoint validateSkylanders (seen : gset string) (entries : list json)
  : result unit :=
  match entries with
  | [] => ok ()
  | e :: rest =>
      let key := skylanderKey e in
      if bool_decide (key ∈ seen)
      then throw (DuplicateRecord Skylander key)
      else validateSkylanders ({[key]} ∪ seen) rest
  end.

Definition validateNoDuplicates (amiiboEntries skylanderEntries : list json)
  : result unit :=
  let* _ := validateAmiibo ∅ amiiboEntries in
  validateSkylanders ∅ skylanderEntries.

(** ** The merged catalogs and the two outputs of [main] *)

(** [parseBaseNamespace(parsed, keyName)] *)
Definition parseBaseNamespace (parsed : json) (keyName : string)
  : result (list json) :=
  match parsed with
  | JArr entries => ok entries
  | _ =>
      match getOpt parsed keyName with
      | Some (JArr entries) => ok entries
      | _ => throw MalformedBase
      end
  end.

(** [{ ...e, type: e.type ?? tag, image: normalizeImagePath(e) }] *)
Definition normalizeEntry (tag : string) (e : json) : result json :=
  let copied := spread e in
  let* type := get e "type" in
  let typed := setProp "type" (nullish type (JStr tag)) copied in
  let* image := normalizeImagePath e in
  ok (JObj (setProp "image" (JStr image) typed)).

Definition normalizedAmiibo (amiiboEntries : list json) : result (list json) :=
  mapResult (normalizeEntry "amiibo") amiiboEntries.

Definition normalizedSkylanders (skylanderEntries : list json)
  : result (list json) :=
  mapResult (normalizeEntry "skylander") skylanderEntries.

Definition fullOut (amiiboEntries skylanderEntries : list json) : result json :=
  let* amiibo := normalizedAmiibo amiiboEntries in
  let* skylanders := normalizedSkylanders skylanderEntries in
  ok (JObj [("amiibo", JArr amiibo); ("skylanders", JArr skylanders)]).

Definition liteOut (amiiboEntries skylanderEntries : list json) : result json :=
  let* amiibo := normalizedAmiibo amiiboEntries in
  let* skylanders := normalizedSkylanders skylanderEntries in
  let* liteAmiibo := mapResult toLiteAmiibo amiibo in
  let* liteSkylanders := mapResult toLiteSkylander skylanders in
  ok (JObj [("amiibo", JArr liteAmiibo); ("skylanders", JArr liteSkylanders)]).

(** The records of a namespace, read back from an output. *)
Definition recordsOf (out : json) (ns : string) : list json :=
  match getOpt out ns with
  | Some (JArr records) => records
  | _ => []
  end.

(** ** The patch tree and the image directories *)

(** A directory entry: a regular file, a directory with its entries, or
    anything else (a link, a socket, ...), for which both [isFile()] and
    [isDirectory()] answer false. *)
Inductive fsnode :=
| File
| Dir (items : list (string * fsnode))
| Other.

(** A path is the list of its components: [path.join(dir, name)] adds one
    component, [p.split(path.sep)] gives the list back. An absolute path
    starts with the empty component. *)
Abbreviation path := (list string).

Fixpoint listFilesUnder (p : path) (node : fsnode) : list path :=
  match node with
  | File => [p]
  | Other => []
  | Dir items =>
      (fix each (its : list (string * fsnode)) : list path :=
         match its with
         | [] => []
         | (name, it) :: rest => listFilesUnder (p ++ [name]) it ++ each rest
         end) items
  end.

(** [listFilesRecursive(dir)] where [items] is what [readdir(dir)] lists. *)
Definition listFilesRecursive (dir : path) (items : list (string * fsnode))
  : list path :=
  listFilesUnder dir (Dir items).

(** [parts.lastIndexOf("images")], [None] standing for -1. *)
Fixpoint lastIndexOf (x : string) (parts : list string) : option nat :=
  match parts with
  | [] => None
  | p :: rest =>
      match lastIndexOf x rest with
      | Some i => Some (S i)
      | None => if decide (p = x) then Some 0 else None
      end
  end.

(** The directory a file contributes, when it contributes one. *)
Definition imageDirOf (f : path) : option path :=
  match lastIndexOf "images" f with
  | Some idx => Some (take (idx + 1) f)
  | None => None
  end.

(** [set.add(x)] on a [Set] kept in insertion order. *)
Definition setAdd (x : path) (set : list path) : list path :=
  if decide (x ∈ set) then set else set ++ [x].

(** The loop over [files] that fills [patchImageDirs]. *)
Fixpoint collectImageDirs (files : list path) (set : list path) : list path :=
  match files with
  | [] => set
  | f :: rest =>
      match imageDirOf f with
      | Some imgDir => collectImageDirs rest (setAdd imgDir set)
      | None => collectImageDirs rest set
      end
  end.

(** [patchImageDirs] as [loadPatchEntriesAndImageDirs] returns it, for a
    patches root [root] whose entries are [items]. *)
Definition patchImageDirs (root : path) (items : list (string * fsnode))
  : list path :=
  collectImageDirs (listFilesRecursive root items) [].

(** [f.toLowerCase().endsWith(".json")]: the five code units can only lie
    in the last component of the path. *)
Definition isJsonFile (f : path) : bool :=
  match last f with
  | Some name => JsString.endsWith (JsString.toLowerCase name) ".json"
  | None => false
  end.

(** The loop over [patchJsonFiles]; [read f] stands for reading the file
    [f] and parsing its text, and fails as they do. *)
Fixpoint loadPatchFiles (read : path → result json) (files : list path)
    (amiibo sky : list json) : result (list json * list json) :=
  match files with
  | [] => ok (amiibo, sky)
  | file :: rest =>
      let* parsed := read file in
      match parsed with
      | JArr entries =>
          let* acc := classifyEntries entries amiibo sky in
          loadPatchFiles read rest acc.1 acc.2
      | _ => throw MalformedPatch
      end
  end.

(** [loadPatchEntriesAndImageDirs()], for a patches root [root] that does
    not exist ([None]) or holds the entries [items]. *)
Definition loadPatchEntriesAndImageDirs (read : path → result json)
    (root : path) (patches : option (list (string * fsnode)))
  : result (list json * list json * list path) :=
  match patches with
  | None => ok ([], [], [])
  | Some items =>
      let files := listFilesRecursive root items in
      let patchJsonFiles := filter (fun f => isJsonFile f = true) files in
      let* acc := loadPatchFiles read patchJsonFiles [] [] in
      ok (acc.1, acc.2, patchImageDirs root items)
  end.

(** [locates node rel n]: following the relative path [rel] down from
    [node], one entry per component, ends on [n]. *)
Inductive locates : fsnode → path → fsnode → Prop :=
| locates_here node : locates node [] node
| locates_child items name child rel n :
    (name, child) ∈ items → locates child rel n →
    locates (Dir items) (name :: rel) n.

Definition isDir (n : fsnode) : bool :=
  match n with Dir _ => true | _ => false end.

(** Every directory under the patches root whose name is "images". *)
Definition isImagesDirectory (root : path) (items : list (string * fsnode))
    (p : path) : Prop :=
  ∃ rel node, p = root ++ rel ∧ last rel = Some "images"
              ∧ locates (Dir items) rel node ∧ isDir node = true.

(** Such a directory, holding a regular file that is reached from it
    without entering a further "images" directory. *)
Definition isImagesDirectoryWithOwnFile (root : path)
    (items : list (string * fsnode)) (p : path) : Prop :=
  ∃ rel node below, p = root ++ rel ∧ last rel = Some "images"
              ∧ locates (Dir items) rel node ∧ isDir node = true
              ∧ locates node below File ∧ "images" ∉ below.

(** No regular file of the tree is itself named "images". *)
Definition noFileNamedImages (items : list (string * fsnode)) : Prop :=
  Forall (fun f => last f ≠ Some "images") (listFilesRecursive [] items).

(** ** [JSON.stringify] on a value without cycles *)

Module Json.

Definition quote : ascii := "034"%char.

Definition hexDigit (n : N) : ascii :=
  if (n <? 10)%N then ascii_of_N (48 + n) else ascii_of_N (87 + n).

(** One code unit inside a quoted string. *)
Definition escape (c : ascii) : string :=
  let n := N_of_ascii c in
  if (n =? 8)%N then "\b"
  else if (n =? 9)%N then "\t"
  else if (n =? 10)%N then "\n"
  else if (n =? 12)%N then "\f"
  else if (n =? 13)%N then "\r"
  else if (n =? 34)%N then String "\"%char (String quote EmptyString)
  else if (n =? 92)%N then "\\"
  else if (n <? 32)%N
       then "\u00" +:+ String (hexDigit (n / 16))
                        (String (hexDigit (n mod 16)) EmptyString)
  else String c EmptyString.

Fixpoint escapeAll (s : string) : string :=
  match s with
  | EmptyString => EmptyString
  | String c s' => escape c +:+ escapeAll s'
  end.

Definition quoteString (s : string) : string :=
  String quote (escapeAll s +:+ String quote EmptyString).

Fixpoint stringify (v : json) : string :=
  match v with
  | JNull => "null"
  | JBool true => "true"
  | JBool false => "false"
  | JNum n => if isFinite n then numberToString n else "null"
  | JStr s => quoteString s
  | JArr items => "[" +:+ JsString.join "," (map stringify items) +:+ "]"
  | JObj props =>
      "{" +:+ JsString.join ","
                (map (fun kv => quoteString kv.1 +:+ ":" +:+ stringify kv.2)
                     props)
          +:+ "}"
  end.

End Json.

(** ** The canonical serializer *)

(** The serializer tells one object from another by identity, so its
    input lives in a store: a value is a primitive or a reference to an
    object of the store, and an object holds values. *)
Abbreviation addr := nat.

Inductive value :=
| VNull
| VBool (b : bool)
| VNum (n : number)
| VStr (s : string)
| VRef (a : addr).

Inductive object :=
| OArr (items : list value)
| OObj (props : list (string * value)).

Abbreviation heap := (list object).

(** A computation of the model that spends fuel: [None] when the fuel runs
    out (or a reference points outside the store), otherwise the outcome
    of the script. *)
Definition fueled (A : Type) : Type := option (result A).

Definition done {A} (a : A) : fueled A := Some (ok a).

Definition bindF {A B} (r : fueled A) (k : A → fueled B) : fueled B :=
  match r with
  | None => None
  | Some (inl e) => Some (inl e)
  | Some (inr a) => k a
  end.

Notation "'let+' x ':=' r 'in' k" := (bindF r (fun x => k))
  (at level 10, x name, r at level 100, k at level 200).

Section sorter_loops.

(** The recursive call, with the [WeakSet] passed in and out. *)
Variable sorter : gset addr → value → fueled (json * gset addr).

(** [value.map(sorter)] *)
Fixpoint mapSorter (seen : gset addr) (items : list value)
  : fueled (list json * gset addr) :=
  match items with
  | [] => done ([], seen)
  | x :: rest =>
      let+ r := sorter seen x in
      let+ rs := mapSorter r.2 rest in
      done (r.1 :: rs.1, rs.2)
  end.

(** [for (const k of sortedKeys) out[k] = sorter(value[k])] *)
Fixpoint sortProps (props : list (string * value)) (seen : gset addr)
    (sortedKeys : list string) (out : list (string * json))
  : fueled (list (string * json) * gset addr) :=
  match sortedKeys with
  | [] => done (out, seen)
  | k :: rest =>
      match assoc k props with
      | Some v =>
          let+ r := sorter seen v in
          sortProps props r.2 rest (assign k r.1 out)
      | None => sortProps props seen rest out
      end
  end.

End sorter_loops.

Fixpoint sorter (fuel : nat) (h : heap) (seen : gset addr) (v : value)
  : fueled (json * gset addr) :=
  match fuel with
  | 0 => None
  | S fuel' =>
      match v with
      | VNull => done (JNull, seen)
      | VBool b => done (JBool b, seen)
      | VNum n => done (JNum n, seen)
      | VStr s => done (JStr s, seen)
      | VRef a =>
          if decide (a ∈ seen) then Some (throw CircularStructure)
          else
            let seen := {[a]} ∪ seen in
            match h !! a with
            | None => None
            | Some (OArr items) =>
                let+ r := mapSorter (sorter fuel' h) seen items in
                done (JArr r.1, r.2)
            | Some (OObj props) =>
                let+ r := sortProps (sorter fuel' h) props seen
                            (sortStrings (keys props)) [] in
                done (JObj r.1, r.2)
            end
      end
  end.

(** [stableJsonStringify(obj)], for [obj] in the store [h]. Every nested
    call of [sorter] has put one more object of the store in [seen], so
    the nesting never exceeds the size of the store. *)
Definition stableJsonStringify (h : heap) (obj : value) : fueled string :=
  let+ r := sorter (S (length h)) h ∅ obj in
  done (Json.stringify r.1).

(** Building a tree in the store, as [JSON.parse] and object literals do:
    every array and object of the tree becomes a new object, created once
    its elements are. *)
Section alloc_loops.

Variable alloc : json → heap → value * heap.

Fixpoint allocItems (items : list json) (h : heap) : list value * heap :=
  match items with
  | [] => ([], h)
  | x :: rest =>
      let r1 := alloc x h in
      let r2 := allocItems rest r1.2 in
      (r1.1 :: r2.1, r2.2)
  end.

Fixpoint allocProps (props : list (string * json)) (h : heap)
  : list (string * value) * heap :=
  match props with
  | [] => ([], h)
  | kx :: rest =>
      let r1 := alloc kx.2 h in
      let r2 := allocProps rest r1.2 in
      ((kx.1, r1.1) :: r2.1, r2.2)
  end.

End alloc_loops.

Fixpoint alloc (t : json) (h : heap) : value * heap :=
  match t with
  | JNull => (VNull, h)
  | JBool b => (VBool b, h)
  | JNum n => (VNum n, h)
  | JStr s => (VStr s, h)
  | JArr items =>
      let r := allocItems alloc items h in
      (VRef (length r.2), r.2 ++ [OArr r.1])
  | JObj props =>
      let r := allocProps alloc props h in
      (VRef (length r.2), r.2 ++ [OObj r.1])
  end.

(** The serializer applied to a freshly built tree. *)
Definition stableJsonStringifyTree (t : json) : fueled string :=
  let r := alloc t [] in
  stableJsonStringify r.2 r.1.

(** The fixed locations under the working directory [ROOT]. *)
Definition RESOURCES_DIR (ROOT : path) : path := ROOT ++ ["resources"].
Definition BASE_DIR (ROOT : path) : path := RESOURCES_DIR ROOT ++ ["base"].
Definition AMIIBO_BASE_PATH (ROOT : path) : path :=
  BASE_DIR ROOT ++ ["amiibo"; "tagBase.json"].
Definition SKYLANDERS_BASE_PATH (ROOT : path) : path :=
  BASE_DIR ROOT ++ ["skylanders"; "tagBase.json"].
Definition PATCHES_DIR (ROOT : path) : path := RESOURCES_DIR ROOT ++ ["patches"].

(** What [sorter] returns on a tree: arrays keep their order, every object
    is rebuilt by writing its properties in sorted key order. *)
Fixpoint sortedCopy (t : json) : json :=
  match t with
  | JArr items => JArr (map sortedCopy items)
  | JObj props =>
      let copied := map (fun kv => (kv.1, sortedCopy kv.2)) props in
      JObj (fold_left
              (fun out k =>
                 match assoc k copied with
                 | Some v => assign k v out
                 | None => out
                 end)
              (sortStrings (keys props)) [])
  | _ => t
  end.

(** Two trees with the same content: equal primitives, arrays equal
    element by element, objects with the same property names and the same
    content under each name, whatever the order of the properties. *)
Inductive sameContent : json → json → Prop :=
| same_null : sameContent JNull JNull
| same_bool b : sameContent (JBool b) (JBool b)
| same_num n : sameContent (JNum n) (JNum n)
| same_str s : sameContent (JStr s) (JStr s)
| same_arr l1 l2 :
    Forall2 sameContent l1 l2 → sameContent (JArr l1) (JArr l2)
| same_obj p1 p2 :
    NoDup (keys p1) → NoDup (keys p2) →
    (∀ k, option_Forall2 sameContent (assoc k p1) (assoc k p2)) →
    sameContent (JObj p1) (JObj p2).

(** Reachability between the objects of a store. *)
Definition refsOf (o : object) : list value :=
  match o with
  | OArr items => items
  | OObj props => props.*2
  end.

Inductive reaches (h : heap) : addr → addr → Prop :=
| reaches_step a b o :
    h !! a = Some o → VRef b ∈ refsOf o → reaches h a b
| reaches_trans a b c :
    reaches h a b → reaches h b c → reaches h a c.

(** A value of the store contains a cycle when some object reachable from
    it reaches itself. *)
Definition reachableFrom (h : heap) (v : value) (a : addr) : Prop :=
  v = VRef a ∨ ∃ r, v = VRef r ∧ reaches h r a.

Definition hasCycle (h : heap) (v : value) : Prop :=
  ∃ a, reachableFrom h v a ∧ reaches h a a.

(** ** Notions used in the statements about the normalizer *)

(** [b] is the final path segment of [p]: what is left of [p] once the
    separators that close it and everything up to the separator before
    the segment are taken away. A path made of separators only (or the
    empty path) has the empty final segment. *)
Definition finalSegmentOf (p b : string) : Prop :=
  ∃ pre post,
    p = pre +:+ b +:+ post
    ∧ Forall (fun c => c = JsString.slash) (list_ascii_of_string post)
    ∧ Forall (fun c => c ≠ JsString.slash) (list_ascii_of_string b)
    ∧ (pre = "" ∨ JsString.endsWith pre "/" = true)
    ∧ (b = "" → pre = "").

(** ** Notions used in the statement about the image directories *)

(** A directory under the patches root whose name is "images" and that
    holds a regular file, at whatever depth. *)
Definition isImagesDirectoryHoldingFile (root : path)
    (items : list (string * fsnode)) (p : path) : Prop :=
  ∃ rel node below, p = root ++ rel ∧ last rel = Some "images"
              ∧ locates (Dir items) rel node ∧ isDir node = true
              ∧ locates node below File.

(** No regular file of the tree lies under two directories named
    "images", one inside the other. *)
Definition noNestedImages (items : list (string * fsnode)) : Prop :=
  Forall (fun f => (length (filter (fun c => c = "images") f) ≤ 1)%nat)
         (listFilesRecursive [] items).

(** ** Notions used in the statements about duplicate validation *)

(** A skylander record without a finite numeric [sig], [figureId] and
    [variant]. *)
Definition lacksNumericIdentity (e : json) : Prop :=
  finiteNumber (getOpt e "sig") = None
  ∧ finiteNumber (getOpt e "figureId") = None
  ∧ finiteNumber (getOpt e "variant") = None.

Definition fallbackKey : string := "figureId-variant:?-?".

(** A string field without the hyphen that joins the amiibo key. *)
Definition hyphenFree (s : string) : Prop :=
  Forall (fun c => c ≠ "-"%char) (list_ascii_of_string s).

(** An amiibo record whose key can be built: converting its head and its
    tail to strings raises no TypeError. *)
Definition printsKey (e : json) : Prop := ∃ key, amiiboKey e = ok key.

(** The key of such a record. *)
Definition keyText (e : json) : string :=
  match amiiboKey e with
  | inr key => key
  | inl _ => ""
  end.

(** An amiibo record as the catalogs have them: head and tail are
    strings (or absent, or null, and then read as the empty string), and
    the head holds no hyphen. *)
Definition plainIdentity (e : json) : Prop :=
  ∃ h t, amiiboHead e = JStr h ∧ amiiboTail e = JStr t ∧ hyphenFree h.

(** ** Notions used in the statements about the two outputs *)

Definition amiiboLiteFields : list string :=
  ["amiiboSeries"; "character"; "gameSeries"; "head"; "image"; "name"; "tail"].

Definition skylanderLiteFields : list string :=
  ["gameSeries"; "figureId"; "variant"; "sig"; "image"; "name"].

(** The documented default of a field: zero for the three integer fields
    of a skylander, the empty string otherwise. *)
Definition fieldDefault (f : string) : json :=
  if decide (f ∈ ["figureId"; "variant"; "sig"]) then JNum (NumInt 0)
  else JStr "".

Definition absentOrNull (x : option json) : Prop :=
  x = None ∨ x = Some JNull.

(** What the specification asks of a lite record [r] of the record with
    properties [props]: every field of the schema is there, is not null,
    and holds the default when the source field is absent or null. *)
Definition liteComplete (fields : list string) (props : list (string * json))
    (r : json) : Prop :=
  ∀ f, f ∈ fields →
    ∃ v, getOpt r f = Some v ∧ v ≠ JNull
         ∧ (absentOrNull (assoc f props) → v = fieldDefault f).

(** The same, but for the game series of a skylander, which falls back on
    two other source fields before the default. *)
Definition liteCompleteSkylander (props : list (string * json)) (r : json)
  : Prop :=
  ∀ f, f ∈ skylanderLiteFields →
    ∃ v, getOpt r f = Some v ∧ v ≠ JNull
         ∧ (absentOrNull (assoc f props) →
            v = if decide (f = "gameSeries")
                then nullish (assoc "gameSeriesName" props)
                       (nullish (assoc "game" props) (JStr ""))
                else fieldDefault f).





(** The properties of [normalizeEntry tag (JObj props)]. *)
Definition normalizedProps (tag : string) (props : list (string * json))
  : list (string * json) :=
  setProp "image" (JStr (normalizeImage (assoc "image" props)))
    (setProp "type" (nullish (assoc "type" props) (JStr tag)) props).

(** ** Notions used in the statements about the serializer *)

(** A tree as [JSON.parse] builds it: the property names of every object
    are distinct. *)
Inductive wellFormed : json → Prop :=
| wf_null : wellFormed JNull
| wf_bool b : wellFormed (JBool b)
| wf_num n : wellFormed (JNum n)
| wf_str s : wellFormed (JStr s)
| wf_arr items : Forall wellFormed items → wellFormed (JArr items)
| wf_obj props :
    NoDup (keys props) → Forall (fun kv => wellFormed kv.2) props →
    wellFormed (JObj props).

(** The addresses from [lo] up to [hi], [hi] left out. *)
Definition span (lo hi : nat) : gset addr := set_seq lo (hi - lo).

(** None of these addresses is in [seen]. *)
Definition fresh (lo hi : nat) (seen : gset addr) : Prop :=
  ∀ a, lo ≤ a < hi → a ∉ seen.

(** [v] stands in the store [h] for the tree [t], whose objects occupy
    the addresses from [lo] to [hi]: with enough fuel and none of these
    addresses seen, [sorter] returns the sorted copy of [t] and has seen
    them all. *)
Definition sortsTo (h : heap) (t : json) (v : value) (lo hi : nat) : Prop :=
  ∀ fuel seen,
    hi - lo < fuel → fresh lo hi seen →
    sorter fuel h seen v = done (sortedCopy t, span lo hi ∪ seen).

(** One step of the loop that rebuilds an object, on a tree. *)
Definition copyStep (props : list (string * json))
    (out : list (string * json)) (k : string) : list (string * json) :=
  match assoc k (map (fun kv => (kv.1, sortedCopy kv.2)) props) with
  | Some v => assign k v out
  | None => out
  end.

(** Where [allocProps] puts the value of each property: the addresses
    its objects occupy. *)
Fixpoint layout (props : list (string * json)) (h : heap)
  : list (string * (nat * nat)) :=
  match props with
  | [] => []
  | kx :: rest =>
      let r1 := alloc kx.2 h in
      (kx.1, (length h, length r1.2)) :: layout rest r1.2
  end.

Definition region (lay : list (string * (nat * nat))) (k : string)
  : nat * nat :=
  default (0, 0) (assoc k lay).

(** A store as JavaScript has them: every reference points to an object
    of the store, and the property names of an object are distinct. *)
Definition inStore (h : heap) (v : value) : Prop :=
  match v with
  | VRef a => a < length h
  | _ => True
  end.

Definition closedStore (h : heap) : Prop :=
  ∀ a o, h !! a = Some o → Forall (inStore h) (refsOf o).

Definition distinctNames (h : heap) : Prop :=
  ∀ a props, h !! a = Some (OObj props) → NoDup (keys props).

(** The number of objects of the store that are not in [seen]. *)
Definition unseen (h : heap) (seen : gset addr) : nat :=
  size (set_seq 0 (length h) ∖ seen : gset addr).

(** What a call of [sorter], or of one of its loops, may answer when it
    has fuel left for every object not yet seen: an answer, which is the
    CircularStructure error or a result with a larger [seen]; in the
    second case no object reachable from the values it went through was
    in [seen] before, and none of them reaches itself. *)
Definition answersWell {A} (h : heap) (seen : gset addr) (through : list value)
    (r : fueled (A * gset addr)) : Prop :=
  match r with
  | None => False
  | Some (inl e) => e = CircularStructure
  | Some (inr (_, seen')) =>
      seen ⊆ seen'
      ∧ ∀ c a, c ∈ through → reachableFrom h c a →
               (a ∉ seen) ∧ ¬ reaches h a a
  end.

(** [unfolds h v t]: read from the value [v] down through the store [h],
    object after object, the content is the tree [t]. A shared object is
    read once for each of its occurrences; a value with a cycle unfolds
    to no tree. *)
Inductive unfolds (h : heap) : value → json → Prop :=
| unfolds_null : unfolds h VNull JNull
| unfolds_bool b : unfolds h (VBool b) (JBool b)
| unfolds_num n : unfolds h (VNum n) (JNum n)
| unfolds_str s : unfolds h (VStr s) (JStr s)
| unfolds_arr a items ts :
    h !! a = Some (OArr items) → Forall2 (unfolds h) items ts →
    unfolds h (VRef a) (JArr ts)
| unfolds_obj a props tprops :
    h !! a = Some (OObj props) →
    Forall2 (fun kv kt => kv.1 = kt.1 ∧ unfolds h kv.2 kt.2) props tprops →
    unfolds h (VRef a) (JObj tprops).

(** ** Notions used in the further properties of the pipeline *)

(** The property names of a record, in enumeration order. *)
Definition propNames (r : json) : list string :=
  match r with
  | JObj props => keys props
  | _ => []
  end.

(** A dist-relative image path as the outputs hold it: empty, or under
    the images root, and written with forward slashes. *)
Definition distImage (img : string) : Prop :=
  (img = "" ∨ JsString.startsWith img "images/" = true)
  ∧ JsString.no_backslash img.

(** What a lite record [l] shares with the full record [r] it is made
    from: the image and the type; and it has the names [names] and no
    other. *)
Definition liteOfFull (names : list string) (r l : json) : Prop :=
  propNames l = names
  ∧ getOpt l "image" = getOpt r "image"
  ∧ getOpt l "type" = getOpt r "type".

(** How an entry is classified, as tests on the answer of [classify]. *)
Definition classifiable (e : json) : bool :=
  match classify e with inr _ => true | inl _ => false end.

Definition isAmiiboEntry (e : json) : bool :=
  match classify e with inr Amiibo => true | _ => false end.

Definition isSkylanderEntry (e : json) : bool :=
  match classify e with inr Skylander => true | _ => false end.

(** Every directory of the tree lists a name once. *)
Inductive uniqueNames : fsnode → Prop :=
| unique_file : uniqueNames File
| unique_other : uniqueNames Other
| unique_dir items :
    NoDup items.*1 → Forall (fun it => uniqueNames it.2) items →
    uniqueNames (Dir items).

(** The identity of a skylander record as the validation reads it: its
    finite [sig]; without one, the pair of its finite [figureId] and its
    finite [variant], each of them absent when the field holds no finite
    number. *)
Definition skylanderIdentity (e : json)
  : number + (option number * option number) :=
  match finiteNumber (getOpt e "sig") with
  | Some sig => inl sig
  | None =>
      inr (finiteNumber (getOpt e "figureId"),
           finiteNumber (getOpt e "variant"))
  end.

(** The text of a finite number or of the question mark that stands for
    a missing one: digits, after a minus sign or not. *)
Definition signedText (s : string) : Prop :=
  ∃ d, d ≠ "" ∧ hyphenFree d ∧ (s = d ∨ s = String "-" d).

(** No earlier amiibo record has the key of a record whose head and tail
    are both non-empty. *)
Definition amiiboKeysApart (entries : list json) : Prop :=
  ∀ i j ei ej,
    i < j → entries !! i = Some ei → entries !! j = Some ej →
    amiiboKey ei = amiiboKey ej →
    notEmptyString (amiiboHead ej) && notEmptyString (amiiboTail ej) = false.

(** The order in which an object enumerates properties that were written
    in ascending order of code units: the array indices first, by value,
    then the other names by code units. *)
Definition keyBefore (k1 k2 : string) : Prop :=
  match arrayIndex k1, arrayIndex k2 with
  | Some n1, Some n2 => (n1 < n2)%N
  | Some _, None => True
  | None, Some _ => False
  | None, None => String.le k1 k2 ∧ k1 ≠ k2
  end.

(** A tree in canonical form: every object has its property names in
    that order, and none under the name [__proto__]. *)
Inductive canonical : json → Prop :=
| canonical_null : canonical JNull
| canonical_bool b : canonical (JBool b)
| canonical_num n : canonical (JNum n)
| canonical_str s : canonical (JStr s)
| canonical_arr items : Forall canonical items → canonical (JArr items)
| canonical_obj props :
    StronglySorted keyBefore (keys props) →
    "__proto__" ∉ keys props →
    Forall (fun kv => canonical kv.2) props →
    canonical (JObj props).

(** The tree without the properties named [__proto__]. *)
Fixpoint withoutProto (t : json) : json :=
  match t with
  | JArr items => JArr (map withoutProto items)
  | JObj props =>
      JObj (filter (fun kv => kv.1 ≠ "__proto__")
              (map (fun kv => (kv.1, withoutProto kv.2)) props))
  | _ => t
  end.

(** The objects that [sorter] enters from a value, in the order of its
    calls, were the [WeakSet] not there to stop it: an object counts once
    for each of the ways that lead to it. [None] when the fuel runs out,
    as it does under a cycle for every amount of fuel. *)
Fixpoint entered (fuel : nat) (h : heap) (v : value) : option (list addr) :=
  match fuel with
  | 0 => None
  | S fuel' =>
      match v with
      | VRef a =>
          match h !! a with
          | Some (OArr items) =>
              match mapM (entered fuel' h) items with
              | Some ls => Some (a :: concat ls)
              | None => None
              end
          | Some (OObj props) =>
              match mapM (entered fuel' h)
                      (omap (fun k => assoc k props)
                            (sortStrings (keys props))) with
              | Some ls => Some (a :: concat ls)
              | None => None
              end
          | None => None
          end
      | _ => Some []
      end
  end.

(** A value shaped as a tree: the walk from it ends, and no object is
    entered twice. *)
Definition treeShaped (h : heap) (v : value) : Prop :=
  ∃ fuel l, entered fuel h v = Some l ∧ NoDup l.

(** ** Copying a directory *)

(** The calls that [copyDirPreserve] makes on the file system. *)
Inductive fsCall :=
| Mkdir (dir : path)
| CopyFile (src dst : path).

(** [path.relative(from, to)] on two absolute paths: the components they
    share at the start are dropped, and one [..] climbs out of each
    component of [from] that is left. *)
Fixpoint relative (from to : path) : path :=
  match from, to with
  | a :: from', b :: to' =>
      if decide (a = b) then relative from' to'
      else ((fun _ => "..") <$> from) ++ to
  | _, _ => ((fun _ => "..") <$> from) ++ to
  end.

(** [path.dirname(p)] *)
Definition dirname (p : path) : path := removelast p.

(** [copyDirPreserve(srcDir, dstDir)], as the list of its calls, for a
    source directory that does not exist ([None]) or holds the entries
    [items]. The relative path of a listed file is made of entry names,
    which [path.join] appends as they are. *)
Definition copyDirPreserve (srcDir dstDir : path)
    (source : option (list (string * fsnode))) : list fsCall :=
  match source with
  | None => []
  | Some items =>
      listFilesRecursive srcDir items ≫= fun src =>
        let rel := relative srcDir src in
        let dst := dstDir ++ rel in
        [Mkdir (dirname dst); CopyFile src dst]
  end.

(** The destinations of the copies among some calls. *)
Definition destinations (calls : list fsCall) : list path :=
  omap (fun c => match c with CopyFile _ dst => Some dst | Mkdir _ => None end)
       calls.

(** ** The older script

    The functions of the older copy of the script ([src/unnamed/part_000],
    one namespace, images copied flat) that the current one replaced. *)

Module Old.

(** The body of the older [normalizeImagePath] once [entry.image] has
    been read: always the base name, under the images root. *)
Definition normalizeImage (image_field : option json) : string :=
  let image := match image_field with Some (JStr s) => s | _ => "" end in
  let basename :=
    if decide (image = "") then "" else JsString.basename image in
  if decide (basename = "") then "" else "images/" +:+ basename.

Definition normalizeImagePath (entry : json) : result string :=
  let* image := get entry "image" in
  ok (normalizeImage image).

(** The loop of the older [validateNoDuplicates]: every key counts. *)
Fixpoint validate (seen : gset string) (entries : list json) : result unit :=
  match entries with
  | [] => ok ()
  | e :: rest =>
      let* key := amiiboKey e in
      if bool_decide (key ∈ seen)
      then throw (DuplicateRecord Amiibo key)
      else validate ({[key]} ∪ seen) rest
  end.

Definition validateNoDuplicates (entries : list json) : result unit :=
  validate ∅ entries.

(** [copyDirFlat(srcDir, dstDir)], as the list of its calls: the regular
    files among the entries of the directory, and no directory made. *)
Definition copyDirFlat (srcDir dstDir : path)
    (source : option (list (string * fsnode))) : list fsCall :=
  match source with
  | None => []
  | Some items =>
      omap (fun it : string * fsnode =>
              match it.2 with
              | File => Some (CopyFile (srcDir ++ [it.1]) (dstDir ++ [it.1]))
              | _ => None
              end)
           items
  end.

End Old.

(** ** The build *)

Definition DIST_DIR (ROOT : path) : path := ROOT ++ ["dist"].
Definition DIST_IMAGES_DIR (ROOT : path) : path := DIST_DIR ROOT ++ ["images"].

(** What the relative path [rel] holds below [node], a directory being
    searched for the entry of each name. *)
Fixpoint nodeAt (node : fsnode) (rel : path) : option fsnode :=
  match rel with
  | [] => Some node
  | name :: rest =>
      match node with
      | Dir items =>
          match assoc name items with
          | Some child => nodeAt child rest
          | None => None
          end
      | _ => None
      end
  end.

(** The loop of [main] over [patchImageDirs]:
    [copyDirPreserve(imgDir, DIST_IMAGES_DIR)] for each collected path, in
    order, as the list of the calls made. A collected path continues the
    patches root [root], which is taken to have no component named
    "images"; [exists] finds what the path holds, and [readdir] lists it
    when it is a directory and refuses it (ENOTDIR) when it is not. *)
Fixpoint copyPatchImages (root : path) (items : list (string * fsnode))
    (dstDir : path) (patchImageDirs : list path) : result (list fsCall) :=
  match patchImageDirs with
  | [] => ok []
  | imgDir :: rest =>
      let* calls :=
        match nodeAt (Dir items) (drop (length root) imgDir) with
        | None => ok (copyDirPreserve imgDir dstDir None)
        | Some (Dir sub) => ok (copyDirPreserve imgDir dstDir (Some sub))
        | Some _ => throw IoFailure
        end in
      let* more := copyPatchImages root items dstDir rest in
      ok (calls ++ more)
  end.

(** [main], up to the canonical texts of the full and of the lite
    output. The calls that write under [dist] (mkdir, copyFile, writeFile,
    rename) are taken to succeed, and so is the copy of the base images,
    whose directory exists as a directory or not at all; the full and the
    lite output hold no object twice, each record being a new object over
    the properties of one parsed entry. *)
Definition main (read : path → result json) (ROOT : path)
    (patches : option (list (string * fsnode))) : fueled (string * string) :=
  match
    (let* amiiboParsed := read (AMIIBO_BASE_PATH ROOT) in
     let* amiiboBaseEntries := parseBaseNamespace amiiboParsed "amiibo" in
     let* skyParsed := read (SKYLANDERS_BASE_PATH ROOT) in
     let* skyBaseEntries := parseBaseNamespace skyParsed "skylanders" in
     let* loaded :=
       loadPatchEntriesAndImageDirs read (PATCHES_DIR ROOT) patches in
     let amiiboEntries := amiiboBaseEntries ++ loaded.1.1 in
     let skylanderEntries := skyBaseEntries ++ loaded.1.2 in
     let* _ := validateNoDuplicates amiiboEntries skylanderEntries in
     let* _ :=
       match patches with
       | Some items =>
           copyPatchImages (PATCHES_DIR ROOT) items (DIST_IMAGES_DIR ROOT)
             loaded.2
       | None => ok []
       end in
     let* full := fullOut amiiboEntries skylanderEntries in
     let* lite := liteOut amiiboEntries skylanderEntries in
     ok (full, lite))
  with
  | inl e => Some (inl e)
  | inr outs =>
      let+ fullJson := stableJsonStringifyTree outs.1 in
      let+ liteJson := stableJsonStringifyTree outs.2 in
      done (fullJson, liteJson)
  end.

(** * Properties *)

(** ** Strings *)

Section string_facts.

Import JsString.

Lemma list_ascii_app s1 s2 :
  list_ascii_of_string (s1 +:+ s2)
  = list_ascii_of_string s1 ++ list_ascii_of_string s2.
Proof. induction s1 as [|c s1 IH]; simpl; [done|]. by rewrite IH. Qed.

Lemma string_of_list_app l1 l2 :
  string_of_list_ascii (l1 ++ l2)
  = string_of_list_ascii l1 +:+ string_of_list_ascii l2.
Proof. induction l1 as [|c l1 IH]; simpl; [done|]. by rewrite IH. Qed.

Lemma replaceAll_no_backslash s : no_backslash (replaceAll_backslash s).
Proof.
  unfold no_backslash.
  induction s as [|c s IH]; simpl; constructor; [|done].
  case_bool_decide; [done|assumption].
Qed.

Lemma replaceAll_fixed s :
  no_backslash s → replaceAll_backslash s = s.
Proof.
  unfold no_backslash.
  induction s as [|c s IH]; simpl; [done|].
  intros [Hc Hs]%Forall_cons. rewrite IH by done.
  by rewrite bool_decide_eq_false_2.
Qed.

Lemma no_backslash_app s1 s2 :
  no_backslash s1 → no_backslash s2 → no_backslash (s1 +:+ s2).
Proof.
  unfold no_backslash. rewrite list_ascii_app. apply Forall_app_2.
Qed.

Lemma takeWhile_dropWhile f l : takeWhile f l ++ dropWhile f l = l.
Proof.
  induction l as [|c l IH]; simpl; [done|].
  destruct (f c); simpl; [by rewrite IH|done].
Qed.

Lemma takeWhile_Forall f l : Forall (fun c => f c = true) (takeWhile f l).
Proof.
  induction l as [|c l IH]; simpl; [constructor|].
  destruct (f c) eqn:E; by constructor.
Qed.

Lemma dropWhile_head f l c l' : dropWhile f l = c :: l' → f c = false.
Proof.
  induction l as [|x l IH]; simpl; [done|].
  destruct (f x) eqn:E; [done|]. by intros [= <- _].
Qed.

Lemma takeWhile_sub (P : ascii → Prop) f l :
  Forall P l → Forall P (takeWhile f l).
Proof.
  induction 1 as [|c l Hc Hl IH]; simpl; [constructor|].
  destruct (f c); by constructor.
Qed.

Lemma dropWhile_sub (P : ascii → Prop) f l :
  Forall P l → Forall P (dropWhile f l).
Proof.
  induction 1 as [|c l Hc Hl IH]; simpl; [constructor|].
  destruct (f c); [done|by constructor].
Qed.

Lemma basename_no_backslash p : no_backslash p → no_backslash (basename p).
Proof.
  unfold no_backslash, basename. intros Hp.
  rewrite list_ascii_of_string_of_list_ascii.
  apply Forall_rev, takeWhile_sub, dropWhile_sub, Forall_rev, Hp.
Qed.

Lemma startsWith_app p s : startsWith (p +:+ s) p = true.
Proof.
  induction p as [|c p IH]; simpl; [reflexivity|].
  rewrite bool_decide_eq_true_2 by done. exact IH.
Qed.

Lemma startsWith_split s p :
  startsWith s p = true → ∃ rest, s = p +:+ rest.
Proof.
  revert s. induction p as [|c p IH]; intros s; simpl.
  - by exists s.
  - destruct s as [|b s]; [done|].
    intros [->%bool_decide_eq_true_1 [rest ->]%IH]%andb_prop.
    by exists rest.
Qed.

Lemma is_slash_true c : is_slash c = true ↔ c = slash.
Proof. unfold is_slash. by rewrite bool_decide_eq_true. Qed.

Lemma string_rev_app_list s acc :
  list_ascii_of_string (String.rev_app s acc)
  = rev (list_ascii_of_string s) ++ list_ascii_of_string acc.
Proof.
  revert acc. induction s as [|c s IH]; intros acc; simpl; [done|].
  rewrite IH. simpl. by rewrite <- app_assoc.
Qed.

Lemma string_rev_list s :
  list_ascii_of_string (String.rev s) = rev (list_ascii_of_string s).
Proof.
  unfold String.rev. rewrite string_rev_app_list. simpl.
  by rewrite app_nil_r.
Qed.

Lemma endsWith_slash_snoc l :
  endsWith (string_of_list_ascii (l ++ [slash])) "/" = true.
Proof.
  unfold endsWith.
  rewrite <- (string_of_list_ascii_of_string (String.rev _)).
  rewrite string_rev_list, list_ascii_of_string_of_list_ascii.
  rewrite rev_app_distr. simpl. reflexivity.
Qed.

(** [basename] returns the final path segment. *)
Lemma basename_finalSegment p : finalSegmentOf p (basename p).
Proof.
  unfold finalSegmentOf, basename.
  set (from_end := rev (list_ascii_of_string p)).
  set (trimmed := dropWhile is_slash from_end).
  set (seg := takeWhile (fun c => negb (is_slash c)) trimmed).
  set (rest := dropWhile (fun c => negb (is_slash c)) trimmed).
  assert (Hl : list_ascii_of_string p
               = rev rest ++ rev seg ++ rev (takeWhile is_slash from_end)).
  { rewrite <- !rev_app_distr, <- app_assoc.
    unfold seg, rest. rewrite takeWhile_dropWhile.
    unfold trimmed. rewrite takeWhile_dropWhile.
    unfold from_end. by rewrite rev_involutive. }
  exists (string_of_list_ascii (rev rest)),
         (string_of_list_ascii (rev (takeWhile is_slash from_end))).
  split; [|split; [|split; [|split]]].
  - rewrite <- !string_of_list_app, <- Hl.
    by rewrite string_of_list_ascii_of_string.
  - rewrite list_ascii_of_string_of_list_ascii. apply Forall_rev.
    eapply Forall_impl; [apply takeWhile_Forall|].
    intros c. apply is_slash_true.
  - rewrite list_ascii_of_string_of_list_ascii. apply Forall_rev.
    eapply Forall_impl; [apply takeWhile_Forall|].
    intros c Hc%negb_true_iff Heq. apply is_slash_true in Heq. congruence.
  - destruct rest as [|c rest'] eqn:E; [by left|right].
    apply dropWhile_head in E as Hc.
    apply negb_false_iff in Hc. apply is_slash_true in Hc. subst c.

    simpl. apply endsWith_slash_snoc.
  - intros Hb.
    assert (Hseg : seg = []).
    { apply (f_equal list_ascii_of_string) in Hb.
      rewrite list_ascii_of_string_of_list_ascii in Hb. simpl in Hb.
      by apply (f_equal (@rev ascii)) in Hb;
        rewrite rev_involutive in Hb. }
    assert (Htr : trimmed = []).
    { destruct trimmed as [|c tr] eqn:E; [done|].
      apply dropWhile_head in E as Hc.
      unfold seg in Hseg. simpl in Hseg. by rewrite Hc in Hseg. }
    unfold rest. by rewrite Htr.
Qed.

Lemma takeWhile_app_stop f l1 l2 :
  Forall (fun c => f c = true) l1 →
  match l2 with [] => True | c :: _ => f c = false end →
  takeWhile f (l1 ++ l2) = l1 ∧ dropWhile f (l1 ++ l2) = l2.
Proof.
  intros H1 H2. induction H1 as [|c l1 Hc _ [IHt IHd]]; simpl.
  - destruct l2 as [|c l2]; [done|]. simpl. by rewrite H2.
  - rewrite Hc. by rewrite IHt, IHd.
Qed.

Lemma endsWith_slash_inv pre :
  endsWith pre "/" = true →
  ∃ l, rev (list_ascii_of_string pre) = slash :: l.
Proof.
  unfold endsWith. intros [rest Hr]%startsWith_split.
  apply (f_equal list_ascii_of_string) in Hr.
  rewrite string_rev_list in Hr. simpl in Hr. eauto.
Qed.

(** The final path segment is unique: it is what [basename] returns. *)
Lemma finalSegment_basename p b : finalSegmentOf p b → basename p = b.
Proof.
  intros (pre & post & -> & Hpost & Hb & Hpre & Hempty).
  unfold basename. rewrite !list_ascii_app, !rev_app_distr, <- app_assoc.
  set (lb := list_ascii_of_string b) in *.
  set (lpre := list_ascii_of_string pre) in *.
  set (lpost := list_ascii_of_string post) in *.
  assert (Hstop : match rev lpre with
                  | [] => True
                  | c :: _ => negb (is_slash c) = false
                  end).
  { destruct Hpre as [->|[l Hl]%endsWith_slash_inv]; [done|].
    fold lpre in Hl. rewrite Hl. apply negb_false_iff, is_slash_true. done. }
  destruct (takeWhile_app_stop is_slash (rev lpost) (rev lb ++ rev lpre))
    as [_ ->].
  { apply Forall_rev. eapply Forall_impl; [exact Hpost|].
    intros c. apply is_slash_true. }
  { destruct (rev lb) as [|c l] eqn:E.
    - assert (Hb0 : b = "").
      { apply (f_equal (@rev ascii)) in E. rewrite rev_involutive in E.
        simpl in E. rewrite <- (string_of_list_ascii_of_string b).
        fold lb. by rewrite E. }
      unfold lpre. rewrite (Hempty Hb0). done.
    - simpl. apply Forall_rev in Hb. rewrite E in Hb.
      apply Forall_cons in Hb as [Hc _].
      apply not_true_is_false. by intros ?%is_slash_true. }
  destruct (takeWhile_app_stop (fun c => negb (is_slash c)) (rev lb) (rev lpre))
    as [-> _]; [|exact Hstop|].
  { apply Forall_rev. eapply Forall_impl; [exact Hb|].
    intros c Hc. apply negb_true_iff, not_true_is_false.
    by intros ?%is_slash_true. }
  rewrite rev_involutive. apply string_of_list_ascii_of_string.
Qed.

End string_facts.

(** ** The image path normalizer *)

Lemma normalizeImage_no_backslash image :
  JsString.no_backslash (normalizeImage image).
Proof.
  unfold normalizeImage.
  set (s := match image with Some (JStr s) => s | _ => "" end).
  case_decide; [constructor|].
  pose proof (replaceAll_no_backslash s) as Hp.
  destruct (JsString.startsWith _ _); [done|].
  case_decide; [constructor|].
  apply no_backslash_app; [|by apply basename_no_backslash].
  unfold JsString.no_backslash. simpl.
  repeat constructor; by intros [=].
Qed.

(** A reference that is already under the images prefix, written with
    forward slashes, is kept as it is. *)
Lemma normalizeImage_fixed s :
  JsString.no_backslash s → JsString.startsWith s "images/" = true →
  normalizeImage (Some (JStr s)) = s.
Proof.
  intros Hs Hp. unfold normalizeImage.
  case_decide as He; [by subst|].
  by rewrite (replaceAll_fixed s Hs), Hp.
Qed.

Lemma normalizeImage_cases image :
  normalizeImage image = ""
  ∨ (JsString.startsWith (normalizeImage image) "images/" = true).
Proof.
  unfold normalizeImage.
  set (s := match image with Some (JStr s) => s | _ => "" end).
  case_decide; [by left|].
  destruct (JsString.startsWith _ _) eqn:E; [by right|].
  case_decide; [by left|right]. apply startsWith_app.
Qed.

(** C7: image path normalization is idempotent: for every string,
    normalizing the result of a normalization gives that result back,
    both on the reference itself and on the record that carries it. *)
Theorem normalizeImage_idempotent (x : string) :
  normalizeImage (Some (JStr (normalizeImage (Some (JStr x)))))
  = normalizeImage (Some (JStr x))
  ∧ ∃ out, normalizeImagePath (JObj [("image", JStr x)]) = ok out
           ∧ normalizeImagePath (JObj [("image", JStr out)]) = ok out.
Proof.
  assert (Hi : normalizeImage (Some (JStr (normalizeImage (Some (JStr x)))))
               = normalizeImage (Some (JStr x))).
  { destruct (normalizeImage_cases (Some (JStr x))) as [-> | Hp]; [done|].
    apply normalizeImage_fixed; [apply normalizeImage_no_backslash|exact Hp]. }
  split; [exact Hi|].
  exists (normalizeImage (Some (JStr x))). split; [done|].
  unfold normalizeImagePath. simpl. by rewrite Hi.
Qed.

(** C6 (as stated) fails: a reference made of a separator only is neither
    empty nor a non-string, and does not begin with the images prefix,
    yet it normalizes to the empty string and not to the images prefix
    followed by its final segment. *)
Lemma normalizeImagePath_separator_only :
  let entry := JObj [("image", JStr "/")] in
  JsString.startsWith (JsString.replaceAll_backslash "/") "images/" = false
  ∧ normalizeImagePath entry = ok ""
  ∧ normalizeImagePath entry
    ≠ ok ("images/" +:+ JsString.basename (JsString.replaceAll_backslash "/")).
Proof. by vm_compute. Qed.

(** C6 (amended): for every record, the normalizer returns a string
    without backslashes; when the image reference is a non-empty string
    that (backslashes read as forward slashes) begins with the images
    prefix, the whole sub-path after the prefix is kept; when it is
    another non-empty string, only its final path segment is kept,
    re-rooted under the images prefix, unless that segment is empty (the
    reference holds separators only), in which case the result is the
    empty string; an empty or non-string reference gives the empty
    string. *)
Theorem normalizeImagePath_rule (props : list (string * json)) :
  ∃ out,
    normalizeImagePath (JObj props) = ok out
    ∧ JsString.no_backslash out
    ∧ match assoc "image" props with
      | Some (JStr (String c s)) =>
          let posixish := JsString.replaceAll_backslash (String c s) in
          if JsString.startsWith posixish "images/"
          then ∃ sub, posixish = "images/" +:+ sub ∧ out = "images/" +:+ sub
          else ∃ b, (∀ b', finalSegmentOf posixish b' ↔ b' = b)
                    ∧ out = (if decide (b = "") then "" else "images/" +:+ b)
      | _ => out = ""
      end.
Proof.
  exists (normalizeImage (assoc "image" props)).
  split; [done|]. split; [apply normalizeImage_no_backslash|].
  destruct (assoc "image" props) as [[| | |[|c s]| |]|]; try done.
  unfold normalizeImage. rewrite decide_False by done. cbv zeta.
  destruct (JsString.startsWith _ _) eqn:E.
  - apply startsWith_split in E as [sub E]. exists sub. by rewrite E.
  - exists (JsString.basename (JsString.replaceAll_backslash (String c s))).
    split; [|done]. intros b'. split.
    + intros Hb. symmetry. by apply finalSegment_basename.
    + intros ->. apply basename_finalSegment.
Qed.

(** ** Duplicate validation *)

Lemma json_rect' (P : json → Prop) :
  P JNull → (∀ b, P (JBool b)) → (∀ n, P (JNum n)) → (∀ s, P (JStr s)) →
  (∀ items, Forall P items → P (JArr items)) →
  (∀ props, Forall (fun kv => P kv.2) props → P (JObj props)) →
  ∀ t, P t.
Proof.
  intros Hnull Hbool Hnum Hstr Harr Hobj. fix IH 1.
  intros [|b|n|s|items|props].
  - exact Hnull.
  - apply Hbool.
  - apply Hnum.
  - apply Hstr.
  - apply Harr. induction items as [|x items IHitems]; constructor.
    + apply IH.
    + exact IHitems.
  - apply Hobj. induction props as [|[k x] props IHprops]; constructor.
    + apply IH.
    + exact IHprops.
Qed.

Lemma mapResult_throws {A B} (f : A → result B) l err :
  mapResult f l = throw err → ∃ x, x ∈ l ∧ f x = throw err.
Proof.
  induction l as [|x l IH]; simpl; [done|].
  destruct (f x) as [e|y] eqn:Ex; simpl.
  - intros [= <-]. exists x. split; [by left|done].
  - destruct (mapResult f l) as [e|ys]; simpl; [|done].
    intros [= <-]. destruct IH as (x' & Hin & Hx'); [done|].
    exists x'. split; [by right|done].
Qed.

(** The only error of a string conversion is the TypeError. *)
Lemma toString_error v : ∀ err, toString v = throw err → err = TypeError.
Proof.
  induction v as [|b|n|s|items IH|props IH] using json_rect'; intros err;
    simpl; try done.
  - by destruct b.
  - destruct (mapResult _ items) as [e|parts] eqn:E; simpl; [|done].
    intros [= <-]. apply mapResult_throws in E as (x & Hin & Hx).
    rewrite Forall_forall in IH. apply (IH x Hin). by destruct x.
  - destruct (assoc "toString" props); [|done]. by intros [= <-].
Qed.

Lemma amiiboKey_error e err : amiiboKey e = throw err → err = TypeError.
Proof.
  unfold amiiboKey.
  destruct (toString (amiiboHead e)) as [e1|h] eqn:Eh; simpl.
  - intros [= <-]. by eapply toString_error.
  - destruct (toString (amiiboTail e)) as [e2|t] eqn:Et; simpl; [|done].
    intros [= <-]. by eapply toString_error.
Qed.

Lemma amiiboKey_outcome e : printsKey e ∨ amiiboKey e = throw TypeError.
Proof.
  destruct (amiiboKey e) as [err|key] eqn:E; [right|left; by exists key].
  by rewrite (amiiboKey_error e err E).
Qed.

Lemma amiiboKey_text e : printsKey e → amiiboKey e = ok (keyText e).
Proof. intros [key Hk]. unfold keyText. by rewrite Hk. Qed.

Lemma amiiboKey_plain e h t :
  amiiboHead e = JStr h → amiiboTail e = JStr t →
  amiiboKey e = ok (h +:+ "-" +:+ t).
Proof. intros Hh Ht. unfold amiiboKey. by rewrite Hh, Ht. Qed.

Lemma plainIdentity_prints e : plainIdentity e → printsKey e.
Proof.
  intros (h & t & Hh & Ht & _). eexists. by apply amiiboKey_plain.
Qed.

Lemma validateAmiibo_outcome seen entries :
  validateAmiibo seen entries = ok ()
  ∨ (∃ key, validateAmiibo seen entries = throw (DuplicateRecord Amiibo key))
  ∨ validateAmiibo seen entries = throw TypeError.
Proof.
  revert seen. induction entries as [|e rest IH]; intros seen; simpl.
  - by left.
  - destruct (amiiboKey_outcome e) as [[key ->] | ->]; simpl; [|auto].
    destruct (_ && _); [right; left; by eexists | apply IH].
Qed.

(** Where every key can be built, validation raises no TypeError. *)
Lemma validateAmiibo_prints seen entries :
  Forall printsKey entries →
  validateAmiibo seen entries = ok ()
  ∨ ∃ key, validateAmiibo seen entries = throw (DuplicateRecord Amiibo key).
Proof.
  intros Hall. revert seen.
  induction Hall as [|e rest [key He] _ IH]; intros seen; simpl.
  - by left.
  - rewrite He. simpl. destruct (_ && _); [right; by eexists | apply IH].
Qed.

Lemma validateSkylanders_outcome seen entries :
  validateSkylanders seen entries = ok ()
  ∨ ∃ key,
      validateSkylanders seen entries = throw (DuplicateRecord Skylander key).
Proof.
  revert seen. induction entries as [|e rest IH]; intros seen; simpl.
  - by left.
  - case_bool_decide; [right; by eexists | apply IH].
Qed.

(** Where every key can be built, the amiibo loop throws exactly when
    some record with a non-empty head and a non-empty tail finds its key
    in the set: put there before the loop, or by a record before it. *)
Lemma validateAmiibo_throws seen entries :
  Forall printsKey entries →
  (∃ key, validateAmiibo seen entries = throw (DuplicateRecord Amiibo key))
  ↔ ∃ j ej, entries !! j = Some ej
      ∧ notEmptyString (amiiboHead ej) = true
      ∧ notEmptyString (amiiboTail ej) = true
      ∧ (keyText ej ∈ seen
         ∨ ∃ i ei, i < j ∧ entries !! i = Some ei
                   ∧ keyText ei = keyText ej).
Proof.
  intros Hall. revert seen.
  induction Hall as [|e rest He _ IH]; intros seen; simpl.
  - split; [by intros [? ?]|]. by intros (j & ej & ? & _).
  - rewrite (amiiboKey_text e He). simpl.
    destruct (notEmptyString (amiiboHead e) && notEmptyString (amiiboTail e)
              && bool_decide (keyText e ∈ seen)) eqn:C.
    + split; [intros _ | by eexists].
      apply andb_prop in C as [[Hh Ht]%andb_prop Hin%bool_decide_eq_true_1].
      exists 0, e. auto.
    + rewrite IH. split.
      * intros (j & ej & Hj & Hh & Ht & Hsrc).
        exists (S j), ej. do 3 (split; [done|]).
        destruct Hsrc as [[->%elem_of_singleton | Hin]%elem_of_union
                         | (i & ei & Hij & Hi & Hk)].
        -- right. exists 0, e. split; [lia|done].
        -- by left.
        -- right. exists (S i), ei. split; [lia|done].
      * intros ([|j] & ej & Hj & Hh & Ht & Hsrc); simpl in Hj.
        -- injection Hj as <-. destruct Hsrc as [Hin | (i & ? & ? & _)]; [|lia].
           rewrite Hh, Ht, bool_decide_eq_true_2 in C by done. done.
        -- exists j, ej. do 3 (split; [done|]).
           destruct Hsrc as [Hin | ([|i] & ei & Hij & Hi & Hk)].
           ++ left. set_solver.
           ++ injection Hi as <-. left. set_solver.
           ++ right. exists i, ei. split; [lia|done].
Qed.

(** When head and tail are strings and the head holds no hyphen, the
    joined key stands for the pair. *)
Lemma joined_key_pair h1 t1 h2 t2 :
  hyphenFree h1 → hyphenFree h2 →
  h1 +:+ "-" +:+ t1 = h2 +:+ "-" +:+ t2 ↔ h1 = h2 ∧ t1 = t2.
Proof.
  unfold hyphenFree. intros H1 H2. split; [|by intros [-> ->]].
  revert h2 H2. induction h1 as [|c h1 IH]; intros [|d h2] H2; simpl.
  - intros [= Ht]. split; [done | exact Ht].
  - intros [= <- _]. by apply Forall_cons in H2 as [? _].
  - intros [= -> _]. by apply Forall_cons in H1 as [? _].
  - intros [= -> Hr]. apply Forall_cons in H1 as [_ H1].
    apply Forall_cons in H2 as [_ H2].
    destruct (IH H1 h2 H2 Hr) as [-> ->]. done.
Qed.

Lemma keyText_pair e1 e2 :
  plainIdentity e1 → plainIdentity e2 →
  keyText e1 = keyText e2
  ↔ amiiboHead e1 = amiiboHead e2 ∧ amiiboTail e1 = amiiboTail e2.
Proof.
  intros (h1 & t1 & Hh1 & Ht1 & H1) (h2 & t2 & Hh2 & Ht2 & H2).
  assert (K1 : keyText e1 = h1 +:+ "-" +:+ t1).
  { unfold keyText. by rewrite (amiiboKey_plain _ _ _ Hh1 Ht1). }
  assert (K2 : keyText e2 = h2 +:+ "-" +:+ t2).
  { unfold keyText. by rewrite (amiiboKey_plain _ _ _ Hh2 Ht2). }
  rewrite K1, K2, Hh1, Ht1, Hh2, Ht2, joined_key_pair by done.
  split; [by intros [-> ->]|]. by intros [[= ->] [= ->]].
Qed.

(** C1 (as stated) fails: two records share the pair (head, tail) with
    head "04" and an empty tail, which is not the pair of two empty
    strings, and validation passes. *)
Lemma validateNoDuplicates_one_empty_passes :
  let e := JObj [("head", JStr "04"); ("tail", JStr "")] in
  (amiiboHead e, amiiboTail e) ≠ (JStr "", JStr "")
  ∧ validateNoDuplicates [e; e] [] = ok ().
Proof. split; [by intros [=] | by vm_compute]. Qed.

(** The identity that validation compares is the joined text, not the
    pair: two records with different heads and tails collide once a head
    holds the hyphen that joins them. *)
Lemma validateNoDuplicates_hyphen_collision :
  validateNoDuplicates
    [JObj [("head", JStr "a-b"); ("tail", JStr "c")];
     JObj [("head", JStr "a"); ("tail", JStr "b-c")]] []
  = throw (DuplicateRecord Amiibo "a-b-c").
Proof. reflexivity. Qed.

(** A head that is an object with a property [toString] of its own
    cannot be converted: validation stops with a TypeError. *)
Lemma validateNoDuplicates_unprintable_head :
  validateNoDuplicates
    [JObj [("head", JObj [("toString", JStr "x")]); ("tail", JStr "c")]] []
  = throw TypeError.
Proof. reflexivity. Qed.

(** C1 (amended): for every amiibo catalog whose records have a string
    for head and for tail (an absent or null one counting as the empty
    string) and no hyphen in the head, merge validation fails with the
    amiibo DuplicateRecord exactly when two records share the pair
    (head, tail) and neither component of the pair is the empty string;
    a pair whose head or tail is empty is exempt. *)
Theorem validateNoDuplicates_amiibo_iff
    (amiiboEntries skylanderEntries : list json) :
  Forall plainIdentity amiiboEntries →
  (∃ key, validateNoDuplicates amiiboEntries skylanderEntries
          = throw (DuplicateRecord Amiibo key))
  ↔ ∃ i j ei ej,
      i < j ∧ amiiboEntries !! i = Some ei ∧ amiiboEntries !! j = Some ej
      ∧ (amiiboHead ei, amiiboTail ei) = (amiiboHead ej, amiiboTail ej)
      ∧ amiiboHead ej ≠ JStr "" ∧ amiiboTail ej ≠ JStr "".
Proof.
  intros Hplain.
  assert (Hprints : Forall printsKey amiiboEntries).
  { eapply Forall_impl; [exact Hplain|]. apply plainIdentity_prints. }
  assert (Hne : ∀ v, notEmptyString v = true ↔ v ≠ JStr "").
  { intros [| | |[|c s]| |]; simpl; split; done. }
  assert (Hv : (∃ key, validateNoDuplicates amiiboEntries skylanderEntries
                       = throw (DuplicateRecord Amiibo key))
               ↔ ∃ key, validateAmiibo ∅ amiiboEntries
                        = throw (DuplicateRecord Amiibo key)).
  { unfold validateNoDuplicates.
    destruct (validateAmiibo_prints ∅ amiiboEntries Hprints) as [-> | [k ->]];
      simpl; [|done].
    split; [|by intros [? ?]]. intros [key Hk].
    by destruct (validateSkylanders_outcome ∅ skylanderEntries)
      as [E | [k E]]; rewrite E in Hk. }
  rewrite Hv, (validateAmiibo_throws _ _ Hprints).
  rewrite Forall_forall in Hplain. split.
  - intros (j & ej & Hj & Hh & Ht & [Hin | (i & ei & Hij & Hi & Hk)]);
      [set_solver|].
    exists i, j, ei, ej. do 3 (split; [done|]).
    apply keyText_pair in Hk as [-> ->];
      [|by eapply Hplain, list_elem_of_lookup_2..].
    split; [done|]. by split; apply Hne.
  - intros (i & j & ei & ej & Hij & Hi & Hj & [= Hh Ht] & Hnh & Hnt).
    exists j, ej. do 3 (split; [by try apply Hne|]). right.
    exists i, ei. do 2 (split; [done|]).
    apply keyText_pair; [by eapply Hplain, list_elem_of_lookup_2..|done].
Qed.

Lemma validateNoDuplicates_amiibo_iff_witness :
  let e := JObj [("head", JStr "04"); ("tail", JStr "01")] in
  let f := JObj [("head", JStr "05")] in
  Forall plainIdentity [e; f; e]
  ∧ validateNoDuplicates [e; f; e] [] = throw (DuplicateRecord Amiibo "04-01")
  ∧ ((∃ key, validateNoDuplicates [e; f; e] []
             = throw (DuplicateRecord Amiibo key))
     ↔ ∃ i j ei ej,
         i < j ∧ [e; f; e] !! i = Some ei ∧ [e; f; e] !! j = Some ej
         ∧ (amiiboHead ei, amiiboTail ei) = (amiiboHead ej, amiiboTail ej)
         ∧ amiiboHead ej ≠ JStr "" ∧ amiiboTail ej ≠ JStr "").
Proof.
  intros e f.
  assert (Hplain : Forall plainIdentity [e; f; e]).
  { assert (He : plainIdentity e).
    { exists "04", "01". split_and!; [done..|].
      unfold hyphenFree. simpl. repeat constructor; by intros [=]. }
    assert (Hf : plainIdentity f).
    { exists "05", "". split_and!; [done..|].
      unfold hyphenFree. simpl. repeat constructor; by intros [=]. }
    by repeat constructor. }
  split; [exact Hplain|]. split; [reflexivity|].
  exact (validateNoDuplicates_amiibo_iff [e; f; e] [] Hplain).
Defined.

Lemma validateSkylanders_app_throw seen pre rest err :
  validateSkylanders seen pre = throw err →
  validateSkylanders seen (pre ++ rest) = throw err.
Proof.
  revert seen. induction pre as [|e pre IH]; intros seen; simpl; [done|].
  case_bool_decide; [done | apply IH].
Qed.

Lemma validateSkylanders_app seen pre rest :
  validateSkylanders seen pre = ok () →
  validateSkylanders seen (pre ++ rest)
  = validateSkylanders (list_to_set (skylanderKey <$> pre) ∪ seen) rest.
Proof.
  revert seen. induction pre as [|e pre IH]; intros seen; simpl.
  - intros _. f_equal. set_solver.
  - case_bool_decide; [done|]. intros Hok. rewrite IH by done.
    f_equal. set_solver.
Qed.

Lemma lacksNumericIdentity_key e :
  lacksNumericIdentity e → skylanderKey e = fallbackKey.
Proof.
  intros (Hs & Hf & Hv). unfold skylanderKey. by rewrite Hs, Hf, Hv.
Qed.

(** C10: the skylander namespace has no exemption. Two records of a
    skylander catalog that each lack a finite numeric sig, figureId and
    variant both get the fallback identity key, and, the amiibo records
    raising no TypeError, merge validation fails with DuplicateRecord;
    when everything before the second of them validates, the failure is
    the skylander DuplicateRecord raised on that second record, with the
    fallback key. *)
Theorem validateNoDuplicates_skylander_fallback
    (amiiboEntries pre mid post : list json) (e1 e2 : json) :
  lacksNumericIdentity e1 → lacksNumericIdentity e2 →
  validateNoDuplicates amiiboEntries [] ≠ throw TypeError →
  skylanderKey e1 = fallbackKey ∧ skylanderKey e2 = fallbackKey
  ∧ (∃ ns key,
       validateNoDuplicates amiiboEntries (pre ++ e1 :: mid ++ e2 :: post)
       = throw (DuplicateRecord ns key))
  ∧ (validateNoDuplicates amiiboEntries (pre ++ e1 :: mid) = ok () →
     validateNoDuplicates amiiboEntries (pre ++ e1 :: mid ++ e2 :: post)
     = throw (DuplicateRecord Skylander fallbackKey)).
Proof.
  intros H1%lacksNumericIdentity_key H2%lacksNumericIdentity_key Hamiibo.
  do 2 (split; [done|]).
  assert (Hlist : pre ++ e1 :: mid ++ e2 :: post
                  = (pre ++ e1 :: mid) ++ e2 :: post).
  { by rewrite <- app_assoc. }
  rewrite Hlist. unfold validateNoDuplicates in *.
  destruct (validateAmiibo_outcome ∅ amiiboEntries) as [-> | [[k ->] | Ht]];
    simpl; [|split; [by eexists _, _ | done]|by rewrite Ht in Hamiibo].
  destruct (validateSkylanders_outcome ∅ (pre ++ e1 :: mid))
    as [Hok | [k Hthrow]].
  - rewrite (validateSkylanders_app _ _ _ Hok). simpl.
    rewrite bool_decide_eq_true_2.
    + split; [eexists _, _; by rewrite H2 | intros _; by rewrite H2].
    + rewrite H2, <- H1. apply elem_of_union_l, elem_of_list_to_set.
      rewrite fmap_app. simpl. set_solver.
  - rewrite (validateSkylanders_app_throw _ _ _ _ Hthrow).
    split; [by eexists _, _|]. by rewrite Hthrow.
Qed.

Lemma validateNoDuplicates_skylander_fallback_witness :
  let e := JObj [("type", JStr "skylander"); ("name", JStr "Spyro")] in
  lacksNumericIdentity e
  ∧ validateNoDuplicates [] [] ≠ throw TypeError
  ∧ skylanderKey e = fallbackKey
  ∧ (∃ ns key,
       validateNoDuplicates [] ([] ++ e :: [] ++ e :: [])
       = throw (DuplicateRecord ns key))
  ∧ (validateNoDuplicates [] ([] ++ e :: []) = ok () →
     validateNoDuplicates [] ([] ++ e :: [] ++ e :: [])
     = throw (DuplicateRecord Skylander fallbackKey)).
Proof.
  intros e.
  assert (He : lacksNumericIdentity e) by (by vm_compute).
  assert (Ha : validateNoDuplicates [] [] ≠ throw TypeError) by done.
  split; [exact He|]. split; [exact Ha|].
  destruct (validateNoDuplicates_skylander_fallback [] [] [] [] e e He He Ha)
    as (H1 & _ & H3 & H4).
  split; [exact H1|]. split; [exact H3|exact H4].
Defined.

(** ** Property writes *)

Lemma assoc_overwrite {A} k k' (v : A) l :
  is_Some (assoc k' l) →
  assoc k (overwrite k' v l) = if decide (k = k') then Some v else assoc k l.
Proof.
  induction l as [|[k0 v0] l IH]; simpl; [by intros [? ?]|].
  intros Hsome. destruct (decide (k' = k0)) as [->|Hne]; simpl.
  - by destruct (decide (k = k0)).
  - rewrite IH by done.
    destruct (decide (k = k0)) as [->|]; [by rewrite decide_False|done].
Qed.

Lemma assoc_createIndex {A} k n k' (v : A) l :
  assoc k' l = None →
  assoc k (createIndex n k' v l)
  = if decide (k = k') then Some v else assoc k l.
Proof.
  induction l as [|[k0 v0] l IH]; simpl; [done|].
  destruct (decide (k' = k0)) as [->|Hne]; [done|]. intros Hnone.
  destruct (arrayIndex k0) as [n'|]; [destruct (decide (n' < n)%N)|]; simpl;
    try done.
  rewrite IH by done.
  destruct (decide (k = k0)) as [->|]; [by rewrite decide_False|done].
Qed.

Lemma assoc_snoc {A} k k' (v : A) l :
  assoc k' l = None →
  assoc k (l ++ [(k', v)]) = if decide (k = k') then Some v else assoc k l.
Proof.
  induction l as [|[k0 v0] l IH]; simpl; [done|].
  destruct (decide (k' = k0)) as [->|Hne]; [done|]. intros Hnone.
  rewrite IH by done.
  destruct (decide (k = k0)) as [->|]; [by rewrite decide_False|done].
Qed.

(** Reading a property after a write. *)
Lemma assoc_setProp {A} k k' (v : A) l :
  assoc k (setProp k' v l) = if decide (k = k') then Some v else assoc k l.
Proof.
  unfold setProp. destruct (assoc k' l) eqn:E.
  - apply assoc_overwrite. by rewrite E.
  - destruct (arrayIndex k'); [by apply assoc_createIndex|by apply assoc_snoc].
Qed.


(** ** The merged records and the two outputs *)

Lemma normalizeEntry_object tag props :
  normalizeEntry tag (JObj props) = ok (JObj (normalizedProps tag props)).
Proof. reflexivity. Qed.

Lemma mapResult_total {A B} (f : A → result B) (g : A → B) l :
  (∀ x, x ∈ l → f x = ok (g x)) → mapResult f l = ok (g <$> l).
Proof.
  induction l as [|x l IH]; simpl; [done|]. intros Hf.
  rewrite Hf by left. simpl. rewrite IH; [done|].
  intros y Hy. apply Hf. by right.
Qed.

Lemma normalizedEntries tag (records : list (list (string * json))) :
  mapResult (normalizeEntry tag) (JObj <$> records)
  = ok ((fun props => JObj (normalizedProps tag props)) <$> records).
Proof.
  rewrite (mapResult_total _ (fun e => JObj (normalizedProps tag (spread e)))).
  - by rewrite <- list_fmap_compose.
  - intros e [props [-> _]]%list_elem_of_fmap. reflexivity.
Qed.




Lemma toLiteAmiibo_normalized props :
  ∃ r, toLiteAmiibo (JObj (normalizedProps "amiibo" props)) = ok r
       ∧ liteComplete amiiboLiteFields props r.
Proof.
  eexists. split; [reflexivity|].
  intros f Hf. unfold normalizedProps. simpl. repeat case_decide; subst;
    try (exfalso; set_solver).
  all: rewrite ?assoc_setProp; simpl.
  all: try (eexists; split; [reflexivity|]; split;
            [ by destruct (assoc _ props) as [[]|]
            | by intros [-> | ->] ]).
Qed.

Lemma toLiteSkylander_normalized props :
  ∃ r, toLiteSkylander (JObj (normalizedProps "skylander" props)) = ok r
       ∧ liteCompleteSkylander props r.
Proof.
  eexists. split; [reflexivity|].
  intros f Hf. unfold normalizedProps. simpl. repeat case_decide; subst;
    try (exfalso; set_solver).
  all: rewrite ?assoc_setProp; simpl.
  all: eexists; split; [reflexivity|]; split;
    [ by destruct (assoc _ props) as [[]|];
        try destruct (assoc "gameSeriesName" props) as [[]|];
        try destruct (assoc "game" props) as [[]|]
    | by intros [-> | ->] ].
Qed.

Lemma mapResult_Forall2 {A B C} (f : B → result C) (g : A → B)
    (R : A → C → Prop) (l : list A) :
  (∀ x, ∃ y, f (g x) = ok y ∧ R x y) →
  ∃ ys, mapResult f (g <$> l) = ok ys ∧ Forall2 R l ys.
Proof.
  intros Hf. induction l as [|x l (ys & Hys & HR)]; csimpl.
  - by exists [].
  - destruct (Hf x) as (y & -> & Hy). csimpl. rewrite Hys. csimpl.
    exists (y :: ys). split; [done|by constructor].
Qed.

(** C9 (as stated) fails: a skylander record whose [gameSeries] is
    absent gets in its lite record the game series of its
    [gameSeriesName], not the empty string. *)
Lemma liteOut_gameSeries_falls_back :
  let props := [("gameSeriesName", JStr "Giants")] in
  ∃ out r,
    liteOut [] [JObj props] = ok out
    ∧ recordsOf out "skylanders" = [r]
    ∧ absentOrNull (assoc "gameSeries" props)
    ∧ getOpt r "gameSeries" = Some (JStr "Giants")
    ∧ ¬ liteComplete skylanderLiteFields props r.
Proof.
  eexists _, _. do 2 (split; [reflexivity|]). split; [by left|].
  split; [reflexivity|]. intros H.
  destruct (H "gameSeries" ltac:(set_solver)) as (v & Hv & _ & Hd).
  injection Hv as <-. by specialize (Hd (or_introl eq_refl)).
Qed.

(** C9 (amended): for every merged record, the lite record holds every
    field of the lite schema of its namespace, none of them null; a
    source field that is absent or null gives the empty string, or zero
    for figureId, variant and sig, except the gameSeries of a skylander,
    which then takes the record's gameSeriesName, else its game, and
    only then the empty string. *)
Theorem liteOut_records (amiibo skylanders : list (list (string * json))) :
  ∃ out,
    liteOut (JObj <$> amiibo) (JObj <$> skylanders) = ok out
    ∧ Forall2 (liteComplete amiiboLiteFields) amiibo (recordsOf out "amiibo")
    ∧ Forall2 liteCompleteSkylander skylanders (recordsOf out "skylanders").
Proof.
  unfold liteOut, normalizedAmiibo, normalizedSkylanders.
  rewrite !normalizedEntries. simpl.
  destruct (mapResult_Forall2 toLiteAmiibo
              (fun props => JObj (normalizedProps "amiibo" props))
              (liteComplete amiiboLiteFields) amiibo
              toLiteAmiibo_normalized) as (la & -> & Ha).
  destruct (mapResult_Forall2 toLiteSkylander
              (fun props => JObj (normalizedProps "skylander" props))
              liteCompleteSkylander skylanders
              toLiteSkylander_normalized) as (ls & -> & Hs).
  simpl. eexists. split; [reflexivity|]. by split.
Qed.

(** ** Patch classification *)

(** C3 (as stated) fails: a record tagged "amiibo" that carries a
    numeric figureId is classified as a skylander. *)
Lemma classify_amiibo_tag_with_number :
  classify (JObj [("type", JStr "amiibo"); ("figureId", JNum (NumInt 1))])
  = ok Skylander.
Proof. reflexivity. Qed.

(** C3 (amended): for every patch record whose type field is absent,
    null or a string, classification answers, in this order: skylander
    when the type, lower-cased, is "skylander"; skylander when figureId,
    variant or sig is a number; amiibo otherwise. So {figureId: 1200,
    variant: 0} is a skylander, {head: "04", tail: "01..."} is an amiibo,
    and a record typed "amiibo" is an amiibo exactly when none of
    figureId, variant and sig is a number. *)
Theorem classify_precedence (e : json) (type : string) :
  nullish (getOpt e "type") (JStr "") = JStr type →
  let numeric := isNumber (getOpt e "figureId")
                 || isNumber (getOpt e "variant")
                 || isNumber (getOpt e "sig") in
  classify e
  = ok (if decide (JsString.toLowerCase type = "skylander") then Skylander
        else if numeric then Skylander else Amiibo)
  ∧ classifyEntries [e] [] []
    = ok (if decide (JsString.toLowerCase type = "skylander") then ([], [e])
          else if numeric then ([], [e]) else ([e], []))
  ∧ (type = "amiibo" → (classify e = ok Amiibo ↔ numeric = false))
  ∧ classify (JObj [("figureId", JNum (NumInt 1200));
                    ("variant", JNum (NumInt 0))]) = ok Skylander
  ∧ classify (JObj [("head", JStr "04"); ("tail", JStr "0102030405060708")])
    = ok Amiibo.
Proof.
  intros Htype numeric.
  assert (Hc : classify e
               = ok (if decide (JsString.toLowerCase type = "skylander")
                     then Skylander
                     else if numeric then Skylander else Amiibo)).
  { unfold classify, looksSky, typeTag. rewrite Htype. simpl.
    case_decide as Hd.
    - by rewrite bool_decide_eq_true_2.
    - rewrite bool_decide_eq_false_2 by done. simpl.
      fold numeric. by destruct numeric. }
  split; [exact Hc|]. split; [|split; [|by split]].
  - simpl. rewrite Hc. simpl.
    case_decide; [done|]. by destruct numeric.
  - intros ->. rewrite Hc. simpl. destruct numeric; split; done.
Qed.

Lemma classify_precedence_witness :
  let e := JObj [("type", JStr "Skylander"); ("head", JStr "04")] in
  nullish (getOpt e "type") (JStr "") = JStr "Skylander"
  ∧ classify e = ok Skylander
  ∧ classifyEntries [e] [] [] = ok ([], [e]).
Proof.
  intros e. split; [reflexivity|].
  destruct (classify_precedence e "Skylander" eq_refl) as (H1 & H2 & _).
  split; [exact H1|exact H2].
Defined.

(** ** The patch tree and the image directories *)

Lemma fsnode_rect' (P : fsnode → Prop) :
  P File → P Other →
  (∀ items, Forall (fun it => P it.2) items → P (Dir items)) →
  ∀ node, P node.
Proof.
  intros HF HO HD. fix IH 1. intros [|items|]; [exact HF| |exact HO].
  apply HD. induction items as [|[name it] items IHitems]; constructor.
  - apply IH.
  - exact IHitems.
Qed.

Lemma listFilesUnder_dir p items :
  listFilesUnder p (Dir items)
  = items ≫= (fun it => listFilesUnder (p ++ [it.1]) it.2).
Proof.
  simpl. induction items as [|[name it] items IH]; [done|].
  csimpl. by rewrite IH.
Qed.

Lemma locates_file rel n : locates File rel n → rel = [] ∧ n = File.
Proof. by inversion 1. Qed.

Lemma locates_other rel n : locates Other rel n → rel = [] ∧ n = Other.
Proof. by inversion 1. Qed.

Lemma locates_app node rel below n :
  locates node (rel ++ below) n
  ↔ ∃ mid, locates node rel mid ∧ locates mid below n.
Proof.
  revert node. induction rel as [|name rel IH]; intros node; simpl.
  - split; [intros H; exists node; split; [constructor|done]|].
    intros (mid & Hm & H). by inversion Hm; subst.
  - split.
    + inversion 1 as [|items ? child ? ? Hin Hloc]; subst.
      apply IH in Hloc as (mid & ? & ?).
      exists mid. split; [by econstructor|done].
    + intros (mid & Hm & H).
      inversion Hm as [|items ? child ? ? Hin Hloc]; subst.
      econstructor; [done|]. apply IH. by exists mid.
Qed.

(** The files listed under a node are the regular files found by
    following a path down from it. *)
Lemma listFilesUnder_locates node :
  ∀ p f, f ∈ listFilesUnder p node
         ↔ ∃ rel, f = p ++ rel ∧ locates node rel File.
Proof.
  induction node as [| |items IH] using fsnode_rect'; intros p f.
  - simpl. rewrite list_elem_of_singleton. split.
    + intros ->. exists []. split; [by rewrite app_nil_r|constructor].
    + intros (rel & -> & [-> _]%locates_file). by rewrite app_nil_r.
  - simpl. split; [by intros ?%elem_of_nil|].
    by intros (rel & _ & [_ ?]%locates_other).
  - rewrite listFilesUnder_dir, list_elem_of_bind. split.
    + intros ([name it] & Hf & Hin). simpl in Hf.
      rewrite Forall_forall in IH. apply (IH _ Hin) in Hf as (rel & -> & Hl).
      exists (name :: rel). split; [by rewrite <- app_assoc|].
      by econstructor.
    + intros (rel & -> & Hl).
      inversion Hl as [|? name child rel' ? Hin Hloc]; subst.
      exists (name, child). split; [|done].
      rewrite Forall_forall in IH. apply (IH _ Hin). simpl.
      exists rel'. split; [by rewrite <- app_assoc|done].
Qed.

Lemma lastIndexOf_None x parts : lastIndexOf x parts = None ↔ x ∉ parts.
Proof.
  induction parts as [|p parts IH]; simpl; [by split; [intros _ ?%elem_of_nil|]|].
  destruct (lastIndexOf x parts) as [i|].
  - split; [done|]. intros Hn. exfalso.
    assert (Some i = None) as [=]. apply IH. set_solver.
  - case_decide as Hd; split; try done.
    + intros Hn. set_solver.
    + intros _. destruct IH as [IH _]. specialize (IH eq_refl). set_solver.
Qed.

Lemma lastIndexOf_last x l1 l2 :
  x ∉ l2 → lastIndexOf x (l1 ++ x :: l2) = Some (length l1).
Proof.
  intros Hn. apply lastIndexOf_None in Hn.
  induction l1 as [|p l1 IH]; simpl.
  - by rewrite Hn, decide_True.
  - by rewrite IH.
Qed.

Lemma lastIndexOf_Some x parts i :
  lastIndexOf x parts = Some i →
  ∃ l1 l2, parts = l1 ++ x :: l2 ∧ length l1 = i ∧ x ∉ l2.
Proof.
  revert i. induction parts as [|p parts IH]; intros i; simpl; [done|].
  destruct (lastIndexOf x parts) as [j|] eqn:E.
  - intros [= <-]. destruct (IH j eq_refl) as (l1 & l2 & -> & <- & Hn).
    by exists (p :: l1), l2.
  - case_decide as Hd; [|done]. intros [= <-]. subst p.
    exists [], parts. by apply lastIndexOf_None in E.
Qed.

(** A file contributes the prefix of its path that ends with its last
    component named "images". *)
Lemma imageDirOf_Some f d :
  imageDirOf f = Some d
  ↔ ∃ below, f = d ++ below ∧ last d = Some "images" ∧ "images" ∉ below.
Proof.
  unfold imageDirOf. split.
  - destruct (lastIndexOf "images" f) as [i|] eqn:E; [|done].
    intros [= <-]. apply lastIndexOf_Some in E as (l1 & l2 & -> & <- & Hn).
    exists l2.
    assert (Ht : take (length l1 + 1) (l1 ++ "images" :: l2)
                 = l1 ++ ["images"]).
    { rewrite (cons_middle _ l1 l2), app_assoc.
      rewrite take_app_length'; [done|]. rewrite length_app. simpl. lia. }
    rewrite Ht. split; [by rewrite <- app_assoc|].
    split; [by rewrite last_snoc|done].
  - intros (below & -> & Hlast & Hn).
    destruct (last_Some d "images") as [[l1 ->] _]; [done|].
    rewrite <- app_assoc. simpl. rewrite lastIndexOf_last by done.
    f_equal. rewrite (cons_middle _ l1 below), app_assoc.
    rewrite take_app_length'; [done|]. rewrite length_app. simpl. lia.
Qed.

Lemma setAdd_elem x y set : y ∈ setAdd x set ↔ y = x ∨ y ∈ set.
Proof. unfold setAdd. case_decide; set_solver. Qed.

Lemma setAdd_NoDup x set : NoDup set → NoDup (setAdd x set).
Proof.
  unfold setAdd. case_decide; [done|]. intros Hnd.
  apply NoDup_app. split; [done|]. split; [|apply NoDup_singleton].
  intros y Hy ->%list_elem_of_singleton. done.
Qed.

Lemma collectImageDirs_elem files set p :
  p ∈ collectImageDirs files set
  ↔ p ∈ set ∨ ∃ f, f ∈ files ∧ imageDirOf f = Some p.
Proof.
  revert set. induction files as [|f files IH]; intros set; simpl.
  - split; [by left|]. intros [?|(f & ?%elem_of_nil & _)]; done.
  - destruct (imageDirOf f) as [d|] eqn:E; rewrite IH.
    + rewrite setAdd_elem. split.
      * intros [[->|?]|(g & ? & ?)]; [right; exists f|by left|right; exists g];
          set_solver.
      * intros [?|(g & [->|?]%elem_of_cons & Hg)]; [by left; right| |].
        -- left; left. congruence.
        -- right. by exists g.
    + split.
      * intros [?|(g & ? & ?)]; [by left|right; exists g; set_solver].
      * intros [?|(g & [->|?]%elem_of_cons & Hg)]; [by left|congruence|].
        right. by exists g.
Qed.

Lemma collectImageDirs_NoDup files set :
  NoDup set → NoDup (collectImageDirs files set).
Proof.
  revert set. induction files as [|f files IH]; intros set Hnd; simpl; [done|].
  destruct (imageDirOf f); apply IH; [by apply setAdd_NoDup|done].
Qed.

(** What [patchImageDirs] holds, whatever the tree: the prefixes, up to
    the last component named "images", of the paths of its regular
    files. *)
Lemma patchImageDirs_elem root items p :
  p ∈ patchImageDirs root items
  ↔ ∃ rel below, locates (Dir items) rel File ∧ root ++ rel = p ++ below
                 ∧ last p = Some "images" ∧ "images" ∉ below.
Proof.
  unfold patchImageDirs, listFilesRecursive.
  rewrite collectImageDirs_elem. split.
  - intros [?%elem_of_nil|(f & Hf & Hd)]; [done|].
    apply listFilesUnder_locates in Hf as (rel & -> & Hl).
    apply imageDirOf_Some in Hd as (below & ? & ? & ?).
    by exists rel, below.
  - intros (rel & below & Hl & Heq & Hlast & Hn). right.
    exists (root ++ rel). split.
    + apply listFilesUnder_locates. by exists rel.
    + apply imageDirOf_Some. by exists below.
Qed.

Lemma noFileNamedImages_locates items rel :
  noFileNamedImages items → locates (Dir items) rel File →
  last rel ≠ Some "images".
Proof.
  unfold noFileNamedImages, listFilesRecursive. rewrite Forall_forall.
  intros Hall Hl. apply Hall, listFilesUnder_locates. by exists rel.
Qed.

Lemma locates_below_dir node name below n :
  locates node (name :: below) n → isDir node = true.
Proof. by inversion 1. Qed.

(** C5 (as stated) fails: an empty directory named "images" under the
    patches root is not collected. *)
Lemma patchImageDirs_misses_directories :
  let root := [""; "repo"; "resources"; "patches"] in
  let empty := [("images", Dir [])] in
  isImagesDirectory root empty (root ++ ["images"])
  ∧ (root ++ ["images"]) ∉ patchImageDirs root empty.
Proof.
  intros root empty. split.
  - exists ["images"], (Dir []). repeat split.
    econstructor; [by left|constructor].
  - vm_compute. by intros ?%elem_of_nil.
Qed.

(** A directory named "images" whose files all lie under another
    directory of that name beneath it is not collected either: the
    derivation stops at the last component named "images" of each file
    path, so the outer directory is never copied with its structure. *)
Lemma patchImageDirs_nested_missed :
  let root := [""; "repo"; "resources"; "patches"] in
  let nested := [("images", Dir [("images", Dir [("a.png", File)])])] in
  isImagesDirectoryHoldingFile root nested (root ++ ["images"])
  ∧ patchImageDirs root nested = [root ++ ["images"; "images"]].
Proof.
  intros root nested. split; [|reflexivity].
  exists ["images"], (Dir [("images", Dir [("a.png", File)])]),
    ["images"; "a.png"].
  split_and!; try done.
  - econstructor; [by left|constructor].
  - econstructor; [by left|]. econstructor; [by left|constructor].
Qed.

(** The directories collected, for a root path without a component named
    "images" and a tree without a regular file named "images". *)
Lemma patchImageDirs_own_file (root : path) (items : list (string * fsnode)) :
  "images" ∉ root → noFileNamedImages items →
  NoDup (patchImageDirs root items)
  ∧ ∀ p, p ∈ patchImageDirs root items
         ↔ isImagesDirectoryWithOwnFile root items p.
Proof.
  intros Hroot Hfiles.
  split; [apply collectImageDirs_NoDup, NoDup_nil_2|].
  intros p. rewrite patchImageDirs_elem. split.
  - intros (relf & below & Hl & Heq & Hlast & Hn).
    apply app_eq_inv in Heq as [(k & Hr & Hb) | (k & -> & ->)].
    { exfalso. apply Hroot. rewrite Hr.
      apply elem_of_app. left. by apply last_Some_elem_of. }
    assert (Hk : last k = Some "images").
    { destruct k as [|c k]; [|by rewrite last_app_cons in Hlast].
      exfalso. apply Hroot. rewrite app_nil_r in Hlast.
      by apply last_Some_elem_of. }
    apply locates_app in Hl as (mid & Hmid & Hfile).
    exists k, mid, below. do 3 (split; [done|]).
    split; [|done].
    destruct below as [|b below]; [|by eapply locates_below_dir].
    inversion Hfile; subst. exfalso.
    by eapply noFileNamedImages_locates.
  - intros (rel & node & below & -> & Hlast & Hl & _ & Hfile & Hn).
    exists (rel ++ below), below.
    split; [apply locates_app; by exists node|].
    split; [by rewrite app_assoc|]. split; [|done].
    destruct rel as [|c rel]; [done|]. by rewrite last_app_cons.
Qed.

Lemma count_elem (x : string) (l : list string) :
  x ∈ l → (1 ≤ length (filter (fun c => c = x) l))%nat.
Proof.
  induction l as [|c l IH]; [by intros ?%elem_of_nil|].
  rewrite filter_cons. intros [->|Hin]%elem_of_cons.
  - rewrite decide_True by done. simpl. lia.
  - case_decide; simpl; [lia|by apply IH].
Qed.

Lemma count_none (x : string) (l : list string) :
  length (filter (fun c => c = x) l) = 0 → x ∉ l.
Proof.
  intros Hlen Hin%count_elem. lia.
Qed.

(** C5 (amended): for every patch tree whose root path has no component
    named "images", in which no regular file is itself named "images"
    and no file lies under two directories named "images", one inside
    the other, the collected image-source directories hold no duplicate
    and are exactly the directories under the patches root named
    "images" that hold a regular file. *)
Theorem patchImageDirs_spec (root : path) (items : list (string * fsnode)) :
  "images" ∉ root → noFileNamedImages items → noNestedImages items →
  NoDup (patchImageDirs root items)
  ∧ ∀ p, p ∈ patchImageDirs root items
         ↔ isImagesDirectoryHoldingFile root items p.
Proof.
  intros Hroot Hfiles Hnested.
  destruct (patchImageDirs_own_file root items Hroot Hfiles) as [Hnd Hown].
  split; [exact Hnd|]. intros p. rewrite Hown. split.
  - intros (rel & node & below & ? & ? & ? & ? & ? & _).
    by exists rel, node, below.
  - intros (rel & node & below & -> & Hlast & Hl & Hdir & Hfile).
    exists rel, node, below. split_and!; try done.
    unfold noNestedImages, listFilesRecursive in Hnested.
    rewrite Forall_forall in Hnested.
    assert (Hf : (rel ++ below) ∈ listFilesUnder [] (Dir items)).
    { apply listFilesUnder_locates. exists (rel ++ below). split; [done|].
      apply locates_app. by exists node. }
    apply Hnested in Hf. rewrite filter_app, length_app in Hf.
    pose proof (count_elem "images" rel (last_Some_elem_of _ _ Hlast)).
    apply count_none. lia.
Qed.

Lemma patchImageDirs_spec_witness :
  let root := [""; "repo"; "resources"; "patches"] in
  let items :=
    [("pack", Dir [("images", Dir [("a.png", File);
                                   ("sky", Dir [("b.png", File)])]);
                   ("tags.json", File)])] in
  ("images" ∉ root) ∧ noFileNamedImages items ∧ noNestedImages items
  ∧ NoDup (patchImageDirs root items)
  ∧ ∀ p, p ∈ patchImageDirs root items
         ↔ isImagesDirectoryHoldingFile root items p.
Proof.
  intros root items.
  assert (Hroot : "images" ∉ root) by set_solver.
  assert (Hfiles : noFileNamedImages items) by by apply (bool_decide_unpack _).
  assert (Hnested : noNestedImages items) by by apply (bool_decide_unpack _).
  split; [exact Hroot|]. split; [exact Hfiles|]. split; [exact Hnested|].
  exact (patchImageDirs_spec root items Hroot Hfiles Hnested).
Defined.

(** The directories that [loadPatchEntriesAndImageDirs] returns, whenever
    it returns, are these. *)
Lemma loadPatchEntriesAndImageDirs_dirs read root items r :
  loadPatchEntriesAndImageDirs read root (Some items) = ok r →
  r.2 = patchImageDirs root items.
Proof.
  unfold loadPatchEntriesAndImageDirs.
  destruct (loadPatchFiles _ _ _ _) as [e|acc]; simpl; [done|].
  by intros [= <-].
Qed.

(** ** The canonical serializer on trees *)


Lemma assoc_fmap {A B} (f : A → B) k (l : list (string * A)) :
  assoc k (map (fun kv => (kv.1, f kv.2)) l) = f <$> assoc k l.
Proof.
  induction l as [|[k' v] l IH]; simpl; [done|].
  by destruct (decide (k = k')).
Qed.

Lemma assoc_Some_elem {A} k (v : A) l : assoc k l = Some v → (k, v) ∈ l.
Proof.
  induction l as [|[k' v'] l IH]; simpl; [done|].
  destruct (decide (k = k')) as [->|]; [intros [= ->]; by left|].
  intros H. right. by apply IH.
Qed.

Lemma assoc_is_Some {A} k (l : list (string * A)) :
  is_Some (assoc k l) ↔ k ∈ keys l.
Proof.
  unfold keys. induction l as [|[k' v'] l IH]; simpl.
  - split; [by intros [? ?]|by intros ?%elem_of_nil].
  - destruct (decide (k = k')) as [->|Hne].
    + split; [intros _; by left|by eexists].
    + rewrite IH. set_solver.
Qed.

Lemma assoc_elem_NoDup {A} k (v : A) l :
  NoDup (keys l) → (k, v) ∈ l → assoc k l = Some v.
Proof.
  unfold keys. induction l as [|[k' v'] l IH]; simpl.
  - by intros _ ?%elem_of_nil.
  - intros [Hk Hnd]%NoDup_cons [[= -> ->]|Hin]%elem_of_cons.
    + by rewrite decide_True.
    + destruct (decide (k = k')) as [->|]; [|by apply IH].
      exfalso. apply Hk. apply list_elem_of_fmap. by exists (k', v).
Qed.

Lemma sortStrings_Permutation l1 l2 :
  l1 ≡ₚ l2 → sortStrings l1 = sortStrings l2.
Proof.
  intros Hp. unfold sortStrings.
  apply (Sorted_unique String.le); [apply Sorted_merge_sort, _..|].
  by rewrite !merge_sort_Permutation.
Qed.

Lemma sortStrings_elem k l : k ∈ sortStrings l ↔ k ∈ l.
Proof. unfold sortStrings. by rewrite merge_sort_Permutation. Qed.

Lemma sortStrings_elem_1 k l : k ∈ sortStrings l → k ∈ l.
Proof. apply sortStrings_elem. Qed.

Lemma sortStrings_NoDup l : NoDup l → NoDup (sortStrings l).
Proof. unfold sortStrings. by rewrite merge_sort_Permutation. Qed.

Lemma fold_left_ext_in {A B} (f g : A → B → A) l a :
  (∀ x acc, x ∈ l → f acc x = g acc x) → fold_left f l a = fold_left g l a.
Proof.
  revert a. induction l as [|x l IH]; intros a Hfg; simpl; [done|].
  rewrite Hfg by left. apply IH. intros y acc Hy. apply Hfg. by right.
Qed.

Lemma sortedCopy_object props :
  sortedCopy (JObj props)
  = JObj (fold_left (copyStep props) (sortStrings (keys props)) []).
Proof. reflexivity. Qed.

(** Trees with the same content have the same sorted copy. *)
Lemma sameContent_sortedCopy t1 :
  ∀ t2, sameContent t1 t2 → sortedCopy t1 = sortedCopy t2.
Proof.
  induction t1 as [|b|n|s|items IH|props IH] using json_rect';
    intros t2 Hs; inversion Hs as [| | | |? l2 Hall|? p2 Hnd1 Hnd2 Hlook];
    subst; try done.
  - simpl. f_equal. clear Hs.
    induction Hall as [|x y l1 l2 Hxy Hall IHall]; [done|].
    apply Forall_cons in IH as [IHx IHl]. simpl.
    rewrite (IHx y Hxy). f_equal. by apply IHall.
  - rewrite !sortedCopy_object. f_equal.
    assert (Hkeys : sortStrings (keys props) = sortStrings (keys p2)).
    { apply sortStrings_Permutation, NoDup_Permutation; [done..|].
      intros k. rewrite <- !assoc_is_Some.
      specialize (Hlook k). by inversion Hlook. }
    rewrite Hkeys. apply fold_left_ext_in. intros k out _.
    unfold copyStep. rewrite !assoc_fmap.
    specialize (Hlook k).
    destruct (assoc k props) as [v1|] eqn:E1, (assoc k p2) as [v2|] eqn:E2;
      inversion Hlook as [? ? Hv|]; subst; simpl; [|done].
    apply assoc_Some_elem in E1.
    rewrite Forall_forall in IH.
    pose proof (IH _ E1 v2 Hv) as Heq. simpl in Heq. by rewrite Heq.
Qed.

Lemma sameContent_wellFormed t1 :
  ∀ t2, sameContent t1 t2 → wellFormed t1 ∧ wellFormed t2.
Proof.
  induction t1 as [|b|n|s|items IH|props IH] using json_rect';
    intros t2 Hs; inversion Hs as [| | | |? l2 Hall|? p2 Hnd1 Hnd2 Hlook];
    subst; try (split; constructor).
  - clear Hs. induction Hall as [|x y l1 l2 Hxy Hall IHall]; [done|].
    apply Forall_cons in IH as [IHx IHl].
    destruct (IHx y Hxy). constructor; [done|]. by apply IHall.
  - clear Hs. induction Hall as [|x y l1 l2 Hxy Hall IHall]; [done|].
    apply Forall_cons in IH as [IHx IHl].
    destruct (IHx y Hxy). constructor; [done|]. by apply IHall.
  - done.
  - apply Forall_forall. intros [k v1] Hin. simpl.
    rewrite Forall_forall in IH.
    specialize (Hlook k). rewrite (assoc_elem_NoDup _ _ _ Hnd1 Hin) in Hlook.
    inversion Hlook as [? v2 Hv|]; subst.
    by destruct (IH _ Hin v2 Hv).
  - done.
  - apply Forall_forall. intros [k v2] Hin. simpl.
    rewrite Forall_forall in IH.
    specialize (Hlook k). rewrite (assoc_elem_NoDup _ _ _ Hnd2 Hin) in Hlook.
    inversion Hlook as [v1 ? Hv H1|]; subst.
    symmetry in H1. apply assoc_Some_elem in H1.
    by destruct (IH _ H1 v2 Hv).
Qed.

(** ** The canonical serializer on freshly built trees *)

Lemma elem_of_span (a lo hi : nat) : a ∈ span lo hi ↔ lo ≤ a < hi.
Proof. unfold span. rewrite elem_of_set_seq. lia. Qed.

Lemma span_empty (lo : nat) (seen : gset addr) : span lo lo ∪ seen = seen.
Proof.
  apply set_eq. intros a. rewrite elem_of_union, elem_of_span.
  split; [intros [?|?]; [lia|done] | by right].
Qed.

Lemma span_join (lo mid hi : nat) (seen : gset addr) :
  (lo ≤ mid)%nat → (mid ≤ hi)%nat →
  span mid hi ∪ (span lo mid ∪ seen) = span lo hi ∪ seen.
Proof.
  intros ? ?. apply set_eq. intros a.
  rewrite !elem_of_union, !elem_of_span.
  destruct (decide (a < mid)); naive_solver lia.
Qed.

Lemma span_close (lo hi : nat) (seen : gset addr) :
  (lo ≤ hi)%nat → span lo hi ∪ ({[hi]} ∪ seen) = span lo (hi + 1) ∪ seen.
Proof.
  intros ?. apply set_eq. intros a.
  rewrite !elem_of_union, !elem_of_span, elem_of_singleton.
  destruct (decide (a = hi)); naive_solver lia.
Qed.

Section alloc_facts.

Lemma allocItems_prefix items :
  Forall (fun t => ∀ h, h `prefix_of` (alloc t h).2) items →
  ∀ h, h `prefix_of` (allocItems alloc items h).2.
Proof.
  induction 1 as [|x items Hx _ IH]; intros h; simpl; [done|].
  etrans; [apply Hx | apply IH].
Qed.

Lemma allocProps_prefix (props : list (string * json)) :
  Forall (fun kv => ∀ h, h `prefix_of` (alloc kv.2 h).2) props →
  ∀ h, h `prefix_of` (allocProps alloc props h).2.
Proof.
  induction 1 as [|x props Hx _ IH]; intros h; simpl; [done|].
  etrans; [apply Hx | apply IH].
Qed.

Lemma alloc_prefix t : ∀ h, h `prefix_of` (alloc t h).2.
Proof.
  induction t as [|b|n|s|items IH|props IH] using json_rect'; intros h;
    simpl; try done.
  - apply prefix_app_r, allocItems_prefix, IH.
  - apply prefix_app_r, allocProps_prefix, IH.
Qed.

Lemma allocItems_grows items h : h `prefix_of` (allocItems alloc items h).2.
Proof.
  apply allocItems_prefix, Forall_forall. intros t _. apply alloc_prefix.
Qed.

Lemma allocProps_grows props h : h `prefix_of` (allocProps alloc props h).2.
Proof.
  apply allocProps_prefix, Forall_forall. intros t _. apply alloc_prefix.
Qed.

Lemma allocProps_keys props h :
  keys (allocProps alloc props h).1 = keys props.
Proof.
  unfold keys. revert h. induction props as [|[k x] props IH]; intros h;
    simpl; [done|].
  by rewrite IH.
Qed.

End alloc_facts.

(** The primitives are returned as they are. *)
Lemma sortsTo_primitive hfull t v lo :
  (t = JNull ∧ v = VNull) ∨ (∃ b, t = JBool b ∧ v = VBool b)
  ∨ (∃ n, t = JNum n ∧ v = VNum n) ∨ (∃ s, t = JStr s ∧ v = VStr s) →
  sortsTo hfull t v lo lo.
Proof.
  intros Hp fuel seen Hfuel _. destruct fuel as [|fuel]; [lia|].
  rewrite span_empty.
  destruct Hp as [[-> ->]|[(b & -> & ->)|[(n & -> & ->)|(s & -> & ->)]]];
    reflexivity.
Qed.

(** The loop over the elements of an array. *)
Lemma allocItems_sorts items :
  Forall (fun t => ∀ h hfull, (alloc t h).2 `prefix_of` hfull →
            sortsTo hfull t (alloc t h).1 (length h) (length (alloc t h).2))
         items →
  ∀ h hfull fuel seen,
    (allocItems alloc items h).2 `prefix_of` hfull →
    length (allocItems alloc items h).2 - length h < fuel →
    fresh (length h) (length (allocItems alloc items h).2) seen →
    mapSorter (sorter fuel hfull) seen (allocItems alloc items h).1
    = done (map sortedCopy items,
            span (length h) (length (allocItems alloc items h).2) ∪ seen).
Proof.
  induction 1 as [|x items Hx _ IH]; intros h hfull fuel seen Hpre Hfuel Hfresh.
  - simpl. by rewrite span_empty.
  - simpl in *.
    pose proof (alloc_prefix x h) as H1%prefix_length.
    pose proof (allocItems_grows items (alloc x h).2) as Hg.
    pose proof (prefix_length _ _ Hg) as H2.
    specialize (Hx h hfull). specialize (IH (alloc x h).2 hfull fuel).
    destruct (alloc x h) as [v1 h1]. simpl in *.
    destruct (allocItems alloc items h1) as [vs h2]. simpl in *.
    rewrite Hx; [|by etrans|lia|intros a Ha; apply Hfresh; lia].
    simpl. rewrite IH; [|done|lia|].
    + simpl. by rewrite span_join.
    + intros a Ha [Hin%elem_of_span|Hin]%elem_of_union; [lia|].
      apply (Hfresh a); [lia|done].
Qed.

Lemma region_cons k k0 (iv : nat * nat) lay :
  region ((k0, iv) :: lay) k = if decide (k = k0) then iv else region lay k.
Proof. unfold region. simpl. by destruct (decide (k = k0)). Qed.

(** Where the values of the properties of an object are: each value
    stands for its tree within its own addresses, the addresses of two
    properties do not meet, and together they fill the addresses that
    [allocProps] took. *)
Lemma layout_spec props :
  Forall (fun kv => ∀ h hfull, (alloc kv.2 h).2 `prefix_of` hfull →
            sortsTo hfull kv.2 (alloc kv.2 h).1
                    (length h) (length (alloc kv.2 h).2)) props →
  NoDup (keys props) →
  ∀ h hfull,
    (allocProps alloc props h).2 `prefix_of` hfull →
    (∀ k, k ∈ keys props →
       ∃ t v, assoc k props = Some t
              ∧ assoc k (allocProps alloc props h).1 = Some v
              ∧ sortsTo hfull t v (region (layout props h) k).1
                                  (region (layout props h) k).2
              ∧ (length h ≤ (region (layout props h) k).1)%nat
              ∧ ((region (layout props h) k).1
                 ≤ (region (layout props h) k).2)%nat
              ∧ ((region (layout props h) k).2
                 ≤ length (allocProps alloc props h).2)%nat)
    ∧ (∀ a, length h ≤ a < length (allocProps alloc props h).2 →
         ∃ k, k ∈ keys props
              ∧ (region (layout props h) k).1 ≤ a
                < (region (layout props h) k).2).
Proof.
  unfold keys.
  induction 1 as [|[k0 x] props Hx _ IH]; intros Hnd h hfull Hpre.
  - simpl. split; [by intros k ?%elem_of_nil | intros a; lia].
  - simpl in *. apply NoDup_cons in Hnd as [Hk0 Hnd].
    pose proof (alloc_prefix x h) as H1%prefix_length.
    pose proof (allocProps_grows props (alloc x h).2) as Hg.
    pose proof (prefix_length _ _ Hg) as H2.
    specialize (Hx h hfull). specialize (IH Hnd (alloc x h).2 hfull).
    destruct (alloc x h) as [v1 h1]. simpl in *.
    destruct (IH Hpre) as [IHk IHa]. split.
    + intros k Hk. rewrite region_cons.
      destruct (decide (k = k0)) as [->|Hne].
      * exists x, v1. simpl. repeat split; try done; try lia.
        apply Hx. by etrans.
      * apply elem_of_cons in Hk as [?|Hk]; [done|].
        destruct (IHk k Hk) as (t & v & ? & ? & ? & ? & ? & ?).
        exists t, v. repeat split; try done; lia.
    + intros a Ha. destruct (decide (a < length h1)) as [Hlt|Hge].
      * exists k0. split; [by left|]. rewrite region_cons, decide_True by done.
        simpl. lia.
      * destruct (IHa a) as (k & Hk & Hr); [lia|].
        exists k. split; [by right|]. rewrite region_cons.
        rewrite decide_False; [done|]. intros ->. done.
Qed.

(** The addresses of two different properties do not meet. *)
Lemma layout_apart props :
  NoDup (keys props) →
  ∀ h k k',
    k ∈ keys props → k' ∈ keys props → k ≠ k' →
    ((region (layout props h) k).2 ≤ (region (layout props h) k').1)%nat
    ∨ ((region (layout props h) k').2 ≤ (region (layout props h) k).1)%nat.
Proof.
  intros Hnd h k k' Hk Hk' Hne.
  revert h Hnd Hk Hk'. unfold keys.
  induction props as [|[k0 x] props IH]; intros h Hnd Hk Hk'; simpl in *.
  - by apply elem_of_nil in Hk.
  - apply NoDup_cons in Hnd as [Hk0 Hnd].
    rewrite !region_cons.
    assert (Hin : ∀ q, q ∈ props.*1 →
              (length (alloc x h).2 ≤ (region (layout props (alloc x h).2) q).1)%nat
              ∧ ((region (layout props (alloc x h).2) q).1
                 ≤ (region (layout props (alloc x h).2) q).2)%nat).
    { intros q Hq. clear IH Hk Hk' Hk0.
      generalize (alloc x h).2 as g. revert Hnd Hq.
      induction props as [|[k1 y] props IHp]; intros Hnd Hq g; simpl in *.
      - by apply elem_of_nil in Hq.
      - apply NoDup_cons in Hnd as [Hk1 Hnd]. rewrite region_cons.
        pose proof (alloc_prefix y g) as Hy%prefix_length.
        destruct (decide (q = k1)) as [->|Hq1]; simpl; [lia|].
        apply elem_of_cons in Hq as [?|Hq]; [done|].
        destruct (IHp Hnd Hq (alloc y g).2). lia. }
    pose proof (alloc_prefix x h) as H1%prefix_length.
    destruct (decide (k = k0)) as [->|Hk1], (decide (k' = k0)) as [->|Hk2];
      simpl.
    + done.
    + apply elem_of_cons in Hk' as [?|Hk']; [done|].
      left. by destruct (Hin k' Hk').
    + apply elem_of_cons in Hk as [?|Hk]; [done|].
      right. by destruct (Hin k Hk).
    + apply elem_of_cons in Hk as [?|Hk]; [done|].
      apply elem_of_cons in Hk' as [?|Hk']; [done|].
      by apply IH.
Qed.

Lemma copyStep_Some props out k t :
  assoc k props = Some t →
  copyStep props out k = assign k (sortedCopy t) out.
Proof. intros Ht. unfold copyStep. by rewrite assoc_fmap, Ht. Qed.

(** The loop over the sorted property names of an object. *)
Lemma sortProps_regions hfull fuel (props : list (string * json))
    (vprops : list (string * value)) (reg : string → nat * nat) ks :
  NoDup ks →
  (∀ k, k ∈ ks →
     ∃ t v, assoc k props = Some t ∧ assoc k vprops = Some v
            ∧ sortsTo hfull t v (reg k).1 (reg k).2
            ∧ (reg k).2 - (reg k).1 < fuel) →
  (∀ k k', k ∈ ks → k' ∈ ks → k ≠ k' →
     ((reg k).2 ≤ (reg k').1)%nat ∨ ((reg k').2 ≤ (reg k).1)%nat) →
  ∀ seen out,
    (∀ k, k ∈ ks → fresh (reg k).1 (reg k).2 seen) →
    ∃ seen',
      sortProps (sorter fuel hfull) vprops seen ks out
      = done (fold_left (copyStep props) ks out, seen')
      ∧ ∀ a, a ∈ seen'
             ↔ a ∈ seen ∨ ∃ k, k ∈ ks ∧ (reg k).1 ≤ a < (reg k).2.
Proof.
  induction ks as [|k ks IH]; intros Hnd Hval Hapart seen out Hfresh.
  - exists seen. split; [done|]. intros a. split; [by left|].
    intros [?|(k & ?%elem_of_nil & _)]; done.
  - apply NoDup_cons in Hnd as [Hk Hnd].
    destruct (Hval k) as (t & v & Ht & Hv & Hsort & Hfuel); [by left|].
    simpl. rewrite Hv. rewrite Hsort; [|done|apply Hfresh; by left].
    simpl.
    destruct (IH Hnd) with (seen := span (reg k).1 (reg k).2 ∪ seen)
                           (out := assign k (sortedCopy t) out)
      as (seen' & -> & Hseen').
    + intros k' Hk'. apply Hval. by right.
    + intros k1 k2 ? ? ?. apply Hapart; [by right|by right|done].
    + intros k' Hk' a Ha [Hin%elem_of_span|Hin]%elem_of_union.
      * destruct (Hapart k k') as [?|?]; [by left|by right| |lia|lia].
        intros ->. done.
      * exact (Hfresh k' ltac:(by right) a Ha Hin).
    + exists seen'. split.
      * simpl. by rewrite (copyStep_Some _ _ _ _ Ht).
      * intros a. rewrite Hseen', elem_of_union, elem_of_span. split.
        -- intros [[?|?]|(k' & ? & ?)]; [right; exists k|by left|right; exists k'];
             (split; [set_solver|done]).
        -- intros [?|(k' & [->|?]%elem_of_cons & ?)];
             [by left; right|by left; left|right; by exists k'].
Qed.

(** ** What the serializer returns, when it returns *)

Lemma assoc_Forall2 {A B} (R : A → B → Prop)
    (l1 : list (string * A)) (l2 : list (string * B)) :
  Forall2 (fun x y => x.1 = y.1 ∧ R x.2 y.2) l1 l2 →
  ∀ k, option_Forall2 R (assoc k l1) (assoc k l2).
Proof.
  induction 1 as [|[k1 x] [k2 y] l1 l2 [Hk Hxy] _ IH]; intros k; simpl.
  - constructor.
  - simpl in Hk. subst k2. destruct (decide (k = k1)); [by constructor|done].
Qed.

Lemma keys_Forall2 {A B} (R : A → B → Prop)
    (l1 : list (string * A)) (l2 : list (string * B)) :
  Forall2 (fun x y => x.1 = y.1 ∧ R x.2 y.2) l1 l2 → keys l1 = keys l2.
Proof.
  unfold keys. induction 1 as [|x y l1 l2 [Hk _] _ IH]; [done|].
  rewrite !fmap_cons. by f_equal.
Qed.

Section loops_unfold.

Context (h : heap).
Context (srt : gset addr → value → fueled (json * gset addr)).
Hypothesis srt_unfolds :
  ∀ seen v j seen' t,
    srt seen v = done (j, seen') → unfolds h v t → j = sortedCopy t.

Lemma mapSorter_unfolds items ts :
  Forall2 (unfolds h) items ts →
  ∀ seen js seen',
    mapSorter srt seen items = done (js, seen') → js = map sortedCopy ts.
Proof.
  induction 1 as [|v t items ts Hvt _ IH]; intros seen js seen'; simpl.
  - by intros [= <- _].
  - destruct (srt seen v) as [[e|[j s1]]|] eqn:E; simpl; try done.
    destruct (mapSorter srt s1 items) as [[e|[js' s2]]|] eqn:E2; simpl;
      try done.
    intros [= <- _]. f_equal; [by eapply srt_unfolds|by eapply IH].
Qed.

Lemma sortProps_unfolds props tprops :
  (∀ k, option_Forall2 (unfolds h) (assoc k props) (assoc k tprops)) →
  ∀ ks seen out0 out seen',
    sortProps srt props seen ks out0 = done (out, seen') →
    out = fold_left (copyStep tprops) ks out0.
Proof.
  intros Hlook. induction ks as [|k ks IH]; intros seen out0 out seen'; simpl.
  - by intros [= <- _].
  - specialize (Hlook k).
    destruct (assoc k props) as [v|] eqn:Ev, (assoc k tprops) as [t|] eqn:Et;
      inversion Hlook as [? ? Hvt|]; subst.
    + destruct (srt seen v) as [[e|[j s1]]|] eqn:E; simpl; try done.
      intros Hrest. rewrite (copyStep_Some _ _ _ _ Et).
      rewrite <- (srt_unfolds _ _ _ _ _ E Hvt). by eapply IH.
    + intros Hrest. unfold copyStep at 2. rewrite assoc_fmap, Et. simpl.
      by eapply IH.
Qed.

End loops_unfold.

(** When [sorter] returns, it returns the sorted copy of the content of
    its argument. *)
Lemma sorter_unfolds h fuel :
  ∀ seen v j seen' t,
    sorter fuel h seen v = done (j, seen') → unfolds h v t →
    j = sortedCopy t.
Proof.
  induction fuel as [|fuel IH]; intros seen v j seen' t; simpl; [done|].
  destruct v as [|b|n|s|a]; try (intros [= <- _]; by inversion 1).
  case_decide; [done|].
  intros Hrun Hun.
  inversion Hun as [| | | |? items ts Ha Hall|? props tprops Ha Hall]; subst;
    rewrite Ha in Hrun.
  - destruct (mapSorter _ _ _) as [[e|[js s1]]|] eqn:E; simpl in Hrun;
      try done.
    injection Hrun as <- _. simpl. f_equal.
    by eapply (mapSorter_unfolds h (sorter fuel h)).
  - destruct (sortProps _ _ _ _ _) as [[e|[out s1]]|] eqn:E; simpl in Hrun;
      try done.
    injection Hrun as <- _. rewrite sortedCopy_object. f_equal.
    rewrite <- (keys_Forall2 _ _ _ Hall).
    eapply (sortProps_unfolds h (sorter fuel h)); [exact IH| |exact E].
    by apply assoc_Forall2.
Qed.

Lemma stableJsonStringify_unfolds h obj t bytes :
  unfolds h obj t → stableJsonStringify h obj = done bytes →
  bytes = Json.stringify (sortedCopy t).
Proof.
  intros Hun. unfold stableJsonStringify.
  destruct (sorter _ _ _ _) as [[e|[j s]]|] eqn:E; simpl; try done.
  intros [= <-]. by rewrite (sorter_unfolds _ _ _ _ _ _ _ E Hun).
Qed.

(** A larger store unfolds a value to the same tree. *)
Lemma unfolds_extends h h' t :
  h `prefix_of` h' → ∀ v, unfolds h v t → unfolds h' v t.
Proof.
  intros Hpre.
  induction t as [|b|n|s|ts IH|tprops IH] using json_rect'; intros v Hun;
    inversion Hun as [| | | |a items ? Ha Hall|a props ? Ha Hall]; subst;
    try constructor.
  - eapply unfolds_arr; [by eapply prefix_lookup_Some|].
    clear Hun Ha. induction Hall as [|x t items ts Hxt _ IHall];
      [constructor|].
    apply Forall_cons in IH as [IHt IHts]. constructor; [by apply IHt|].
    by apply IHall.
  - eapply unfolds_obj; [by eapply prefix_lookup_Some|].
    clear Hun Ha. induction Hall as [|x t props tprops [Hk Hxt] _ IHall];
      [constructor|].
    apply Forall_cons in IH as [IHt IHts]. constructor; [|by apply IHall].
    split; [done|by apply IHt].
Qed.

(** The value that [alloc] returns unfolds to the tree it was given. *)
Lemma alloc_unfolds t : ∀ h, unfolds (alloc t h).2 (alloc t h).1 t.
Proof.
  induction t as [|b|n|s|items IH|props IH] using json_rect'; intros h;
    simpl; try constructor.
  - assert (Hall : Forall2 (unfolds (allocItems alloc items h).2)
                     (allocItems alloc items h).1 items).
    { revert h. induction IH as [|x items Hx _ IHitems]; intros h; simpl;
        [constructor|].
      constructor; [|apply IHitems].
      eapply unfolds_extends; [apply allocItems_grows|apply Hx]. }
    eapply unfolds_arr; [by apply list_lookup_middle|].
    eapply Forall2_impl; [exact Hall|].
    intros v t. by apply unfolds_extends, prefix_app_r.
  - assert (Hall : Forall2 (fun kv kt => kv.1 = kt.1
                      ∧ unfolds (allocProps alloc props h).2 kv.2 kt.2)
                     (allocProps alloc props h).1 props).
    { revert h. induction IH as [|x props Hx _ IHprops]; intros h; simpl;
        [constructor|].
      constructor; [|apply IHprops]. split; [done|]. simpl.
      eapply unfolds_extends; [apply allocProps_grows|apply Hx]. }
    eapply unfolds_obj; [by apply list_lookup_middle|].
    eapply Forall2_impl; [exact Hall|].
    intros kv kt [Hk Hu]. split; [done|].
    eapply unfolds_extends; [|exact Hu]. by apply prefix_app_r.
Qed.

(** The value that [alloc] returns for a well-formed tree stands for the
    tree, in every store that extends the one [alloc] returns. *)
Lemma alloc_sortsTo t :
  wellFormed t →
  ∀ h hfull, (alloc t h).2 `prefix_of` hfull →
    sortsTo hfull t (alloc t h).1 (length h) (length (alloc t h).2).
Proof.
  induction t as [|b|n|s|items IH|props IH] using json_rect';
    intros Hwf h hfull Hpre.
  - apply sortsTo_primitive. by left.
  - apply sortsTo_primitive. right; left. by eexists.
  - apply sortsTo_primitive. right; right; left. by eexists.
  - apply sortsTo_primitive. do 3 right. by eexists.
  - inversion Hwf as [| | | |? Hitems|]; subst.
    assert (IH' : Forall (fun t => ∀ h hfull,
              (alloc t h).2 `prefix_of` hfull →
              sortsTo hfull t (alloc t h).1
                      (length h) (length (alloc t h).2)) items).
    { rewrite Forall_forall in *. intros t Ht. apply IH; auto. }
    pose proof (allocItems_sorts items IH' h hfull) as Hloop.
    pose proof (allocItems_grows items h) as Hg%prefix_length.
    simpl in *. destruct (allocItems alloc items h) as [vs hn]. simpl in *.
    intros fuel seen Hfuel Hfresh. rewrite length_app in *. simpl in *.
    destruct fuel as [|fuel]; [lia|]. simpl.
    rewrite decide_False by (apply Hfresh; lia).
    assert (Hlook : hfull !! length hn = Some (OArr vs)).
    { eapply prefix_lookup_Some; [|exact Hpre]. by apply list_lookup_middle. }
    rewrite Hlook.
    rewrite Hloop; [|by etrans; [apply prefix_app_r|]|lia|].
    + simpl. by rewrite span_close.
    + intros a Ha [->%elem_of_singleton|Hin]%elem_of_union; [lia|].
      apply (Hfresh a); [lia|done].
  - inversion Hwf as [| | | | |? Hnd Hprops]; subst.
    assert (IH' : Forall (fun kv : string * json => ∀ h hfull,
              (alloc kv.2 h).2 `prefix_of` hfull →
              sortsTo hfull kv.2 (alloc kv.2 h).1
                      (length h) (length (alloc kv.2 h).2)) props).
    { rewrite Forall_forall in *. intros kv Hkv. apply IH; auto. }
    pose proof (layout_spec props IH' Hnd h hfull) as Hlay.
    pose proof (layout_apart props Hnd h) as Hapart.
    pose proof (allocProps_keys props h) as Hkeys.
    pose proof (allocProps_grows props h) as Hg%prefix_length.
    simpl in *. destruct (allocProps alloc props h) as [vprops hn].
    simpl in *.
    assert (Hpre' : hn `prefix_of` hfull) by (by etrans; [apply prefix_app_r|]).
    destruct (Hlay Hpre') as [Hval Hfill].
    intros fuel seen Hfuel Hfresh. rewrite length_app in *. simpl in *.
    destruct fuel as [|fuel]; [lia|]. simpl.
    rewrite decide_False by (apply Hfresh; lia).
    assert (Hlook : hfull !! length hn = Some (OObj vprops)).
    { eapply prefix_lookup_Some; [|exact Hpre]. by apply list_lookup_middle. }
    rewrite Hlook, Hkeys.
    destruct (sortProps_regions hfull fuel props vprops
                (region (layout props h)) (sortStrings (keys props)))
      with (seen := {[length hn]} ∪ seen) (out := @nil (string * json))
      as (seen' & -> & Hseen').
    + by apply sortStrings_NoDup.
    + intros k Hk%sortStrings_elem_1.
      destruct (Hval k Hk) as (t & v & ? & ? & ? & ? & ? & ?).
      exists t, v. repeat split; try done. lia.
    + intros k k' Hk%sortStrings_elem_1 Hk'%sortStrings_elem_1.
      by apply Hapart.
    + intros k Hk%sortStrings_elem_1 a Ha.
      destruct (Hval k Hk) as (t & v & ? & ? & ? & ? & ? & ?).
      intros [->%elem_of_singleton|Hin]%elem_of_union; [lia|].
      apply (Hfresh a); [lia|done].
    + simpl. do 3 f_equal. apply set_eq. intros a.
      rewrite Hseen', !elem_of_union, elem_of_singleton, elem_of_span.
      split.
      * intros [[->|?]|(k & Hk%sortStrings_elem_1 & Hr)];
          [left; lia|by right|left].
        destruct (Hval k Hk) as (t & v & ? & ? & ? & ? & ? & ?). lia.
      * intros [Ha|?]; [|by left; right].
        destruct (decide (a = length hn)) as [->|Hne]; [by left; left|].
        right. destruct (Hfill a) as (k & Hk & Hr); [lia|].
        exists k. by rewrite sortStrings_elem.
Qed.

(** On a well-formed tree the serializer answers, and the answer is the
    text of the sorted copy. *)
Lemma stableJsonStringifyTree_sorted t :
  wellFormed t →
  stableJsonStringifyTree t = done (Json.stringify (sortedCopy t)).
Proof.
  intros Hwf. unfold stableJsonStringifyTree, stableJsonStringify.
  pose proof (alloc_sortsTo t Hwf [] (alloc t []).2) as Hs.
  rewrite Hs; [done|done|simpl; lia|].
  intros a _. apply not_elem_of_empty.
Qed.


(** ** The canonical serializer on shared objects *)

(** The store of [const a = {}; [a, a]]: the array at address 0 holds
    the object at address 1 twice. *)
Lemma shared_sibling_reaches a b :
  reaches [OArr [VRef 1; VRef 1]; OObj []] a b → a = 0 ∧ b = 1.
Proof.
  induction 1 as [a b o Ha Hb|a b c _ [-> ->] _ [? _]]; [|done].
  destruct a as [|[|a]]; simpl in Ha; [| |done]; injection Ha as <-;
    simpl in Hb.
  - split; [done|]. set_solver.
  - by apply elem_of_nil in Hb.
Qed.

(** C2: the serializer fails on a value without any cycle. In the store
    of [const a = {}; [a, a]] no object reaches itself, the same value
    built with two distinct empty objects serializes, and yet the
    serializer throws CircularStructure: [seen] is never cleared of an
    object once its traversal is closed. *)
Theorem stableJsonStringify_shared_sibling :
  let shared := [OArr [VRef 1; VRef 1]; OObj []] in
  let distinct := [OArr [VRef 1; VRef 2]; OObj []; OObj []] in
  ¬ hasCycle shared (VRef 0)
  ∧ stableJsonStringify shared (VRef 0) = Some (throw CircularStructure)
  ∧ stableJsonStringify distinct (VRef 0) = done "[{},{}]".
Proof.
  intros shared distinct. split; [|split; by vm_compute].
  intros (a & _ & Hcycle).
  apply shared_sibling_reaches in Hcycle as [-> [=]].
Qed.

(** A direct self-reference is refused, as the specification says. *)
Lemma stableJsonStringify_self_reference :
  let cyclic := [OArr [VRef 0]] in
  hasCycle cyclic (VRef 0)
  ∧ stableJsonStringify cyclic (VRef 0) = Some (throw CircularStructure).
Proof.
  intros cyclic. split; [|by vm_compute].
  exists 0. split; [by left|].
  eapply reaches_step; [reflexivity|]. simpl. by left.
Qed.

(** C8: equal content does not give equal bytes. The array of
    [const a = {b: null, a: null}; [a, a]] and the array parsed from the
    text of the same content, its keys written in the other order, have
    no cycle and the same content; the serializer returns a text for the
    second and throws CircularStructure for the first, which produces no
    bytes at all. *)
Theorem stableJsonStringify_equal_content_diverges :
  let shared := [OArr [VRef 1; VRef 1];
                 OObj [("b", VNull); ("a", VNull)]] in
  let parsed := [OArr [VRef 1; VRef 2];
                 OObj [("a", VNull); ("b", VNull)];
                 OObj [("a", VNull); ("b", VNull)]] in
  let t1 := JArr [JObj [("b", JNull); ("a", JNull)];
                  JObj [("b", JNull); ("a", JNull)]] in
  let t2 := JArr [JObj [("a", JNull); ("b", JNull)];
                  JObj [("a", JNull); ("b", JNull)]] in
  unfolds shared (VRef 0) t1 ∧ unfolds parsed (VRef 0) t2
  ∧ sameContent t1 t2
  ∧ ¬ hasCycle shared (VRef 0)
  ∧ stableJsonStringify shared (VRef 0) = Some (throw CircularStructure)
  ∧ stableJsonStringify parsed (VRef 0) = done (Json.stringify t2).
Proof.
  intros shared parsed t1 t2.
  assert (Hobj : sameContent (JObj [("b", JNull); ("a", JNull)])
                             (JObj [("a", JNull); ("b", JNull)])).
  { apply same_obj; [by apply (bool_decide_unpack _)..|].
    intros k. simpl. repeat case_decide; subst; try done; repeat constructor. }
  split_and!.
  - eapply unfolds_arr; [reflexivity|].
    repeat constructor; (eapply unfolds_obj; [reflexivity|]);
      repeat constructor.
  - eapply unfolds_arr; [reflexivity|].
    repeat constructor; (eapply unfolds_obj; [reflexivity|]);
      repeat constructor.
  - apply same_arr. constructor; [exact Hobj|].
    constructor; [exact Hobj|constructor].
  - intros (a & _ & Hcycle).
    assert (Hr : ∀ x y, reaches shared x y → x = 0 ∧ y = 1).
    { induction 1 as [x y o Hx Hy|x y z _ [-> ->] _ [? _]]; [|done].
      destruct x as [|[|x]]; simpl in Hx; [| |done]; injection Hx as <-;
        simpl in Hy.
      - split; [done|]. set_solver.
      - set_solver. }
    by apply Hr in Hcycle as [-> [=]].
  - by vm_compute.
  - by vm_compute.
Qed.

(** ** The canonical serializer on any store *)

Lemma unseen_empty h : unseen h ∅ = length h.
Proof.
  unfold unseen. rewrite difference_empty_L. apply size_set_seq.
Qed.

Lemma unseen_mono h (seen seen' : gset addr) :
  seen ⊆ seen' → (unseen h seen' ≤ unseen h seen)%nat.
Proof. intros Hs. apply subseteq_size. set_solver. Qed.

Lemma unseen_add h (seen : gset addr) (r : addr) :
  r < length h → r ∉ seen → unseen h ({[r]} ∪ seen) < unseen h seen.
Proof.
  intros Hr Hn. apply subset_size. split; [set_solver|].
  intros Hsub. assert (Hin : r ∈ set_seq (C:=gset addr) 0 (length h) ∖ seen).
  { apply elem_of_difference. split; [apply elem_of_set_seq; lia|done]. }
  apply Hsub in Hin. set_solver.
Qed.

(** The first step of a path between two objects. *)
Lemma reaches_first_step h r a :
  reaches h r a →
  ∃ o b, h !! r = Some o ∧ VRef b ∈ refsOf o ∧ (b = a ∨ reaches h b a).
Proof.
  induction 1 as [r a o Hr Ha|r m a _ (o & b & Hr & Hb & Hm) Hma _].
  - exists o, a. auto.
  - exists o, b. do 2 (split; [done|]). right.
    destruct Hm as [->|Hm]; [done|]. by eapply reaches_trans.
Qed.

Lemma reachableFrom_child h r o b a :
  h !! r = Some o → VRef b ∈ refsOf o → reachableFrom h (VRef b) a →
  reaches h r a.
Proof.
  intros Hr Hb [[= ->]|(b' & [= <-] & Hba)].
  - by eapply reaches_step.
  - eapply reaches_trans; [by eapply reaches_step|done].
Qed.

Section loops_answer_well.

Context (h : heap) (fuel : nat).
Context (srt : gset addr → value → fueled (json * gset addr)).
Hypothesis srt_well :
  ∀ seen v, inStore h v → unseen h seen < fuel →
            answersWell h seen [v] (srt seen v).

Lemma mapSorter_well items :
  ∀ seen, Forall (inStore h) items → unseen h seen < fuel →
          answersWell h seen items (mapSorter srt seen items).
Proof.
  induction items as [|x items IH]; intros seen Hin Hfuel; simpl.
  - split; [done|]. by intros c a ?%elem_of_nil.
  - apply Forall_cons in Hin as [Hx Hin].
    pose proof (srt_well seen x Hx Hfuel) as Hw.
    destruct (srt seen x) as [[e|[j s1]]|]; simpl in *; try done.
    destruct Hw as [Hsub Hreach].
    assert (Hfuel1 : unseen h s1 < fuel).
    { eapply Nat.le_lt_trans; [by apply unseen_mono|done]. }
    specialize (IH s1 Hin Hfuel1).
    destruct (mapSorter srt s1 items) as [[e|[js s2]]|]; simpl in *;
      try done.
    destruct IH as [Hsub2 Hreach2]. split; [set_solver|].
    intros c a [->|Hc]%elem_of_cons Ha.
    + apply (Hreach x a); [by left|done].
    + destruct (Hreach2 c a Hc Ha) as [Hn Hcy]. split; [set_solver|done].
Qed.

Lemma sortProps_well (props : list (string * value)) ks :
  ∀ seen out, Forall (inStore h) props.*2 → unseen h seen < fuel →
    answersWell h seen
      (omap (fun k => assoc k props) ks)
      (sortProps srt props seen ks out).
Proof.
  induction ks as [|k ks IH]; intros seen out Hin Hfuel; simpl.
  - split; [done|]. by intros c a ?%elem_of_nil.
  - destruct (assoc k props) as [v|] eqn:Ev; simpl; [|by apply IH].
    assert (Hv : inStore h v).
    { rewrite Forall_forall in Hin. apply Hin.
      apply assoc_Some_elem in Ev. apply list_elem_of_fmap.
      by exists (k, v). }
    pose proof (srt_well seen v Hv Hfuel) as Hw.
    destruct (srt seen v) as [[e|[j s1]]|]; simpl in *; try done.
    destruct Hw as [Hsub Hreach].
    assert (Hfuel1 : unseen h s1 < fuel).
    { eapply Nat.le_lt_trans; [by apply unseen_mono|done]. }
    specialize (IH s1 (assign k j out) Hin Hfuel1).
    destruct (sortProps srt props s1 ks (assign k j out))
      as [[e|[js s2]]|]; simpl in *; try done.
    destruct IH as [Hsub2 Hreach2]. split; [set_solver|].
    intros c a [->|Hc]%elem_of_cons Ha.
    + apply (Hreach v a); [by left|done].
    + destruct (Hreach2 c a Hc Ha) as [Hn Hcy]. split; [set_solver|done].
Qed.

End loops_answer_well.

(** Entering an object whose elements were gone through well. *)
Lemma visit_well h r o (seen seen' : gset addr) :
  h !! r = Some o → r ∉ seen → {[r]} ∪ seen ⊆ seen' →
  (∀ c a, c ∈ refsOf o → reachableFrom h c a →
          (a ∉ {[r]} ∪ seen) ∧ ¬ reaches h a a) →
  seen ⊆ seen'
  ∧ ∀ c a, c ∈ [VRef r] → reachableFrom h c a →
           (a ∉ seen) ∧ ¬ reaches h a a.
Proof.
  intros Hr Hn Hsub Hreach. split; [set_solver|].
  assert (Hbelow : ∀ a, reaches h r a → (a ∉ {[r]} ∪ seen) ∧ ¬ reaches h a a).
  { intros a (o' & b & Hr' & Hb & Hba)%reaches_first_step.
    rewrite Hr in Hr'. injection Hr' as <-.
    apply (Hreach (VRef b) a Hb).
    destruct Hba as [->|Hba]; [by left|right; by exists b]. }
  intros c a ->%list_elem_of_singleton [[= <-]|(r' & [= <-] & Hra)].
  - split; [done|]. intros Hcy. destruct (Hbelow r Hcy) as [Hnr _].
    set_solver.
  - destruct (Hbelow a Hra) as [Hna Hcy]. split; [set_solver|done].
Qed.

(** With fuel for every unseen object, [sorter] answers, and answers
    well. *)
Lemma sorter_well h :
  closedStore h → distinctNames h →
  ∀ fuel seen v, inStore h v → unseen h seen < fuel →
                 answersWell h seen [v] (sorter fuel h seen v).
Proof.
  intros Hclosed Hnames.
  induction fuel as [|fuel IH]; intros seen v Hv Hfuel; [lia|].
  destruct v as [|b|n|s|r]; simpl;
    try (split; [done|];
         by intros c a ->%list_elem_of_singleton [?|(r & ? & _)]).
  case_decide as Hseen; [done|].
  simpl in Hv. destruct (lookup_lt_is_Some_2 h r Hv) as [o Ho].
  rewrite Ho.
  assert (Hfuel1 : unseen h ({[r]} ∪ seen) < fuel).
  { pose proof (unseen_add h seen r Hv Hseen). lia. }
  pose proof (Hclosed r o Ho) as Hrefs.
  destruct o as [items|props]; simpl in Hrefs.
  - pose proof (mapSorter_well h fuel (sorter fuel h) IH items
                  ({[r]} ∪ seen) Hrefs Hfuel1) as Hw.
    destruct (mapSorter _ _ _) as [[e|[js s1]]|]; simpl in *; try done.
    destruct Hw as [Hsub Hreach].
    by apply (visit_well h r (OArr items)).
  - pose proof (sortProps_well h fuel (sorter fuel h) IH props
                  (sortStrings (keys props)) ({[r]} ∪ seen) [] Hrefs Hfuel1)
      as Hw.
    destruct (sortProps _ _ _ _ _) as [[e|[js s1]]|]; simpl in *; try done.
    destruct Hw as [Hsub Hreach].
    apply (visit_well h r (OObj props)); [done..|].
    intros c a Hc Ha. apply (Hreach c a); [|done].
    simpl in Hc. apply list_elem_of_fmap in Hc as ([k v] & -> & Hkv).
    apply list_elem_of_omap. exists k. split.
    + apply sortStrings_elem, list_elem_of_fmap. by exists (k, v).
    + apply assoc_elem_NoDup; [by eapply Hnames|done].
Qed.

(** The serializer always answers: the fuel it takes is enough. *)
Lemma stableJsonStringify_answers h obj :
  closedStore h → distinctNames h → inStore h obj →
  stableJsonStringify h obj = Some (throw CircularStructure)
  ∨ ∃ bytes, stableJsonStringify h obj = done bytes.
Proof.
  intros Hclosed Hnames Hobj. unfold stableJsonStringify.
  pose proof (sorter_well h Hclosed Hnames (S (length h)) ∅ obj Hobj) as Hw.
  rewrite unseen_empty in Hw. specialize (Hw (Nat.lt_succ_diag_r _)).
  destruct (sorter _ _ _ _) as [[e|[j s]]|]; simpl in *; [|by right; eexists|done].
  left. by rewrite Hw.
Qed.

(** The direction of C2 that the code keeps: a value that contains a
    cycle is refused with CircularStructure. *)
Lemma stableJsonStringify_cycle_refused h obj :
  closedStore h → distinctNames h → inStore h obj → hasCycle h obj →
  stableJsonStringify h obj = Some (throw CircularStructure).
Proof.
  intros Hclosed Hnames Hobj (a & Hreach & Hcycle).
  unfold stableJsonStringify.
  pose proof (sorter_well h Hclosed Hnames (S (length h)) ∅ obj Hobj) as Hw.
  rewrite unseen_empty in Hw. specialize (Hw (Nat.lt_succ_diag_r _)).
  destruct (sorter _ _ _ _) as [[e|[j s]]|]; simpl in *; [by rewrite Hw| |done].
  destruct Hw as [_ Hw]. destruct (Hw obj a) as [_ Hn]; [by left|done|done].
Qed.

(** ** The end-to-end scenario of the specification *)

(** One base amiibo record with a bare file name as image, one patch
    record with an image under a sub-directory of the images root: two
    amiibo records come out, the first image re-rooted, the second kept
    with its sub-path, every lite field filled in, and two different
    texts. *)
Example end_to_end_scenario :
  let r1 := JObj [("head", JStr "04"); ("tail", JStr "A");
                  ("name", JStr "X"); ("image", JStr "foo.png")] in
  let r2 := JObj [("head", JStr "05"); ("tail", JStr "B");
                  ("name", JStr "Y"); ("image", JStr "images/sub/bar.png")] in
  ∃ full lite fullJson liteJson,
    fullOut [r1; r2] [] = ok full
    ∧ liteOut [r1; r2] [] = ok lite
    ∧ (fun r => getOpt r "image") <$> recordsOf full "amiibo"
      = [Some (JStr "images/foo.png"); Some (JStr "images/sub/bar.png")]
    ∧ recordsOf lite "amiibo"
      = [JObj [("amiiboSeries", JStr ""); ("character", JStr "");
               ("gameSeries", JStr ""); ("head", JStr "04");
               ("image", JStr "images/foo.png"); ("name", JStr "X");
               ("tail", JStr "A"); ("type", JStr "amiibo")];
         JObj [("amiiboSeries", JStr ""); ("character", JStr "");
               ("gameSeries", JStr ""); ("head", JStr "05");
               ("image", JStr "images/sub/bar.png"); ("name", JStr "Y");
               ("tail", JStr "B"); ("type", JStr "amiibo")]]
    ∧ main (fun f =>
              if decide (f = AMIIBO_BASE_PATH [""; "repo"]) then ok (JArr [r1])
              else if decide (f = SKYLANDERS_BASE_PATH [""; "repo"])
                   then ok (JObj [("skylanders", JArr [])])
              else if decide (last f = Some "extra.JSON") then ok (JArr [r2])
              else throw IoFailure)
           [""; "repo"]
           (Some [("pack", Dir [("extra.JSON", File);
                                ("images", Dir [("sub", Dir [("bar.png", File)])])])])
      = done (fullJson, liteJson)
    ∧ fullJson ≠ liteJson.
Proof.
  intros r1 r2. eexists _, _, _, _.
  do 5 (split; [vm_compute; reflexivity|]).
  vm_compute. intros [=].
Qed.

(** * Further properties *)

(** ** The records of the two outputs *)

Lemma nullish_not_null x d : d ≠ JNull → nullish x d ≠ JNull.
Proof. intros Hd. by destruct x as [[]|]. Qed.

Lemma overwrite_same {A} k (v : A) l :
  assoc k l = Some v → overwrite k v l = l.
Proof.
  induction l as [|[k' v'] l IH]; simpl; [done|].
  destruct (decide (k = k')) as [->|]; [by intros [= ->]|].
  intros H. by rewrite IH.
Qed.

Lemma setProp_same {A} k (v : A) l : assoc k l = Some v → setProp k v l = l.
Proof. intros H. unfold setProp. rewrite H. by apply overwrite_same. Qed.

(** What [normalizeEntry] builds from an entry that is not [null]. *)
Lemma normalizeEntry_not_null tag e :
  e ≠ JNull →
  normalizeEntry tag e
  = ok (JObj (setProp "image" (JStr (normalizeImage (getOpt e "image")))
                (setProp "type" (nullish (getOpt e "type") (JStr tag))
                   (spread e)))).
Proof. intros He. by destruct e. Qed.

Lemma normalizeEntry_null tag : normalizeEntry tag JNull = throw TypeError.
Proof. reflexivity. Qed.

Lemma normalizeImage_dist x : distImage (normalizeImage x).
Proof.
  split; [apply normalizeImage_cases|apply normalizeImage_no_backslash].
Qed.

Lemma normalizeImage_again x :
  normalizeImage (Some (JStr (normalizeImage x))) = normalizeImage x.
Proof.
  destruct (normalizeImage_cases x) as [-> | Hp]; [done|].
  apply normalizeImage_fixed; [apply normalizeImage_no_backslash|exact Hp].
Qed.

Lemma mapResult_elem {A B} (f : A → result B) l ys :
  mapResult f l = ok ys → ∀ y, y ∈ ys → ∃ x, x ∈ l ∧ f x = ok y.
Proof.
  revert ys. induction l as [|x l IH]; intros ys; simpl.
  - intros [= <-] y ?%elem_of_nil. done.
  - destruct (f x) as [e|y0] eqn:Ex; simpl; [done|].
    destruct (mapResult f l) as [e|ys0]; simpl; [done|].
    intros [= <-] y [->|Hy]%elem_of_cons.
    + exists x. split; [by left|done].
    + destruct (IH ys0 eq_refl y Hy) as (x' & ? & ?).
      exists x'. split; [by right|done].
Qed.

Lemma mapResult_throw {A B} (f : A → result B) l err :
  (∀ x, x ∈ l → f x = throw err ∨ ∃ y, f x = ok y) →
  (∃ x, x ∈ l ∧ f x = throw err) → mapResult f l = throw err.
Proof.
  induction l as [|x l IH]; intros Hall (x0 & Hin & Hx0).
  - by apply elem_of_nil in Hin.
  - simpl. destruct (Hall x) as [->|[y Hy]]; [by left|done|].
    rewrite Hy. simpl. rewrite IH; [done| |].
    + intros x' Hx'. apply Hall. by right.
    + apply elem_of_cons in Hin as [->|Hin]; [by rewrite Hy in Hx0|eauto].
Qed.

Lemma mapResult_ok {A B} (f : A → result B) l :
  (∀ x, x ∈ l → ∃ y, f x = ok y) → ∃ ys, mapResult f l = ok ys.
Proof.
  induction l as [|x l IH]; intros Hall; simpl; [by eexists|].
  destruct (Hall x) as [y ->]; [by left|]. simpl.
  destruct IH as [ys ->]; [intros x' Hx'; apply Hall; by right|].
  simpl. by eexists.
Qed.

(** What a record of an output is: the normalized form of an entry. *)
Lemma fullOut_record amiibo skylanders out r :
  fullOut amiibo skylanders = ok out →
  r ∈ recordsOf out "amiibo" ++ recordsOf out "skylanders" →
  ∃ tag e, e ∈ amiibo ++ skylanders ∧ normalizeEntry tag e = ok r.
Proof.
  unfold fullOut, normalizedAmiibo, normalizedSkylanders.
  destruct (mapResult _ amiibo) as [?|na] eqn:Ea; simpl; [done|].
  destruct (mapResult _ skylanders) as [?|ns] eqn:Es; simpl; [done|].
  intros [= <-]. simpl. intros [Hr|Hr]%elem_of_app.
  - destruct (mapResult_elem _ _ _ Ea r Hr) as (e & ? & ?).
    exists "amiibo", e. split; [apply elem_of_app; by left|done].
  - destruct (mapResult_elem _ _ _ Es r Hr) as (e & ? & ?).
    exists "skylander", e. split; [apply elem_of_app; by right|done].
Qed.

(** X1: in the full output, every record of either namespace has an
    image that is a string, empty or under the images root, without a
    backslash, and a type that is not null; whatever the entries were
    (objects or not, with or without these fields). *)
Theorem fullOut_image_and_type (amiibo skylanders : list json) (out r : json) :
  fullOut amiibo skylanders = ok out →
  r ∈ recordsOf out "amiibo" ++ recordsOf out "skylanders" →
  (∃ img, getOpt r "image" = Some (JStr img) ∧ distImage img)
  ∧ ∃ type, getOpt r "type" = Some type ∧ type ≠ JNull.
Proof.
  intros Hout Hr.
  destruct (fullOut_record _ _ _ _ Hout Hr) as (tag & e & _ & He).
  assert (Hn : e ≠ JNull) by (by intros ->).
  rewrite (normalizeEntry_not_null tag e Hn) in He. injection He as <-.
  simpl. rewrite !assoc_setProp. simpl. split.
  - eexists. split; [reflexivity|apply normalizeImage_dist].
  - eexists. split; [reflexivity|]. by apply nullish_not_null.
Qed.

Lemma fullOut_image_and_type_witness :
  let e := JObj [("name", JStr "X"); ("image", JStr "art\pack\x.png")] in
  let r := JObj [("name", JStr "X"); ("image", JStr "images/x.png");
                 ("type", JStr "amiibo")] in
  let out := JObj [("amiibo", JArr [r]); ("skylanders", JArr [])] in
  fullOut [e] [] = ok out
  ∧ r ∈ recordsOf out "amiibo" ++ recordsOf out "skylanders"
  ∧ (∃ img, getOpt r "image" = Some (JStr img) ∧ distImage img)
  ∧ ∃ type, getOpt r "type" = Some type ∧ type ≠ JNull.
Proof.
  intros e r out.
  assert (Hout : fullOut [e] [] = ok out) by (by vm_compute).
  assert (Hr : r ∈ recordsOf out "amiibo" ++ recordsOf out "skylanders")
    by (simpl; by left).
  split; [exact Hout|]. split; [exact Hr|].
  exact (fullOut_image_and_type [e] [] out r Hout Hr).
Defined.

Lemma nullish_Some v d : v ≠ JNull → nullish (Some v) d = v.
Proof. intros Hv. by destruct v. Qed.

Lemma normalizeEntry_outcome tag e :
  normalizeEntry tag e = throw TypeError ∨ ∃ r, normalizeEntry tag e = ok r.
Proof. destruct e; [by left|right; by eexists..]. Qed.

Lemma normalizeEntry_ok_iff tag e :
  (∃ r, normalizeEntry tag e = ok r) ↔ e ≠ JNull.
Proof.
  split; [by intros [r Hr] ->|].
  intros He. rewrite (normalizeEntry_not_null tag e He). by eexists.
Qed.

(** The shape of a normalized record. *)
Lemma normalizeEntry_shape tag e r :
  normalizeEntry tag e = ok r →
  ∃ props img type,
    r = JObj props
    ∧ assoc "image" props = Some (JStr img)
    ∧ normalizeImage (Some (JStr img)) = img
    ∧ assoc "type" props = Some type ∧ type ≠ JNull.
Proof.
  intros He. assert (Hn : e ≠ JNull) by (by intros ->).
  rewrite (normalizeEntry_not_null tag e Hn) in He. injection He as <-.
  eexists _, _, _. split; [reflexivity|].
  rewrite !assoc_setProp. simpl.
  split; [reflexivity|]. split; [apply normalizeImage_again|].
  split; [reflexivity|]. by apply nullish_not_null.
Qed.

(** X2: a record of the full output is a fixed point of the
    normalization: normalizing it again, under either namespace tag,
    gives the same record, property for property and in the same order. *)
Theorem normalizeEntry_idempotent (tag tag' : string) (e r : json) :
  normalizeEntry tag e = ok r → normalizeEntry tag' r = ok r.
Proof.
  intros (props & img & type & -> & Himg & Hfix & Htype & Hnn)
    %normalizeEntry_shape.
  rewrite normalizeEntry_not_null by done. simpl.
  rewrite Htype, (nullish_Some type _ Hnn), (setProp_same _ _ _ Htype).
  by rewrite Himg, Hfix, (setProp_same _ _ _ Himg).
Qed.

Lemma normalizeEntry_idempotent_witness :
  let e := JObj [("image", JStr "C:\art\spyro.png"); ("sig", JNum (NumInt 7))] in
  let r := JObj [("image", JStr "images/spyro.png"); ("sig", JNum (NumInt 7));
                 ("type", JStr "skylander")] in
  normalizeEntry "skylander" e = ok r ∧ normalizeEntry "amiibo" r = ok r.
Proof.
  intros e r.
  assert (He : normalizeEntry "skylander" e = ok r) by (by vm_compute).
  split; [exact He|].
  exact (normalizeEntry_idempotent "skylander" "amiibo" e r He).
Defined.

Lemma mapResult_Forall2_in {A B} (f : A → result B) (R : A → B → Prop) l :
  (∀ x, x ∈ l → ∃ y, f x = ok y ∧ R x y) →
  ∃ ys, mapResult f l = ok ys ∧ Forall2 R l ys.
Proof.
  induction l as [|x l IH]; intros Hall; simpl.
  - by exists [].
  - destruct (Hall x) as (y & -> & Hy); [by left|]. simpl.
    destruct IH as (ys & -> & HR); [intros x' Hx'; apply Hall; by right|].
    simpl. exists (y :: ys). split; [done|by constructor].
Qed.

Lemma toLiteAmiibo_of_full tag e r :
  normalizeEntry tag e = ok r →
  ∃ l, toLiteAmiibo r = ok l
       ∧ liteOfFull ["amiiboSeries"; "character"; "gameSeries"; "head";
                     "image"; "name"; "tail"; "type"] r l.
Proof.
  intros (props & img & type & -> & Himg & Hfix & Htype & Hnn)
    %normalizeEntry_shape.
  eexists. split; [reflexivity|].
  split; [reflexivity|]. simpl.
  by rewrite Himg, Hfix, Htype, (nullish_Some type _ Hnn).
Qed.

Lemma toLiteSkylander_of_full tag e r :
  normalizeEntry tag e = ok r →
  ∃ l, toLiteSkylander r = ok l
       ∧ liteOfFull ["gameSeries"; "figureId"; "variant"; "sig";
                     "image"; "name"; "type"] r l.
Proof.
  intros (props & img & type & -> & Himg & Hfix & Htype & Hnn)
    %normalizeEntry_shape.
  eexists. split; [reflexivity|].
  split; [reflexivity|]. simpl.
  by rewrite Himg, Hfix, Htype, (nullish_Some type _ Hnn).
Qed.

(** X3: whenever the full output exists, so does the lite output, with as
    many records and in the same order; each lite record has the eight
    names of the amiibo projection (the seven of the skylander one) and
    no other, and carries the image and the type of the full record at
    the same position. *)
Theorem liteOut_follows_fullOut (amiibo skylanders : list json) (full : json) :
  fullOut amiibo skylanders = ok full →
  ∃ lite,
    liteOut amiibo skylanders = ok lite
    ∧ Forall2 (liteOfFull ["amiiboSeries"; "character"; "gameSeries"; "head";
                           "image"; "name"; "tail"; "type"])
        (recordsOf full "amiibo") (recordsOf lite "amiibo")
    ∧ Forall2 (liteOfFull ["gameSeries"; "figureId"; "variant"; "sig";
                           "image"; "name"; "type"])
        (recordsOf full "skylanders") (recordsOf lite "skylanders").
Proof.
  unfold fullOut, liteOut, normalizedAmiibo, normalizedSkylanders.
  destruct (mapResult _ amiibo) as [?|na] eqn:Ea; simpl; [done|].
  destruct (mapResult _ skylanders) as [?|ns] eqn:Es; simpl; [done|].
  intros [= <-].
  destruct (mapResult_Forall2_in toLiteAmiibo
              (liteOfFull ["amiiboSeries"; "character"; "gameSeries"; "head";
                           "image"; "name"; "tail"; "type"]) na)
    as (la & -> & Ha).
  { intros r Hr. destruct (mapResult_elem _ _ _ Ea r Hr) as (e & _ & He).
    by eapply toLiteAmiibo_of_full. }
  destruct (mapResult_Forall2_in toLiteSkylander
              (liteOfFull ["gameSeries"; "figureId"; "variant"; "sig";
                           "image"; "name"; "type"]) ns)
    as (ls & -> & Hs).
  { intros r Hr. destruct (mapResult_elem _ _ _ Es r Hr) as (e & _ & He).
    by eapply toLiteSkylander_of_full. }
  simpl. eexists. split; [reflexivity|]. by split.
Qed.

Lemma liteOut_follows_fullOut_witness :
  let a := JObj [("head", JStr "04"); ("image", JStr "a\b.png")] in
  let s := JArr [JStr "not a record"] in
  let full :=
    JObj [("amiibo",
           JArr [JObj [("head", JStr "04"); ("image", JStr "images/b.png");
                       ("type", JStr "amiibo")]]);
          ("skylanders",
           JArr [JObj [("0", JStr "not a record"); ("type", JStr "skylander");
                       ("image", JStr "")]])] in
  fullOut [a] [s] = ok full
  ∧ ∃ lite,
      liteOut [a] [s] = ok lite
      ∧ Forall2 (liteOfFull ["amiiboSeries"; "character"; "gameSeries";
                             "head"; "image"; "name"; "tail"; "type"])
          (recordsOf full "amiibo") (recordsOf lite "amiibo")
      ∧ Forall2 (liteOfFull ["gameSeries"; "figureId"; "variant"; "sig";
                             "image"; "name"; "type"])
          (recordsOf full "skylanders") (recordsOf lite "skylanders").
Proof.
  intros a s full.
  assert (Hfull : fullOut [a] [s] = ok full) by (by vm_compute).
  split; [exact Hfull|].
  exact (liteOut_follows_fullOut [a] [s] full Hfull).
Defined.

Lemma normalized_error tag l err :
  mapResult (normalizeEntry tag) l = throw err → err = TypeError.
Proof.
  induction l as [|x l IH]; simpl; [done|].
  destruct (normalizeEntry_outcome tag x) as [->|[r ->]]; simpl;
    [by intros [= <-]|].
  destruct (mapResult (normalizeEntry tag) l); simpl; [|done].
  intros [= <-]. by apply IH.
Qed.

Lemma normalized_ok tag l :
  JNull ∉ l → ∃ rs, mapResult (normalizeEntry tag) l = ok rs.
Proof.
  intros Hn. apply mapResult_ok. intros x Hx.
  apply normalizeEntry_ok_iff. by intros ->.
Qed.

Lemma liteOut_exists amiibo skylanders full :
  fullOut amiibo skylanders = ok full →
  ∃ lite, liteOut amiibo skylanders = ok lite.
Proof.
  unfold fullOut, liteOut, normalizedAmiibo, normalizedSkylanders.
  destruct (mapResult _ amiibo) as [?|na] eqn:Ea; simpl; [done|].
  destruct (mapResult _ skylanders) as [?|ns] eqn:Es; simpl; [done|].
  intros _.
  destruct (mapResult_ok toLiteAmiibo na) as [la ->].
  { intros r Hr. destruct (mapResult_elem _ _ _ Ea r Hr) as (e & _ & He).
    destruct (toLiteAmiibo_of_full _ _ _ He) as (l & ? & _). by exists l. }
  destruct (mapResult_ok toLiteSkylander ns) as [ls ->].
  { intros r Hr. destruct (mapResult_elem _ _ _ Es r Hr) as (e & _ & He).
    destruct (toLiteSkylander_of_full _ _ _ He) as (l & ? & _). by exists l. }
  simpl. by eexists.
Qed.

(** X4: [null] among the entries. Validation reads a [null] entry as a
    record without fields; the two outputs exist exactly when no entry is
    [null], and with a [null] entry building either of them throws a
    TypeError. *)
Theorem outputs_and_null_entries (amiibo skylanders : list json) :
  validateNoDuplicates (JNull :: amiibo) skylanders
  = validateNoDuplicates (JObj [] :: amiibo) skylanders
  ∧ ((∃ full lite, fullOut amiibo skylanders = ok full
                   ∧ liteOut amiibo skylanders = ok lite)
     ↔ JNull ∉ amiibo ++ skylanders)
  ∧ (JNull ∈ amiibo ++ skylanders →
     fullOut amiibo skylanders = throw TypeError
     ∧ liteOut amiibo skylanders = throw TypeError).
Proof.
  split; [reflexivity|].
  assert (Hthrow : JNull ∈ amiibo ++ skylanders →
            fullOut amiibo skylanders = throw TypeError
            ∧ liteOut amiibo skylanders = throw TypeError).
  { unfold fullOut, liteOut, normalizedAmiibo, normalizedSkylanders.
    intros [Hin|Hin]%elem_of_app.
    - rewrite (mapResult_throw (normalizeEntry "amiibo") amiibo TypeError);
        [done|intros x _; apply normalizeEntry_outcome|by exists JNull].
    - destruct (mapResult (normalizeEntry "amiibo") amiibo) as [err|na]
        eqn:Ea; simpl.
      + by rewrite (normalized_error _ _ _ Ea).
      + rewrite (mapResult_throw (normalizeEntry "skylander") skylanders
                   TypeError);
          [done|intros x _; apply normalizeEntry_outcome|by exists JNull]. }
  split; [|exact Hthrow]. split.
  - intros (full & lite & Hfull & _) Hin.
    destruct (Hthrow Hin) as [Hf _]. by rewrite Hf in Hfull.
  - intros Hn.
    assert (∃ full, fullOut amiibo skylanders = ok full) as [full Hfull].
    { unfold fullOut, normalizedAmiibo, normalizedSkylanders.
      destruct (normalized_ok "amiibo" amiibo) as [na ->]; [set_solver|].
      destruct (normalized_ok "skylander" skylanders) as [ns ->];
        [set_solver|].
      simpl. by eexists. }
    destruct (liteOut_exists _ _ _ Hfull) as [lite Hlite].
    by exists full, lite.
Qed.

(** ** Patch files *)

Lemma classify_outcome e :
  classify e = throw TypeError ∨ ∃ ns, classify e = ok ns.
Proof.
  unfold classify, looksSky, typeTag.
  destruct (nullish _ _); simpl; eauto.
Qed.

Lemma classifyEntries_app l1 l2 amiibo sky :
  classifyEntries (l1 ++ l2) amiibo sky
  = bind (classifyEntries l1 amiibo sky)
         (fun acc => classifyEntries l2 acc.1 acc.2).
Proof.
  revert amiibo sky. induction l1 as [|e l1 IH]; intros amiibo sky; simpl;
    [done|].
  destruct (classify e) as [err|[|]]; simpl; [done|apply IH..].
Qed.

Lemma entry_tests e :
  match classify e with
  | inl _ =>
      classifiable e = false
  | inr Amiibo =>
      classifiable e = true
      ∧ isAmiiboEntry e = true ∧ isSkylanderEntry e ≠ true
  | inr Skylander =>
      classifiable e = true
      ∧ isAmiiboEntry e ≠ true ∧ isSkylanderEntry e = true
  end.
Proof.
  unfold classifiable, isAmiiboEntry, isSkylanderEntry.
  by destruct (classify e) as [err|[|]].
Qed.

(** X5: classification of a patch file is all or nothing. When every
    entry can be classified, the amiibo entries are appended to one
    accumulator and the skylander entries to the other, each group in the
    order of the file, and every entry lands in exactly one group; when
    one entry cannot (its type is neither a string nor null), the whole
    file is refused with a TypeError. *)
Theorem classifyEntries_partition (parsed amiibo sky : list json) :
  classifyEntries parsed amiibo sky
  = (if forallb classifiable parsed
     then ok (amiibo ++ filter (fun e => isAmiiboEntry e = true) parsed,
              sky ++ filter (fun e => isSkylanderEntry e = true) parsed)
     else throw TypeError)
  ∧ (forallb classifiable parsed = true →
     parsed ≡ₚ filter (fun e => isAmiiboEntry e = true) parsed
               ++ filter (fun e => isSkylanderEntry e = true) parsed).
Proof.
  split.
  - revert amiibo sky. induction parsed as [|e parsed IH]; intros amiibo sky.
    + simpl. by rewrite !app_nil_r.
    + pose proof (entry_tests e) as He. pose proof (classify_outcome e) as Ho.
      simpl. destruct (classify e) as [err|[|]]; simpl.
      * rewrite He. simpl. destruct Ho as [[= ->]|[? [=]]]. done.
      * destruct He as (-> & Ha & Hs). simpl.
        rewrite IH, filter_cons_True, filter_cons_False by done.
        destruct (forallb classifiable parsed); [|done].
        by rewrite <- app_assoc.
      * destruct He as (-> & Ha & Hs). simpl.
        rewrite IH, filter_cons_False, filter_cons_True by done.
        destruct (forallb classifiable parsed); [|done].
        by rewrite <- app_assoc.
  - induction parsed as [|e parsed IH]; simpl; [done|].
    intros [He Hall]%andb_prop. specialize (IH Hall).
    pose proof (entry_tests e) as Ht.
    destruct (classify e) as [err|[|]].
    + congruence.
    + destruct Ht as (_ & Ha & Hs).
      rewrite filter_cons_True, filter_cons_False by done.
      simpl. by f_equiv.
    + destruct Ht as (_ & Ha & Hs).
      rewrite filter_cons_False, filter_cons_True by done.
      rewrite <- Permutation_middle. by f_equiv.
Qed.

Lemma loadPatchFiles_ext read read' files amiibo sky :
  (∀ f, f ∈ files → read f = read' f) →
  loadPatchFiles read files amiibo sky = loadPatchFiles read' files amiibo sky.
Proof.
  revert amiibo sky. induction files as [|f files IH]; intros amiibo sky Hr;
    simpl; [done|].
  rewrite <- (Hr f) by left. destruct (read f) as [err|[| | | |entries|]];
    simpl; try done.
  destruct (classifyEntries entries amiibo sky) as [err|acc]; simpl; [done|].
  apply IH. intros g Hg. apply Hr. by right.
Qed.

(** X6: the patch loader reads the files whose name ends in ".json",
    whatever the case of the letters, and no other: two file systems that
    agree on these files give the same entries, the same error, and the
    same image directories. A patches root that does not exist gives
    three empty lists. *)
Theorem loadPatchEntriesAndImageDirs_reads_json_only
    (read read' : path → result json) (root : path)
    (patches : option (list (string * fsnode))) :
  (∀ f, isJsonFile f = true → read f = read' f) →
  loadPatchEntriesAndImageDirs read root patches
  = loadPatchEntriesAndImageDirs read' root patches
  ∧ loadPatchEntriesAndImageDirs read root None = ok ([], [], []).
Proof.
  intros Hr. split; [|done].
  destruct patches as [items|]; [|done].
  unfold loadPatchEntriesAndImageDirs.
  rewrite (loadPatchFiles_ext read read'); [done|].
  intros f [Hf _]%list_elem_of_filter. by apply Hr.
Qed.

Lemma loadPatchEntriesAndImageDirs_reads_json_only_witness :
  let entries := JArr [JObj [("head", JStr "05"); ("tail", JStr "B")]] in
  let read := fun f : path =>
    if isJsonFile f then ok entries else throw IoFailure in
  let read' := fun f : path =>
    if isJsonFile f then ok entries else ok JNull in
  let items := [("pack", Dir [("Extra.JSON", File); ("notes.txt", File)])] in
  (∀ f, isJsonFile f = true → read f = read' f)
  ∧ loadPatchEntriesAndImageDirs read ["patches"] (Some items)
    = loadPatchEntriesAndImageDirs read' ["patches"] (Some items)
  ∧ loadPatchEntriesAndImageDirs read ["patches"] None = ok ([], [], []).
Proof.
  intros entries read read' items.
  assert (Hr : ∀ f, isJsonFile f = true → read f = read' f).
  { intros f Hf. unfold read, read'. by rewrite Hf. }
  split; [exact Hr|].
  exact (loadPatchEntriesAndImageDirs_reads_json_only
           read read' ["patches"] (Some items) Hr).
Defined.

(** X7: patch entries are merged in file order. When every patch file
    parses to an array, loading the files one after the other classifies
    the entries exactly as one file holding all the arrays end to end
    would be classified. *)
Theorem loadPatchFiles_concat (read : path → result json) (files : list path)
    (arrays : list (list json)) (amiibo sky : list json) :
  Forall2 (fun f entries => read f = ok (JArr entries)) files arrays →
  loadPatchFiles read files amiibo sky
  = classifyEntries (concat arrays) amiibo sky.
Proof.
  intros Hall. revert amiibo sky.
  induction Hall as [|f entries files arrays Hf _ IH]; intros amiibo sky;
    simpl; [done|].
  rewrite Hf, classifyEntries_app. simpl.
  destruct (classifyEntries entries amiibo sky) as [err|acc]; simpl; [done|].
  apply IH.
Qed.

Lemma loadPatchFiles_concat_witness :
  let a := JObj [("head", JStr "05"); ("tail", JStr "B")] in
  let s := JObj [("sig", JNum (NumInt 7))] in
  let read := fun f : path =>
    if decide (f = ["p"; "one.json"]) then ok (JArr [a; s])
    else ok (JArr [s; a]) in
  Forall2 (fun f entries => read f = ok (JArr entries))
    [["p"; "one.json"]; ["p"; "two.json"]] [[a; s]; [s; a]]
  ∧ loadPatchFiles read [["p"; "one.json"]; ["p"; "two.json"]] [] []
    = classifyEntries (concat [[a; s]; [s; a]]) [] [].
Proof.
  intros a s read.
  assert (H : Forall2 (fun f entries => read f = ok (JArr entries))
                [["p"; "one.json"]; ["p"; "two.json"]] [[a; s]; [s; a]]).
  { repeat constructor. }
  split; [exact H|].
  exact (loadPatchFiles_concat read _ _ [] [] H).
Defined.

(** A patch file that does not hold an array stops the load with
    MalformedPatch, once the files before it are classified. *)
Lemma loadPatchFiles_malformed read files file rest arrays amiibo sky acc v :
  Forall2 (fun f entries => read f = ok (JArr entries)) files arrays →
  classifyEntries (concat arrays) amiibo sky = ok acc →
  read file = ok v → (∀ entries, v ≠ JArr entries) →
  loadPatchFiles read (files ++ file :: rest) amiibo sky
  = throw MalformedPatch.
Proof.
  intros Hall. revert amiibo sky.
  induction Hall as [|f entries files arrays Hf _ IH]; intros amiibo sky;
    simpl.
  - intros _ -> Hv. destruct v; try done. by destruct (Hv items).
  - rewrite Hf, classifyEntries_app. simpl.
    destruct (classifyEntries entries amiibo sky) as [err|acc']; simpl;
      [done|].
    apply IH.
Qed.

(** ** The recursive listing *)

Lemma unique_child {A} (items : list (string * A)) name (c1 c2 : A) :
  NoDup items.*1 → (name, c1) ∈ items → (name, c2) ∈ items → c1 = c2.
Proof.
  induction items as [|[k v] items IH]; csimpl; [by intros _ ?%elem_of_nil|].
  intros [Hk Hnd]%NoDup_cons [H1|H1]%elem_of_cons [H2|H2]%elem_of_cons.
  - congruence.
  - injection H1 as -> ->. destruct Hk. apply list_elem_of_fmap.
    by exists (k, c2).
  - injection H2 as -> ->. destruct Hk. apply list_elem_of_fmap.
    by exists (k, c1).
  - by apply IH.
Qed.

Lemma listFilesUnder_NoDup node :
  uniqueNames node → ∀ p, NoDup (listFilesUnder p node).
Proof.
  induction node as [| |items IH] using fsnode_rect'; intros Hu p.
  - apply NoDup_singleton.
  - apply NoDup_nil_2.
  - inversion Hu as [| |? Hnd Hall]; subst.
    rewrite listFilesUnder_dir. rewrite Forall_forall in IH, Hall.
    apply NoDup_bind.
    + intros [n1 c1] [n2 c2] f H1 H2 Hf1 Hf2. simpl in *.
      apply listFilesUnder_locates in Hf1 as (r1 & -> & _).
      apply listFilesUnder_locates in Hf2 as (r2 & Heq & _).
      rewrite <- !app_assoc in Heq. apply app_inv_head in Heq.
      injection Heq as -> _. f_equal. by eapply unique_child.
    + intros [n c] Hin. simpl. apply (IH _ Hin). by apply (Hall _ Hin).
    + by eapply NoDup_fmap_1.
Qed.

(** X8: [listFilesRecursive] lists the regular files of the tree and
    nothing else: a path is listed exactly when it is the directory's path
    followed by components that lead, entry by entry, to a regular file;
    directories and entries that are neither files nor directories are
    never listed. When no directory holds two entries of one name, no path
    is listed twice. *)
Theorem listFilesRecursive_spec (dir : path) (items : list (string * fsnode)) :
  uniqueNames (Dir items) →
  NoDup (listFilesRecursive dir items)
  ∧ ∀ f, f ∈ listFilesRecursive dir items
         ↔ ∃ rel, f = dir ++ rel ∧ rel ≠ [] ∧ locates (Dir items) rel File.
Proof.
  intros Hu. split; [by apply listFilesUnder_NoDup|].
  intros f. unfold listFilesRecursive. rewrite listFilesUnder_locates.
  split; intros (rel & -> & H).
  - exists rel. split; [done|]. split; [|done].
    intros ->. by inversion H.
  - exists rel. by destruct H.
Qed.

Lemma listFilesRecursive_spec_witness :
  let items := [("a.json", File); ("images", Dir [("x.png", File)]);
                ("link", Other); ("empty", Dir [])] in
  uniqueNames (Dir items)
  ∧ NoDup (listFilesRecursive ["p"] items)
  ∧ listFilesRecursive ["p"] items = [["p"; "a.json"]; ["p"; "images"; "x.png"]].
Proof.
  intros items.
  assert (Hu : uniqueNames (Dir items)).
  { assert (Hx : uniqueNames (Dir [("x.png", File)])).
    { constructor; [by apply (bool_decide_unpack _)|repeat constructor]. }
    assert (He : uniqueNames (Dir [])).
    { constructor; [apply NoDup_nil_2|constructor]. }
    unfold items. constructor; [by apply (bool_decide_unpack _)|].
    rewrite !Forall_cons. simpl.
    split_and!; [constructor|exact Hx|constructor|exact He|constructor]. }
  split; [exact Hu|]. split; [|reflexivity].
  exact (proj1 (listFilesRecursive_spec ["p"] items Hu)).
Defined.

(** The listing follows the order of the directory entries: the files of
    an entry come before those of the entries after it. *)
Lemma listFilesRecursive_app dir items1 items2 :
  listFilesRecursive dir (items1 ++ items2)
  = listFilesRecursive dir items1 ++ listFilesRecursive dir items2.
Proof.
  unfold listFilesRecursive. rewrite !listFilesUnder_dir. apply bind_app.
Qed.

(** ** Identity keys of skylander records *)

Lemma to_int_proper z :
  Z.to_int z ≠ Decimal.Pos Decimal.Nil ∧ Z.to_int z ≠ Decimal.Neg Decimal.Nil.
Proof.
  destruct z; simpl; split; try discriminate; intros [= H];
    by apply DecimalPos.Unsigned.to_uint_nonnil in H.
Qed.

Lemma numberToString_read z p :
  NilZero.int_of_string (numberToString (NumSafe z p)) = Some (Z.to_int z).
Proof. simpl. apply NilZero.isi; apply to_int_proper. Qed.

Lemma numberToString_int_inj z1 p1 z2 p2 :
  numberToString (NumSafe z1 p1) = numberToString (NumSafe z2 p2) →
  NumSafe z1 p1 = NumSafe z2 p2.
Proof.
  intros H. assert (z1 = z2) as ->.
  { apply DecimalZ.to_int_inj.
    apply (f_equal NilZero.int_of_string) in H.
    rewrite !numberToString_read in H. by injection H. }
  f_equal. apply proof_irrel.
Qed.

Lemma finiteNumber_int x n :
  finiteNumber x = Some n → ∃ z p, n = NumSafe z p.
Proof.
  destruct x as [[| |m| | |]|]; simpl; try done.
  destruct m; simpl; intros [= <-]. by eexists _, _.
Qed.

Lemma string_of_uint_digits d : hyphenFree (NilEmpty.string_of_uint d).
Proof.
  unfold hyphenFree. induction d; simpl; constructor; done.
Qed.

Lemma string_of_uint_text d :
  NilZero.string_of_uint d ≠ "" ∧ hyphenFree (NilZero.string_of_uint d).
Proof.
  split.
  - by destruct d.
  - destruct d; try apply (string_of_uint_digits (_ _)).
    unfold hyphenFree. simpl. by constructor.
Qed.

Lemma numberToString_text z p : signedText (numberToString (NumSafe z p)).
Proof.
  simpl. destruct (Z.to_int z) as [d|d]; simpl;
    exists (NilZero.string_of_uint d);
    destruct (string_of_uint_text d); auto.
Qed.

Lemma orQuestionMark_text x : signedText (orQuestionMark (finiteNumber x)).
Proof.
  destruct (finiteNumber x) as [n|] eqn:E; simpl.
  - apply finiteNumber_int in E as (z & p & ->). apply numberToString_text.
  - exists "?". split; [done|]. split; [|by left].
    unfold hyphenFree. simpl. by constructor.
Qed.

(** Two texts joined by a hyphen to what follows them can be read back:
    the hyphen that ends the first text is the first one after its sign. *)
Lemma joined_signedText f1 v1 f2 v2 :
  signedText f1 → signedText f2 →
  f1 +:+ "-" +:+ v1 = f2 +:+ "-" +:+ v2 → f1 = f2 ∧ v1 = v2.
Proof.
  intros (d1 & Hn1 & Hd1 & [-> | ->]) (d2 & Hn2 & Hd2 & [-> | ->]); simpl.
  - by apply joined_key_pair.
  - destruct d1 as [|c d1]; [done|]. simpl. intros [= -> _].
    unfold hyphenFree in Hd1. simpl in Hd1. by apply Forall_cons in Hd1 as [? _].
  - destruct d2 as [|c d2]; [done|]. simpl. intros [= <- _].
    unfold hyphenFree in Hd2. simpl in Hd2. by apply Forall_cons in Hd2 as [? _].
  - intros [= H]. apply joined_key_pair in H as [-> ->]; done.
Qed.

Lemma orQuestionMark_inj x y :
  orQuestionMark (finiteNumber x) = orQuestionMark (finiteNumber y) →
  finiteNumber x = finiteNumber y.
Proof.
  destruct (finiteNumber x) as [n|] eqn:Ex;
    destruct (finiteNumber y) as [m|] eqn:Ey; simpl; [| | |done].
  - apply finiteNumber_int in Ex as (z1 & p1 & ->).
    apply finiteNumber_int in Ey as (z2 & p2 & ->).
    intros H. f_equal. exact (numberToString_int_inj z1 p1 z2 p2 H).
  - apply finiteNumber_int in Ex as (z1 & p1 & ->). intros H.
    apply (f_equal NilZero.int_of_string) in H.
    by rewrite (numberToString_read _ _) in H.
  - apply finiteNumber_int in Ey as (z2 & p2 & ->). intros H.
    apply (f_equal NilZero.int_of_string) in H.
    by rewrite (numberToString_read _ _) in H.
Qed.

Lemma skylanderKey_same e1 e2 :
  skylanderKey e1 = skylanderKey e2
  ↔ skylanderIdentity e1 = skylanderIdentity e2.
Proof.
  unfold skylanderKey, skylanderIdentity.
  destruct (finiteNumber (getOpt e1 "sig")) as [n1|] eqn:E1;
    destruct (finiteNumber (getOpt e2 "sig")) as [n2|] eqn:E2.
  - apply finiteNumber_int in E1 as (z1 & p1 & ->).
    apply finiteNumber_int in E2 as (z2 & p2 & ->).
    split; [|by intros [= ->]].
    intros [= H]. f_equal. exact (numberToString_int_inj z1 p1 z2 p2 H).
  - split; [|done]. by intros [=].
  - split; [|done]. by intros [=].
  - split; [|by intros [= -> ->]].
    intros [= H].
    apply joined_signedText in H as [Hf Hv]; try apply orQuestionMark_text.
    apply orQuestionMark_inj in Hf.
    assert (Hv' : orQuestionMark (finiteNumber (getOpt e1 "variant"))
                  = orQuestionMark (finiteNumber (getOpt e2 "variant")))
      by exact Hv.
    apply orQuestionMark_inj in Hv'. by rewrite Hf, Hv'.
Qed.

(** X9: the identity key that validation builds for a skylander record
    stands for the record's identity and for nothing else. Two records
    get the same key exactly when both have the same finite sig, or
    neither has a finite sig and they agree on the finite figureId and on
    the finite variant (a field without a finite number counting as
    missing): a record with a sig never collides with one without, and
    the figureId and variant of a record with a sig play no part. *)
Theorem skylanderKey_identity (e1 e2 : json) :
  (skylanderKey e1 = skylanderKey e2
   ↔ skylanderIdentity e1 = skylanderIdentity e2)
  ∧ (∀ sig, finiteNumber (getOpt e1 "sig") = Some sig →
       (skylanderKey e1 = skylanderKey e2
        ↔ finiteNumber (getOpt e2 "sig") = Some sig)).
Proof.
  split; [apply skylanderKey_same|].
  intros sig Hs. rewrite skylanderKey_same. unfold skylanderIdentity.
  rewrite Hs. destruct (finiteNumber (getOpt e2 "sig")); split;
    intros [=]; by subst.
Qed.

(** ** What validation accepts *)

Lemma validateSkylanders_ok seen entries :
  validateSkylanders seen entries = ok ()
  ↔ NoDup (skylanderKey <$> entries)
    ∧ ∀ k, k ∈ skylanderKey <$> entries → k ∉ seen.
Proof.
  revert seen. induction entries as [|e rest IH]; intros seen; csimpl.
  - split; [intros _|done]. split; [constructor|]. by intros k ?%elem_of_nil.
  - case_bool_decide as Hin.
    + split; [done|]. intros [_ Hk]. destruct (Hk (skylanderKey e)); [|done].
      by left.
    + rewrite IH, NoDup_cons. split.
      * intros [Hnd Hk]. split; [split; [|done]|].
        -- intros Hr. apply Hk in Hr. set_solver.
        -- intros k [->|Hr]%elem_of_cons; [done|]. apply Hk in Hr. set_solver.
      * intros [[Hne Hnd] Hk]. split; [done|].
        intros k Hr. assert (k ∉ seen) by (apply Hk; by right).
        assert (k ≠ skylanderKey e) by (by intros ->). set_solver.
Qed.

Lemma validateAmiibo_printed seen entries :
  validateAmiibo seen entries = ok () → Forall printsKey entries.
Proof.
  revert seen. induction entries as [|e rest IH]; intros seen; simpl;
    [by constructor|].
  destruct (amiiboKey e) as [err|key] eqn:E; simpl; [done|].
  destruct (_ && _); [done|]. intros Hok.
  constructor; [by exists key | by eapply IH].
Qed.

Lemma keyText_same e1 e2 :
  printsKey e1 → printsKey e2 →
  keyText e1 = keyText e2 ↔ amiiboKey e1 = amiiboKey e2.
Proof.
  unfold keyText. intros [k1 H1] [k2 H2]. rewrite H1, H2.
  split; [intros H; simpl in H; by rewrite H | by intros [= ->]].
Qed.

Lemma validateAmiibo_ok entries :
  validateAmiibo ∅ entries = ok ()
  ↔ Forall printsKey entries ∧ amiiboKeysApart entries.
Proof.
  split.
  - intros Hok. pose proof (validateAmiibo_printed _ _ Hok) as Hp.
    split; [done|].
    pose proof (validateAmiibo_throws ∅ entries Hp) as Ht.
    intros i j ei ej Hij Hi Hj Hk.
    destruct (notEmptyString (amiiboHead ej)) eqn:Hh;
      destruct (notEmptyString (amiiboTail ej)) eqn:Htl; try done.
    assert (Hthrow : ∃ key, validateAmiibo ∅ entries
                            = throw (DuplicateRecord Amiibo key)).
    { apply Ht. exists j, ej. do 3 (split; [done|]). right. exists i, ei.
      do 2 (split; [done|]). unfold keyText. by rewrite Hk. }
    destruct Hthrow as [key Hkey]. by rewrite Hok in Hkey.
  - intros [Hp Hall].
    pose proof (validateAmiibo_throws ∅ entries Hp) as Ht.
    destruct (validateAmiibo_prints ∅ entries Hp) as [Hok | Hthrow]; [done|].
    apply Ht in Hthrow
      as (j & ej & Hj & Hh & Htl & [Hin | (i & ei & Hij & Hi & Hk)]);
      [set_solver|].
    rewrite Forall_lookup in Hp.
    apply keyText_same in Hk; [|by eapply Hp..].
    specialize (Hall i j ei ej Hij Hi Hj Hk). by rewrite Hh, Htl in Hall.
Qed.

Lemma NoDup_fmap_same {A B C} (f : A → B) (g : A → C) l :
  (∀ x y, f x = f y ↔ g x = g y) → NoDup (f <$> l) → NoDup (g <$> l).
Proof.
  intros Hfg. induction l as [|x l IH]; csimpl; [by constructor|].
  rewrite !NoDup_cons. intros [Hx Hl]. split; [|by apply IH].
  intros (y & Hy & Hin)%list_elem_of_fmap. apply Hx.
  apply list_elem_of_fmap. exists y. split; [by apply Hfg|done].
Qed.

(** X10: merge validation passes exactly when the key of every amiibo
    record can be built (no head or tail is an object that cannot be turned
    into a text), no amiibo record with a non-empty head and a non-empty
    tail has the key of an earlier amiibo record, and no two skylander
    records share an identity (the finite sig, or without one the finite
    figureId and variant). *)
Theorem validateNoDuplicates_passes (amiiboEntries skylanderEntries : list json) :
  validateNoDuplicates amiiboEntries skylanderEntries = ok ()
  ↔ Forall printsKey amiiboEntries
    ∧ amiiboKeysApart amiiboEntries
    ∧ NoDup (skylanderIdentity <$> skylanderEntries).
Proof.
  unfold validateNoDuplicates.
  pose proof (validateAmiibo_ok amiiboEntries) as Ha.
  assert (Hids : NoDup (skylanderKey <$> skylanderEntries)
                 ↔ NoDup (skylanderIdentity <$> skylanderEntries)).
  { split; apply NoDup_fmap_same; intros x y;
      [|symmetry]; apply skylanderKey_same. }
  rewrite <- Hids.
  destruct (validateAmiibo ∅ amiiboEntries) as [err|[]]; simpl.
  - split; [done|]. intros (Hp & Hk & _).
    by pose proof (proj2 Ha (conj Hp Hk)).
  - destruct (proj1 Ha eq_refl) as [Hp Hk].
    rewrite validateSkylanders_ok. split.
    + by intros [? _].
    + intros (_ & _ & ?). split; [done|]. intros k _. apply not_elem_of_empty.
Qed.

(** X11: the two namespaces are validated in turn, the amiibo records
    first, and the first collision stops the run. Validation fails on the
    skylander records exactly when the amiibo records alone pass and some
    skylander record has the key of one before it; the error names the
    key of the first such record. An amiibo collision is reported
    whatever the skylander records are. *)
Theorem validateNoDuplicates_first_collision
    (amiiboEntries skylanderEntries : list json) (key : string) :
  (validateNoDuplicates amiiboEntries skylanderEntries
   = throw (DuplicateRecord Skylander key)
   ↔ validateNoDuplicates amiiboEntries [] = ok ()
     ∧ ∃ pre e post,
         skylanderEntries = pre ++ e :: post
         ∧ NoDup (skylanderKey <$> pre)
         ∧ skylanderKey e = key ∧ key ∈ skylanderKey <$> pre)
  ∧ (validateNoDuplicates amiiboEntries [] = throw (DuplicateRecord Amiibo key)
     → validateNoDuplicates amiiboEntries skylanderEntries
       = throw (DuplicateRecord Amiibo key)).
Proof.
  unfold validateNoDuplicates.
  destruct (validateAmiibo_outcome ∅ amiiboEntries) as [-> | [[k ->] | ->]];
    simpl; [|split; [|done]; split; [done | by intros [? _]]..].
  split; [|done]. split.
  - intros Hthrow. split; [done|].
    assert (Hgen : ∀ entries seen,
      validateSkylanders seen entries = throw (DuplicateRecord Skylander key) →
      ∃ pre e post, entries = pre ++ e :: post
        ∧ validateSkylanders seen pre = ok ()
        ∧ skylanderKey e = key
        ∧ key ∈ list_to_set (C := gset string) (skylanderKey <$> pre) ∪ seen).
    { induction entries as [|e rest IH]; intros seen; simpl; [done|].
      case_bool_decide as Hin.
      - intros [= <-]. exists [], e, rest. simpl. split_and!; try done.
        set_solver.
      - intros (pre & e' & post & -> & Hpre & Hk & Hmem)%IH.
        exists (e :: pre), e', post. simpl.
        rewrite bool_decide_eq_false_2 by done.
        split_and!; try done. set_solver. }
    apply Hgen in Hthrow as (pre & e & post & -> & Hpre & Hk & Hmem).
    exists pre, e, post. apply validateSkylanders_ok in Hpre as [Hnd _].
    split_and!; try done. set_solver.
  - intros (_ & pre & e & post & -> & Hnd & Hk & Hmem).
    rewrite validateSkylanders_app.
    + simpl. rewrite Hk, bool_decide_eq_true_2; [done|]. set_solver.
    + apply validateSkylanders_ok. split; [done|].
      intros k _. apply not_elem_of_empty.
Qed.

(** ** The canonical form *)

Lemma arrayIndex_name k n :
  arrayIndex k = Some n → k = NilZero.string_of_uint (N.to_uint n).
Proof.
  unfold arrayIndex. destruct (NilEmpty.uint_of_string k); [|done].
  case_decide as Hk; [|done]. case_decide; [|done]. by intros [= <-].
Qed.

Lemma keyBefore_irrefl k : ¬ keyBefore k k.
Proof.
  unfold keyBefore. destruct (arrayIndex k); [lia|]. by intros [_ ?].
Qed.

Lemma keyBefore_trans k1 k2 k3 :
  keyBefore k1 k2 → keyBefore k2 k3 → keyBefore k1 k3.
Proof.
  unfold keyBefore.
  destruct (arrayIndex k1), (arrayIndex k2), (arrayIndex k3); try done;
    [lia|].
  intros [H12 Hn12] [H23 Hn23]. split; [by etrans|].
  intros ->. apply Hn12. by apply (anti_symm String.le).
Qed.

Lemma keys_overwrite {A} k (v : A) l : keys (overwrite k v l) = keys l.
Proof.
  unfold keys. induction l as [|[k' v'] l IH]; simpl; [done|].
  destruct (decide (k = k')) as [->|]; csimpl; [done|]. by rewrite IH.
Qed.

Lemma elem_of_overwrite {A} k (v : A) l x :
  x ∈ overwrite k v l → x = (k, v) ∨ x ∈ l.
Proof.
  induction l as [|[k' v'] l IH]; simpl; [by right|].
  destruct (decide (k = k')) as [->|].
  - intros [->|?]%elem_of_cons; [by left|right; by right].
  - intros [->|[?|?]%IH]%elem_of_cons; [right; by left|by left|].
    right. by right.
Qed.

Lemma elem_of_createIndex {A} n k (v : A) l x :
  x ∈ createIndex n k v l ↔ x = (k, v) ∨ x ∈ l.
Proof.
  induction l as [|[k' v'] l IH]; simpl; [set_solver|].
  destruct (arrayIndex k') as [n'|]; [destruct (decide (n' < n)%N)|];
    set_solver.
Qed.

Lemma elem_of_setProp {A} k (v : A) l x :
  x ∈ setProp k v l → x = (k, v) ∨ x ∈ l.
Proof.
  unfold setProp. destruct (assoc k l); [apply elem_of_overwrite|].
  destruct (arrayIndex k); [apply elem_of_createIndex|set_solver].
Qed.

Lemma createIndex_sorted {A} n k (v : A) l :
  arrayIndex k = Some n → k ∉ keys l →
  StronglySorted keyBefore (keys l) →
  StronglySorted keyBefore (keys (createIndex n k v l)).
Proof.
  intros Hk. unfold keys.
  induction l as [|[k' v'] l IH]; csimpl; intros Hnew Hs.
  - repeat constructor.
  - apply not_elem_of_cons in Hnew as [Hne Hnew].
    apply StronglySorted_cons in Hs as [Hall Hs].
    assert (Hfirst : ∀ n', arrayIndex k' = Some n' → n' ≠ n).
    { intros n' Hk' ->. apply Hne.
      by rewrite (arrayIndex_name _ _ Hk), (arrayIndex_name _ _ Hk'). }
    assert (Hhere : keyBefore k k' →
              StronglySorted keyBefore (k :: k' :: l.*1)).
    { intros Hb. apply StronglySorted_cons. split.
      - constructor; [done|]. eapply Forall_impl; [exact Hall|].
        intros x. by apply keyBefore_trans.
      - by apply StronglySorted_cons. }
    destruct (arrayIndex k') as [n'|] eqn:Hk';
      [destruct (decide (n' < n)%N)|]; csimpl.
    + apply StronglySorted_cons. split; [|by apply IH].
      apply Forall_forall. intros x [y [-> Hy]]%list_elem_of_fmap.
      apply elem_of_createIndex in Hy as [->|Hy]; simpl.
      * unfold keyBefore. by rewrite Hk', Hk.
      * rewrite Forall_forall in Hall. apply Hall.
        apply list_elem_of_fmap. by exists y.
    + apply Hhere. unfold keyBefore. rewrite Hk, Hk'.
      specialize (Hfirst n' eq_refl). lia.
    + apply Hhere. unfold keyBefore. by rewrite Hk, Hk'.
Qed.

(** A write keeps the enumeration order canonical when the name written
    comes, by code units, after the names that are there. *)
Lemma setProp_sorted {A} k (v : A) l :
  (∀ k', k' ∈ keys l → String.le k' k) →
  StronglySorted keyBefore (keys l) →
  StronglySorted keyBefore (keys (setProp k v l)).
Proof.
  intros Hle Hs. unfold setProp. destruct (assoc k l) eqn:E.
  - by rewrite keys_overwrite.
  - assert (Hnew : k ∉ keys l).
    { intros Hin%assoc_is_Some. rewrite E in Hin. by destruct Hin. }
    destruct (arrayIndex k) as [n|] eqn:Hk; [by apply createIndex_sorted|].
    unfold keys in *. rewrite fmap_app. csimpl.
    apply StronglySorted_app. split_and!; [|done|repeat constructor].
    intros k1 k2 H1 ->%list_elem_of_singleton.
    unfold keyBefore. rewrite Hk. destruct (arrayIndex k1); [done|].
    split; [by apply Hle|]. by intros ->.
Qed.

Lemma keys_setProp {A} k (v : A) l x :
  x ∈ keys (setProp k v l) ↔ x = k ∨ x ∈ keys l.
Proof.
  rewrite <- !assoc_is_Some, assoc_setProp.
  destruct (decide (x = k)) as [->|Hne]; [|by intuition].
  split; [by left | by eexists].
Qed.

Lemma keys_assign {A} k (v : A) l x :
  x ∈ keys (assign k v l) ↔ (x = k ∧ k ≠ "__proto__") ∨ x ∈ keys l.
Proof.
  unfold assign. case_decide as Hp; [|rewrite keys_setProp]; by intuition.
Qed.

Section rebuild.

Variable copied : list (string * json).

Let step (out : list (string * json)) (k : string) : list (string * json) :=
  match assoc k copied with
  | Some v => assign k v out
  | None => out
  end.

Lemma rebuild_keys ks out x :
  x ∈ keys (fold_left step ks out)
  ↔ x ∈ keys out ∨ (x ∈ ks ∧ x ∈ keys copied ∧ x ≠ "__proto__").
Proof.
  revert out. induction ks as [|k ks IH]; intros out; simpl.
  - split; [by left|]. by intros [?|[?%elem_of_nil _]].
  - rewrite IH. unfold step.
    destruct (assoc k copied) as [v|] eqn:E.
    + assert (k ∈ keys copied) by (apply assoc_is_Some; by rewrite E).
      rewrite keys_assign, elem_of_cons. naive_solver.
    + assert (k ∉ keys copied).
      { intros Hin%assoc_is_Some. rewrite E in Hin. by destruct Hin. }
      rewrite elem_of_cons. naive_solver.
Qed.

Lemma rebuild_sorted ks out :
  StronglySorted String.le ks →
  (∀ k' k, k' ∈ keys out → k ∈ ks → String.le k' k) →
  StronglySorted keyBefore (keys out) →
  StronglySorted keyBefore (keys (fold_left step ks out)).
Proof.
  revert out. induction ks as [|k ks IH]; intros out Hks Hle Hs; simpl;
    [done|].
  apply StronglySorted_cons in Hks as [Hk Hks]. rewrite Forall_forall in Hk.
  apply IH; [done| |].
  - intros k' k2 Hin H2. unfold step in Hin.
    destruct (assoc k copied); [|apply Hle; [done|by right]].
    apply keys_assign in Hin as [[-> _]|Hin]; [by apply Hk|].
    apply Hle; [done|by right].
  - unfold step. destruct (assoc k copied); [|done].
    unfold assign. case_decide; [done|].
    apply setProp_sorted; [|done]. intros k' Hin. apply Hle; [done|by left].
Qed.

Lemma rebuild_values (P : json → Prop) ks out :
  Forall (fun kv => P kv.2) copied → Forall (fun kv => P kv.2) out →
  Forall (fun kv => P kv.2) (fold_left step ks out).
Proof.
  intros Hc. revert out. induction ks as [|k ks IH]; intros out Hout; simpl;
    [done|].
  apply IH. unfold step. destruct (assoc k copied) as [v|] eqn:E; [|done].
  unfold assign. case_decide; [done|].
  apply Forall_forall. intros x [->|Hx]%elem_of_setProp.
  - apply assoc_Some_elem in E. rewrite Forall_forall in Hc. by apply (Hc _ E).
  - rewrite Forall_forall in Hout. by apply Hout.
Qed.

Lemma rebuild_lookup ks out x :
  assoc x (fold_left step ks out)
  = if decide (x ∈ ks ∧ x ≠ "__proto__" ∧ x ∈ keys copied)
    then assoc x copied else assoc x out.
Proof.
  revert out. induction ks as [|k ks IH]; intros out; cbn [fold_left].
  - rewrite decide_False; [done|]. by intros [?%elem_of_nil _].
  - rewrite IH. unfold step.
    destruct (decide (x ∈ ks ∧ x ≠ "__proto__" ∧ x ∈ keys copied))
      as [(H1 & H2 & H3)|Hno].
    + rewrite decide_True; [done|]. split_and!; [by right|done..].
    + destruct (assoc k copied) as [v|] eqn:E.
      * unfold assign. case_decide as Hp.
        -- rewrite decide_False; [done|].
           intros ([->|?]%elem_of_cons & ? & ?); [done|]. by apply Hno.
        -- rewrite assoc_setProp. destruct (decide (x = k)) as [->|Hne].
           ++ rewrite decide_True; [done|]. split_and!; [by left|done|].
              apply assoc_is_Some. by rewrite E.
           ++ rewrite decide_False; [done|].
              intros ([->|?]%elem_of_cons & ? & ?); [done|]. by apply Hno.
      * destruct (decide (x = k)) as [->|Hne].
        -- assert (Hk : k ∉ keys copied).
           { intros Hin%assoc_is_Some. rewrite E in Hin. by destruct Hin. }
           rewrite decide_False; [done|]. by intros (_ & _ & ?).
        -- rewrite decide_False; [done|].
           intros ([->|?]%elem_of_cons & ? & ?); [done|]. by apply Hno.
Qed.

End rebuild.

(** The sorted copy is in canonical form. *)
Lemma sortedCopy_canonical t : canonical (sortedCopy t).
Proof.
  induction t as [|b|n|s|items IH|props IH] using json_rect';
    try (by constructor).
  - simpl. constructor. induction IH; simpl; by constructor.
  - rewrite sortedCopy_object.
    set (copied := map (fun kv => (kv.1, sortedCopy kv.2)) props).
    constructor.
    + apply (rebuild_sorted copied).
      * apply StronglySorted_merge_sort; apply _.
      * by intros k' k ?%elem_of_nil.
      * constructor.
    + intros Hin%(rebuild_keys copied).
      destruct Hin as [?%elem_of_nil|(_ & _ & ?)]; done.
    + apply (rebuild_values copied canonical); [|constructor].
      unfold copied. clear copied. induction IH; simpl; by constructor.
Qed.

Lemma StronglySorted_keys_NoDup l :
  StronglySorted keyBefore l → NoDup l.
Proof.
  induction 1 as [|k l _ IH Hall]; constructor; [|done].
  intros Hin. rewrite Forall_forall in Hall.
  by apply (keyBefore_irrefl k), Hall.
Qed.

Lemma canonical_wellFormed c : canonical c → wellFormed c.
Proof.
  induction c as [|b|n|s|items IH|props IH] using json_rect';
    inversion 1 as [| | | |? Hall|? Hs Hp Hall]; subst; constructor.
  - rewrite Forall_forall in *. auto.
  - by apply StronglySorted_keys_NoDup.
  - rewrite Forall_forall in *. auto.
Qed.

(** Two property lists in canonical order that answer every read alike
    are the same list. *)
Lemma canonical_props_unique {A} (l1 l2 : list (string * A)) :
  StronglySorted keyBefore (keys l1) → StronglySorted keyBefore (keys l2) →
  (∀ k, assoc k l1 = assoc k l2) → l1 = l2.
Proof.
  intros H1 H2 Hlook.
  assert (Hkeys : keys l1 = keys l2).
  { apply (StronglySorted_unique_strong keyBefore); [|done..|].
    - intros x y _ _ Hxy Hyx.
      destruct (keyBefore_irrefl x). by eapply keyBefore_trans.
    - apply NoDup_Permutation; [by apply StronglySorted_keys_NoDup..|].
      intros k. by rewrite <- !assoc_is_Some, Hlook. }
  apply StronglySorted_keys_NoDup in H1. clear H2.
  revert l2 Hlook Hkeys. unfold keys in *.
  induction l1 as [|[k v] l1 IH]; intros [|[k' v'] l2] Hlook; csimpl;
    try done.
  intros [= <- Hkeys]. apply NoDup_cons in H1 as [Hk H1].
  pose proof (Hlook k) as Hv. simpl in Hv. rewrite !decide_True in Hv by done.
  injection Hv as <-. f_equal. apply IH; [done| |done].
  intros x. specialize (Hlook x). simpl in Hlook.
  destruct (decide (x = k)) as [->|]; [|done].
  assert (Hn1 : assoc k l1 = None).
  { apply eq_None_not_Some. by intros ?%assoc_is_Some. }
  assert (Hn2 : assoc k l2 = None).
  { apply eq_None_not_Some. intros ?%assoc_is_Some.
    unfold keys in *. by rewrite <- Hkeys in *. }
  by rewrite Hn1, Hn2.
Qed.

(** A tree in canonical form is its own sorted copy. *)
Lemma sortedCopy_fixed c : canonical c → sortedCopy c = c.
Proof.
  induction c as [|b|n|s|items IH|props IH] using json_rect';
    intros Hc; inversion Hc as [| | | |? Hall|? Hs Hp Hall]; subst; clear Hc;
    try done.
  - simpl. f_equal. induction IH as [|x items Hx _ IHitems]; [done|].
    apply Forall_cons in Hall as [? ?]. simpl.
    rewrite Hx by done. f_equal. by apply IHitems.
  - rewrite sortedCopy_object. f_equal.
    set (copied := map (fun kv => (kv.1, sortedCopy kv.2)) props).
    assert (Hcopied : ∀ k, assoc k copied = assoc k props).
    { intros k. unfold copied. rewrite assoc_fmap.
      destruct (assoc k props) as [v|] eqn:E; [simpl|done].
      apply assoc_Some_elem in E. rewrite Forall_forall in *.
      f_equal. apply (IH _ E). by apply (Hall _ E). }
    apply canonical_props_unique; [|done|].
    + apply (rebuild_sorted copied).
      * apply StronglySorted_merge_sort; apply _.
      * by intros k' k ?%elem_of_nil.
      * constructor.
    + intros k. change (copyStep props) with
        (fun out k => match assoc k copied with
                      | Some v => assign k v out
                      | None => out
                      end).
      rewrite (rebuild_lookup copied), Hcopied. simpl.
      case_decide as Hk; [done|]. symmetry. apply eq_None_not_Some.
      intros Hsome. pose proof Hsome as Hin%assoc_is_Some. apply Hk.
      split_and!.
      * by apply sortStrings_elem.
      * by intros ->.
      * apply assoc_is_Some. by rewrite Hcopied.
Qed.

Lemma keys_values {A B} (f : A → B) (l : list (string * A)) :
  keys (map (fun kv => (kv.1, f kv.2)) l) = keys l.
Proof.
  unfold keys. induction l as [|[k v] l IH]; [done|]. csimpl. by rewrite IH.
Qed.

Lemma keys_filter_name {A} (p : string) (l : list (string * A)) :
  keys (filter (fun kv => kv.1 ≠ p) l) = filter (fun k => k ≠ p) (keys l).
Proof.
  unfold keys. induction l as [|[k v] l IH]; [done|]. csimpl.
  rewrite !filter_cons. simpl. case_decide; csimpl; by rewrite IH.
Qed.

Lemma assoc_filter_name {A} (p k : string) (l : list (string * A)) :
  assoc k (filter (fun kv => kv.1 ≠ p) l)
  = if decide (k = p) then None else assoc k l.
Proof.
  induction l as [|[k' v] l IH]; [by destruct (decide (k = p))|].
  rewrite filter_cons. cbn [fst]. destruct (decide (k' ≠ p)) as [Hp|Hp].
  - cbn [assoc].
    destruct (decide (k = k')) as [->|]; [by rewrite decide_False|done].
  - apply dec_stable in Hp as ->. rewrite IH. cbn [assoc].
    destruct (decide (k = p)) as [->|]; done.
Qed.

(** The sorted copy has the content of the tree, the properties named
    [__proto__] left out. *)
Lemma sortedCopy_content t :
  wellFormed t → sameContent (withoutProto t) (sortedCopy t).
Proof.
  induction t as [|b|n|s|items IH|props IH] using json_rect';
    intros Hw; inversion Hw as [| | | |? Hall|? Hnd Hall]; subst; clear Hw;
    try (by constructor).
  - simpl. constructor. induction IH as [|x items Hx _ IHitems]; simpl;
      [constructor|].
    apply Forall_cons in Hall as [? ?]. constructor; auto.
  - pose proof (sortedCopy_canonical (JObj props)) as Hc.
    rewrite sortedCopy_object in *. cbn [withoutProto].
    inversion Hc as [| | | | |? Hs Hp Hvals]; subst.
    constructor.
    + rewrite keys_filter_name, keys_values. by apply NoDup_filter.
    + by apply StronglySorted_keys_NoDup.
    + intros k. rewrite assoc_filter_name, assoc_fmap.
      set (copied := map (fun kv => (kv.1, sortedCopy kv.2)) props).
      change (copyStep props) with
        (fun out k => match assoc k copied with
                      | Some v => assign k v out
                      | None => out
                      end).
      rewrite (rebuild_lookup copied). unfold copied. rewrite assoc_fmap.
      simpl. destruct (decide (k = "__proto__")) as [->|Hne].
      * rewrite decide_False; [constructor|]. by intros (_ & ? & _).
      * destruct (assoc k props) as [v|] eqn:E; simpl.
        -- pose proof E as Hin%assoc_Some_elem.
           rewrite decide_True.
           ++ constructor. rewrite Forall_forall in *.
              apply (IH _ Hin). by apply (Hall _ Hin).
           ++ assert (Hk : k ∈ keys props).
              { apply assoc_is_Some. by rewrite E. }
              split_and!; [by apply sortStrings_elem|done|].
              by rewrite keys_values.
        -- case_decide; constructor.
Qed.

(** X12: the text that [stableJsonStringify] gives for a parsed tree is
    the text of a tree in canonical form: in every object the names that
    are array indices come first, in ascending numeric order, and the
    other names follow in ascending order of code units; no object has a
    property named [__proto__]; and the content is that of the tree given,
    its properties named [__proto__] left out. *)
Theorem stableJsonStringify_canonical (t : json) :
  wellFormed t →
  ∃ c, stableJsonStringifyTree t = done (Json.stringify c)
       ∧ canonical c ∧ sameContent (withoutProto t) c.
Proof.
  intros Hwf. exists (sortedCopy t). split_and!.
  - by apply stableJsonStringifyTree_sorted.
  - apply sortedCopy_canonical.
  - by apply sortedCopy_content.
Qed.

Lemma stableJsonStringify_canonical_witness :
  let t := JObj [("b", JNum (NumInt 1)); ("10", JNull); ("9", JBool true);
                 ("__proto__", JStr "x"); ("a", JArr [])] in
  wellFormed t
  ∧ propNames (sortedCopy t) = ["9"; "10"; "a"; "b"]
  ∧ ∃ c, stableJsonStringifyTree t = done (Json.stringify c)
         ∧ canonical c ∧ sameContent (withoutProto t) c.
Proof.
  intros t.
  assert (Hwf : wellFormed t).
  { constructor; [by apply (bool_decide_unpack _)|].
    repeat (apply Forall_cons; split); try apply Forall_nil; simpl;
      repeat constructor. }
  split; [exact Hwf|]. split; [reflexivity|].
  exact (stableJsonStringify_canonical t Hwf).
Defined.

(** X13: a tree already in canonical form is serialized as it stands:
    the sorted copy that [sorter] builds of it is the tree itself. *)
Theorem stableJsonStringify_canonical_fixed (c : json) :
  canonical c →
  stableJsonStringifyTree c = done (Json.stringify c).
Proof.
  intros Hc.
  rewrite stableJsonStringifyTree_sorted by by apply canonical_wellFormed.
  by rewrite sortedCopy_fixed.
Qed.

Lemma stableJsonStringify_canonical_fixed_witness :
  let c := JObj [("9", JBool true); ("10", JNull);
                 ("a", JArr [JObj [("x", JNull); ("y", JNull)]]);
                 ("b", JNum (NumInt 1))] in
  canonical c ∧ stableJsonStringifyTree c = done (Json.stringify c).
Proof.
  intros c.
  assert (Hin : canonical (JObj [("x", JNull); ("y", JNull)])).
  { constructor.
    - repeat constructor; by vm_compute.
    - by apply (bool_decide_unpack _).
    - repeat constructor. }
  assert (Hc : canonical c).
  { constructor.
    - repeat constructor; by vm_compute.
    - by apply (bool_decide_unpack _).
    - repeat (apply Forall_cons; split); try apply Forall_nil; simpl;
        try (by constructor).
      constructor. by constructor. }
  split; [exact Hc|]. exact (stableJsonStringify_canonical_fixed c Hc).
Defined.

(** ** When the serializer answers *)

Section loops_entered.

Context (srt : gset addr → value → fueled (json * gset addr)).
Context (ent : value → option (list addr)).
Hypothesis srt_entered :
  ∀ seen v j seen',
    srt seen v = done (j, seen') →
    ∃ l, ent v = Some l ∧ NoDup l ∧ (∀ a, a ∈ l → a ∉ seen)
         ∧ seen' = list_to_set l ∪ seen.

Lemma mapSorter_entered items :
  ∀ seen js seen',
    mapSorter srt seen items = done (js, seen') →
    ∃ ls, mapM ent items = Some ls ∧ NoDup (concat ls)
          ∧ (∀ a, a ∈ concat ls → a ∉ seen)
          ∧ seen' = list_to_set (concat ls) ∪ seen.
Proof.
  induction items as [|x items IH]; intros seen js seen'; simpl.
  - intros [= _ <-]. exists []. split_and!; [done|constructor| |set_solver].
    by intros a ?%elem_of_nil.
  - destruct (srt seen x) as [[e|[j s1]]|] eqn:E; simpl; try done.
    destruct (mapSorter srt s1 items) as [[e|[js' s2]]|] eqn:E2; simpl;
      try done.
    intros [= _ <-].
    apply srt_entered in E as (l & -> & Hnd & Hfresh & ->).
    apply IH in E2 as (ls & -> & Hnds & Hfreshs & ->).
    exists (l :: ls). simpl. split_and!; [done| | |set_solver].
    + apply NoDup_app. split_and!; [done| |done].
      intros a Ha Has. apply Hfreshs in Has. set_solver.
    + intros a [Ha|Ha]%elem_of_app; [by apply Hfresh|].
      apply Hfreshs in Ha. set_solver.
Qed.

Lemma sortProps_entered (props : list (string * value)) ks :
  ∀ seen out out' seen',
    sortProps srt props seen ks out = done (out', seen') →
    ∃ ls, mapM ent (omap (fun k => assoc k props) ks) = Some ls
          ∧ NoDup (concat ls)
          ∧ (∀ a, a ∈ concat ls → a ∉ seen)
          ∧ seen' = list_to_set (concat ls) ∪ seen.
Proof.
  induction ks as [|k ks IH]; intros seen out out' seen'; csimpl.
  - intros [= _ <-]. exists []. split_and!; [done|constructor| |set_solver].
    by intros a ?%elem_of_nil.
  - destruct (assoc k props) as [v|] eqn:Ev; [|apply IH].
    destruct (srt seen v) as [[e|[j s1]]|] eqn:E; csimpl; try done.
    intros E2.
    apply srt_entered in E as (l & Hl & Hnd & Hfresh & ->).
    apply IH in E2 as (ls & Hls & Hnds & Hfreshs & ->).
    assert (Hall : mapM ent (v :: omap (fun k => assoc k props) ks)
                   = Some (l :: ls)).
    { apply mapM_Some_2. constructor; [done|by apply mapM_Some_1]. }
    exists (l :: ls).
    split_and!; [exact Hall|csimpl..|csimpl; set_solver].
    + apply NoDup_app. split_and!; [done| |done].
      intros a Ha Has. apply Hfreshs in Has. set_solver.
    + intros a [Ha|Ha]%elem_of_app; [by apply Hfresh|].
      apply Hfreshs in Ha. set_solver.
Qed.

End loops_entered.

(** When [sorter] returns, it has entered every object once, none of
    them seen before, and has now seen them all. *)
Lemma sorter_entered h fuel :
  ∀ seen v j seen',
    sorter fuel h seen v = done (j, seen') →
    ∃ l, entered fuel h v = Some l ∧ NoDup l ∧ (∀ a, a ∈ l → a ∉ seen)
         ∧ seen' = list_to_set l ∪ seen.
Proof.
  induction fuel as [|fuel IH]; intros seen v j seen'; simpl; [done|].
  destruct v as [|b|n|s|a];
    try (intros [= _ <-]; exists []; split_and!;
         [done|constructor|by intros a ?%elem_of_nil|set_solver]).
  case_decide as Hseen; [done|].
  destruct (h !! a) as [[items|props]|] eqn:Ha; [| |done].
  - destruct (mapSorter _ _ _) as [[e|[js s1]]|] eqn:E; simpl; try done.
    intros [= _ <-].
    apply (mapSorter_entered _ (entered fuel h) IH) in E
      as (ls & -> & Hnd & Hfresh & ->).
    exists (a :: concat ls). split_and!; [done| | |set_solver].
    + apply NoDup_cons. split; [|done].
      intros Hin%Hfresh. set_solver.
    + intros x [->|Hx%Hfresh]%elem_of_cons; [done|]. set_solver.
  - destruct (sortProps _ _ _ _ _) as [[e|[out s1]]|] eqn:E; simpl; try done.
    intros [= _ <-].
    apply (sortProps_entered _ (entered fuel h) IH) in E
      as (ls & -> & Hnd & Hfresh & ->).
    exists (a :: concat ls). split_and!; [done| | |set_solver].
    + apply NoDup_cons. split; [|done].
      intros Hin%Hfresh. set_solver.
    + intros x [->|Hx%Hfresh]%elem_of_cons; [done|]. set_solver.
Qed.

Lemma seen_nil (seen : gset addr) : list_to_set (concat []) ∪ seen = seen.
Proof. set_solver. Qed.

Lemma seen_none (seen : gset addr) : list_to_set [] ∪ seen = seen.
Proof. set_solver. Qed.

Lemma seen_app (l l' : list addr) (seen : gset addr) :
  list_to_set l' ∪ (list_to_set l ∪ seen) = list_to_set (l ++ l') ∪ seen.
Proof. set_solver. Qed.

Lemma seen_cons (a : addr) (l : list addr) (seen : gset addr) :
  list_to_set l ∪ ({[a]} ∪ seen) = list_to_set (a :: l) ∪ seen.
Proof. set_solver. Qed.

Section loops_shaped.

Context (h : heap) (fuel : nat).
Context (srt : gset addr → value → fueled (json * gset addr)).
Context (ent : value → option (list addr)).
Hypothesis entered_srt :
  ∀ seen v l,
    ent v = Some l → NoDup l → (∀ a, a ∈ l → a ∉ seen) →
    unseen h seen < fuel →
    ∃ j, srt seen v = done (j, list_to_set l ∪ seen).

Lemma mapSorter_shaped items :
  ∀ seen ls,
    mapM ent items = Some ls → NoDup (concat ls) →
    (∀ a, a ∈ concat ls → a ∉ seen) → unseen h seen < fuel →
    ∃ js, mapSorter srt seen items
          = done (js, list_to_set (concat ls) ∪ seen).
Proof.
  induction items as [|x items IH]; intros seen ls; simpl.
  - intros [= <-] _ _ _. exists []. by rewrite seen_nil.
  - destruct (ent x) as [l|] eqn:El; simpl; [|done].
    destruct (mapM ent items) as [ls'|] eqn:Els; simpl; [|done].
    intros [= <-]. simpl.
    intros (Hnd & Hapart & Hnds)%NoDup_app Hfresh Hfuel.
    destruct (entered_srt seen x l El Hnd) as [j ->]; [|done|].
    { intros a Ha. apply Hfresh, elem_of_app. by left. }
    simpl.
    destruct (IH (list_to_set l ∪ seen) ls' eq_refl Hnds) as [js ->].
    { intros a Ha. apply not_elem_of_union. split.
      - rewrite elem_of_list_to_set. intros Hl. by apply (Hapart a).
      - apply Hfresh, elem_of_app. by right. }
    { eapply Nat.le_lt_trans; [apply unseen_mono|exact Hfuel].
      apply union_subseteq_r. }
    simpl. eexists. by rewrite seen_app.
Qed.

Lemma sortProps_shaped (props : list (string * value)) ks :
  ∀ seen out ls,
    mapM ent (omap (fun k => assoc k props) ks) = Some ls →
    NoDup (concat ls) →
    (∀ a, a ∈ concat ls → a ∉ seen) → unseen h seen < fuel →
    ∃ out', sortProps srt props seen ks out
            = done (out', list_to_set (concat ls) ∪ seen).
Proof.
  induction ks as [|k ks IH]; intros seen out ls; csimpl.
  - intros [= <-] _ _ _. exists out. by rewrite seen_nil.
  - destruct (assoc k props) as [v|] eqn:Ev; [|apply IH]. csimpl.
    destruct (ent v) as [l|] eqn:El; csimpl; [|done].
    destruct (mapM ent _) as [ls'|] eqn:Els; csimpl; [|done].
    intros [= <-]. csimpl.
    intros (Hnd & Hapart & Hnds)%NoDup_app Hfresh Hfuel.
    destruct (entered_srt seen v l El Hnd) as [j ->]; [|done|].
    { intros a Ha. apply Hfresh, elem_of_app. by left. }
    csimpl.
    destruct (IH (list_to_set l ∪ seen) (assign k j out) ls' eq_refl Hnds)
      as [out' ->].
    { intros a Ha. apply not_elem_of_union. split.
      - rewrite elem_of_list_to_set. intros Hl. by apply (Hapart a).
      - apply Hfresh, elem_of_app. by right. }
    { eapply Nat.le_lt_trans; [apply unseen_mono|exact Hfuel].
      apply union_subseteq_r. }
    eexists. by rewrite seen_app.
Qed.

End loops_shaped.

(** From a value shaped as a tree, none of its objects seen, [sorter]
    returns. *)
Lemma entered_sorter h fuel0 :
  ∀ fuel seen v l,
    entered fuel0 h v = Some l → NoDup l → (∀ a, a ∈ l → a ∉ seen) →
    unseen h seen < fuel →
    ∃ j, sorter fuel h seen v = done (j, list_to_set l ∪ seen).
Proof.
  induction fuel0 as [|fuel0 IH]; intros fuel seen v l; simpl; [done|].
  intros Hl Hnd Hfresh Hfuel.
  destruct fuel as [|fuel]; [lia|]. simpl.
  destruct v as [|b|n|s|a];
    try (injection Hl as <-; eexists; by rewrite (seen_none seen)).
  destruct (h !! a) as [o|] eqn:Ha; [|done].
  assert (Hin : a < length h) by (by eapply lookup_lt_Some).
  assert (Hl' : ∃ ls, l = a :: concat ls
                ∧ mapM (entered fuel0 h)
                    match o with
                    | OArr items => items
                    | OObj props =>
                        omap (fun k => assoc k props) (sortStrings (keys props))
                    end = Some ls).
  { destruct o as [items|props];
      destruct (mapM _ _) as [ls|]; try done; injection Hl as <-; by eexists. }
  clear Hl. destruct Hl' as (ls & -> & Hls).
  apply NoDup_cons in Hnd as [Hnew Hnd].
  rewrite decide_False by (apply Hfresh; by left).
  assert (Hfresh' : ∀ x, x ∈ concat ls → x ∉ ({[a]} ∪ seen : gset addr)).
  { intros x Hx. apply not_elem_of_union. split.
    - rewrite elem_of_singleton. by intros ->.
    - apply Hfresh. by right. }
  assert (Hfuel' : unseen h ({[a]} ∪ seen) < fuel).
  { assert (Ha' : a ∉ seen) by (apply Hfresh; by left).
    pose proof (unseen_add h seen a Hin Ha'). lia. }
  destruct o as [items|props].
  - destruct (mapSorter_shaped h fuel (sorter fuel h) (entered fuel0 h)
                (fun seen v l => IH fuel seen v l)
                items _ ls Hls Hnd Hfresh' Hfuel') as [js ->].
    simpl. eexists. by rewrite seen_cons.
  - destruct (sortProps_shaped h fuel (sorter fuel h) (entered fuel0 h)
                (fun seen v l => IH fuel seen v l)
                props _ _ [] ls Hls Hnd Hfresh' Hfuel') as [out ->].
    simpl. eexists. by rewrite seen_cons.
Qed.

(** X14: on every store, [stableJsonStringify] returns a text exactly
    for the values shaped as trees. When the walk from the value enters
    no object twice it returns; in every other case, an object reached
    along two ways as much as an object that contains itself, it refuses
    with CircularStructure: it never runs on without an answer. *)
Theorem stableJsonStringify_outcome (h : heap) (obj : value) :
  closedStore h → distinctNames h → inStore h obj →
  (treeShaped h obj → ∃ bytes, stableJsonStringify h obj = done bytes)
  ∧ (¬ treeShaped h obj
     → stableJsonStringify h obj = Some (throw CircularStructure)).
Proof.
  intros Hclosed Hnames Hobj. unfold stableJsonStringify. split.
  - intros (fuel0 & l & Hl & Hnd).
    destruct (entered_sorter h fuel0 (S (length h)) ∅ obj l Hl Hnd)
      as [j ->]; [|rewrite unseen_empty; lia|by eexists].
    intros a _. apply not_elem_of_empty.
  - intros Hno.
    pose proof (sorter_well h Hclosed Hnames (S (length h)) ∅ obj Hobj) as Hw.
    rewrite unseen_empty in Hw. specialize (Hw (Nat.lt_succ_diag_r _)).
    destruct (sorter _ _ _ _) as [[e|[j s]]|] eqn:E; simpl in Hw |- *;
      [by rewrite Hw| |done].
    destruct Hno.
    apply sorter_entered in E as (l & Hl & Hnd & _).
    by exists (S (length h)), l.
Qed.

Lemma stableJsonStringify_outcome_witness :
  let h := [OObj []; OArr [VRef 0; VRef 0]; OArr [VRef 0]] in
  (closedStore h ∧ distinctNames h ∧ inStore h (VRef 1) ∧ inStore h (VRef 2))
  ∧ (∃ bytes, stableJsonStringify h (VRef 2) = done bytes)
  ∧ stableJsonStringify h (VRef 1) = Some (throw CircularStructure).
Proof.
  intros h.
  assert (Hclosed : closedStore h).
  { intros [|[|[|a]]] o; simpl; intros [= <-]; repeat constructor;
      simpl; lia. }
  assert (Hnames : distinctNames h).
  { intros [|[|[|a]]] props; simpl; intros [= <-]. constructor. }
  assert (H1 : inStore h (VRef 1)) by (simpl; lia).
  assert (H2 : inStore h (VRef 2)) by (simpl; lia).
  split; [done|]. split.
  - apply (proj1 (stableJsonStringify_outcome h (VRef 2) Hclosed Hnames H2)).
    exists 2, [2; 0]. split; [reflexivity|].
    by apply (bool_decide_unpack _).
  - apply (proj2 (stableJsonStringify_outcome h (VRef 1) Hclosed Hnames H1)).
    intros (fuel & l & Hl & Hnd).
    destruct fuel as [|[|fuel]]; [done..|].
    injection Hl as <-.
    apply NoDup_cons in Hnd as [_ Hnd]. apply NoDup_cons in Hnd as [Hnd _].
    apply Hnd. by left.
Defined.

(** ** The text of a value of the store *)

Section loops_content.

Context (h : heap).
Context (srt : gset addr → value → fueled (json * gset addr)).
Hypothesis srt_content :
  ∀ seen v j seen', srt seen v = done (j, seen') → ∃ t, unfolds h v t.

Lemma mapSorter_content items :
  ∀ seen js seen',
    mapSorter srt seen items = done (js, seen') →
    ∃ ts, Forall2 (unfolds h) items ts.
Proof.
  induction items as [|x items IH]; intros seen js seen'; simpl.
  - intros _. exists []. constructor.
  - destruct (srt seen x) as [[e|[j s1]]|] eqn:E; simpl; try done.
    destruct (mapSorter srt s1 items) as [[e|[js' s2]]|] eqn:E2; simpl;
      try done.
    intros _. apply srt_content in E as [t Ht]. apply IH in E2 as [ts Hts].
    exists (t :: ts). by constructor.
Qed.

Lemma sortProps_content (props : list (string * value)) ks :
  ∀ seen out out' seen',
    sortProps srt props seen ks out = done (out', seen') →
    ∀ k v, k ∈ ks → assoc k props = Some v → ∃ t, unfolds h v t.
Proof.
  induction ks as [|k0 ks IH]; intros seen out out' seen'; simpl.
  - by intros _ k v ?%elem_of_nil.
  - destruct (assoc k0 props) as [v0|] eqn:Ev.
    + destruct (srt seen v0) as [[e|[j s1]]|] eqn:E; simpl; try done.
      intros E2 k v [->|Hk]%elem_of_cons Hv.
      * rewrite Ev in Hv. injection Hv as <-. by eapply srt_content.
      * by eapply IH.
    + intros E2 k v [->|Hk]%elem_of_cons Hv; [by rewrite Ev in Hv|].
      by eapply IH.
Qed.

End loops_content.

Lemma unfolds_each h (props : list (string * value)) :
  (∀ k v, (k, v) ∈ props → ∃ t, unfolds h v t) →
  ∃ tprops,
    Forall2 (fun kv kt => kv.1 = kt.1 ∧ unfolds h kv.2 kt.2) props tprops.
Proof.
  induction props as [|[k v] props IH]; intros Hall.
  - exists []. constructor.
  - destruct (Hall k v) as [t Ht]; [by left|].
    destruct IH as [tprops Htprops].
    { intros k' v' Hin. apply (Hall k' v'). by right. }
    exists ((k, t) :: tprops). by constructor.
Qed.

(** When [sorter] returns, the value it was given has a content. *)
Lemma sorter_content h :
  distinctNames h →
  ∀ fuel seen v j seen',
    sorter fuel h seen v = done (j, seen') → ∃ t, unfolds h v t.
Proof.
  intros Hnames.
  induction fuel as [|fuel IH]; intros seen v j seen'; simpl; [done|].
  destruct v as [|b|n|s|a]; try (intros _; eexists; by constructor).
  case_decide as Hseen; [done|].
  destruct (h !! a) as [[items|props]|] eqn:Ha; [| |done].
  - destruct (mapSorter _ _ _) as [[e|[js s1]]|] eqn:E; simpl; try done.
    intros _. apply (mapSorter_content h _ IH) in E as [ts Hts].
    exists (JArr ts). by eapply unfolds_arr.
  - destruct (sortProps _ _ _ _ _) as [[e|[out s1]]|] eqn:E; simpl; try done.
    intros _. pose proof (sortProps_content h _ IH _ _ _ _ _ _ E) as Hall.
    destruct (unfolds_each h props) as [tprops Htprops].
    { intros k v Hin. apply (Hall k v).
      - apply sortStrings_elem, list_elem_of_fmap. by exists (k, v).
      - apply assoc_elem_NoDup; [by eapply Hnames|done]. }
    exists (JObj tprops). by eapply unfolds_obj.
Qed.

Lemma unfolds_wellFormed h :
  distinctNames h → ∀ t v, unfolds h v t → wellFormed t.
Proof.
  intros Hnames.
  induction t as [|b|n|s|ts IH|tprops IH] using json_rect'; intros v Hun;
    inversion Hun as [| | | |a items ? Ha Hall|a props ? Ha Hall]; subst;
    constructor.
  - clear Hun Ha. induction Hall as [|x t items ts Hxt _ IHall];
      [constructor|].
    apply Forall_cons in IH as [IHt IHts]. constructor; [by eapply IHt|].
    by apply IHall.
  - rewrite <- (keys_Forall2 _ _ _ Hall). by eapply Hnames.
  - clear Hun Ha. induction Hall as [|x t props tprops [Hk Hxt] _ IHall];
      [constructor|].
    apply Forall_cons in IH as [IHt IHts]. constructor; [by eapply IHt|].
    by apply IHall.
Qed.

(** X15: whatever the store, a text that [stableJsonStringify] returns
    is the canonical text of the content of the value: the value unfolds
    to a tree with distinct property names in every object, and the text
    is the one of the sorted copy of that tree. *)
Theorem stableJsonStringify_text (h : heap) (obj : value) (bytes : string) :
  distinctNames h →
  stableJsonStringify h obj = done bytes →
  ∃ t, unfolds h obj t ∧ wellFormed t
       ∧ bytes = Json.stringify (sortedCopy t)
       ∧ stableJsonStringifyTree t = done bytes.
Proof.
  intros Hnames Hrun.
  assert (Ht : ∃ t, unfolds h obj t).
  { unfold stableJsonStringify in Hrun.
    destruct (sorter _ _ _ _) as [[e|[j s]]|] eqn:E; simpl in Hrun; try done.
    by eapply sorter_content. }
  destruct Ht as [t Ht]. exists t.
  assert (Hwf : wellFormed t) by (by eapply unfolds_wellFormed).
  assert (Hb : bytes = Json.stringify (sortedCopy t))
    by (by eapply stableJsonStringify_unfolds).
  split_and!; [done..|].
  rewrite Hb. by apply stableJsonStringifyTree_sorted.
Qed.

Lemma stableJsonStringify_text_witness :
  let h := [OObj [("b", VNum (NumInt 2)); ("a", VNull)]; OArr [VRef 0]] in
  let bytes := Json.stringify (JArr [JObj [("a", JNull); ("b", JNum (NumInt 2))]]) in
  distinctNames h
  ∧ stableJsonStringify h (VRef 1) = done bytes
  ∧ ∃ t, unfolds h (VRef 1) t ∧ wellFormed t
         ∧ bytes = Json.stringify (sortedCopy t)
         ∧ stableJsonStringifyTree t = done bytes.
Proof.
  intros h bytes.
  assert (Hnames : distinctNames h).
  { intros [|[|a]] props; simpl; intros [= <-].
    by apply (bool_decide_unpack _). }
  assert (Hrun : stableJsonStringify h (VRef 1) = done bytes)
    by (by vm_compute).
  split; [exact Hnames|]. split; [exact Hrun|].
  exact (stableJsonStringify_text h (VRef 1) bytes Hnames Hrun).
Defined.

(** ** The outputs are well formed *)

Lemma to_uint_digits n : Nat.to_uint n ≠ Decimal.Nil.
Proof.
  pose proof (DecimalNat.Unsigned.to_of (Nat.to_uint n)) as H.
  rewrite DecimalNat.Unsigned.of_to in H. rewrite H.
  apply DecimalFacts.unorm_nonnil.
Qed.

Lemma indexKey_inj i j : indexKey i = indexKey j → i = j.
Proof.
  unfold indexKey. intros H. apply DecimalNat.Unsigned.to_uint_inj.
  apply (f_equal NilZero.uint_of_string) in H.
  rewrite !NilZero.usu in H by apply to_uint_digits.
  by injection H.
Qed.

Lemma keys_indexed {A B} (f : A → B) (l : list A) :
  keys (imap (fun i v => (indexKey i, f v)) l) = indexKey <$> seq 0 (length l).
Proof.
  unfold keys. rewrite fmap_imap. apply (imap_seq_0 l indexKey).
Qed.

Lemma indexed_NoDup {A B} (f : A → B) (l : list A) :
  NoDup (keys (imap (fun i v => (indexKey i, f v)) l)).
Proof.
  rewrite keys_indexed. apply NoDup_fmap_2; [|apply NoDup_seq].
  intros i j. apply indexKey_inj.
Qed.

Lemma spread_wellFormed e :
  wellFormed e →
  NoDup (keys (spread e)) ∧ Forall (fun kv => wellFormed kv.2) (spread e).
Proof.
  intros Hwf. destruct e as [|b|n|s|items|props]; simpl;
    try (split; constructor).
  - split; [apply (indexed_NoDup (fun c => JStr (String c EmptyString)))|].
    apply Forall_forall. intros x (i & c & -> & _)%elem_of_lookup_imap.
    constructor.
  - inversion Hwf as [| | | |? Hall|]; subst.
    split; [apply (indexed_NoDup id)|].
    apply Forall_forall. intros x (i & v & -> & Hv)%elem_of_lookup_imap.
    rewrite Forall_forall in Hall. apply Hall.
    by eapply list_elem_of_lookup_2.
  - by inversion Hwf.
Qed.

Lemma keys_createIndex {A} n k (v : A) l :
  keys (createIndex n k v l) ≡ₚ k :: keys l.
Proof.
  unfold keys. induction l as [|[k' v'] l IH]; simpl; [done|].
  destruct (arrayIndex k') as [n'|]; [destruct (decide (n' < n)%N)|];
    csimpl; try done.
  rewrite IH. apply Permutation_swap.
Qed.

Lemma setProp_NoDup {A} k (v : A) l :
  NoDup (keys l) → NoDup (keys (setProp k v l)).
Proof.
  intros Hnd. unfold setProp. destruct (assoc k l) eqn:E.
  - by rewrite keys_overwrite.
  - assert (Hnew : k ∉ keys l).
    { intros Hin%assoc_is_Some. rewrite E in Hin. by destruct Hin. }
    destruct (arrayIndex k).
    + rewrite keys_createIndex. by constructor.
    + unfold keys in *. rewrite fmap_app. csimpl.
      apply NoDup_app. split_and!; [done| |apply NoDup_singleton].
      by intros x Hx ->%list_elem_of_singleton.
Qed.

Lemma setProp_wellFormed k v l :
  wellFormed v → wellFormed (JObj l) → wellFormed (JObj (setProp k v l)).
Proof.
  intros Hv Hl. inversion Hl as [| | | | |? Hnd Hall]; subst.
  constructor; [by apply setProp_NoDup|].
  apply Forall_forall. intros x [->|Hx]%elem_of_setProp; [done|].
  rewrite Forall_forall in Hall. by apply Hall.
Qed.

Lemma getOpt_wellFormed e k v :
  wellFormed e → getOpt e k = Some v → wellFormed v.
Proof.
  intros Hwf. destruct e as [| | | | |props]; try done. simpl.
  intros Hin%assoc_Some_elem. inversion Hwf as [| | | | |? Hnd Hall]; subst.
  rewrite Forall_forall in Hall. by apply (Hall _ Hin).
Qed.

Lemma nullish_wellFormed e k d :
  wellFormed e → wellFormed d → wellFormed (nullish (getOpt e k) d).
Proof.
  intros He Hd. destruct (getOpt e k) as [v|] eqn:E; [|done].
  apply (getOpt_wellFormed _ _ _ He) in E. by destruct v.
Qed.

Lemma normalizeEntry_wellFormed tag e r :
  wellFormed e → normalizeEntry tag e = ok r → wellFormed r.
Proof.
  intros He Hr.
  assert (Hn : e ≠ JNull) by (intros ->; by rewrite normalizeEntry_null in Hr).
  rewrite (normalizeEntry_not_null tag e Hn) in Hr. injection Hr as <-.
  destruct (spread_wellFormed e He) as [Hnd Hall].
  apply setProp_wellFormed; [constructor|].
  apply setProp_wellFormed; [apply nullish_wellFormed; [done|constructor]|].
  by constructor.
Qed.

Lemma toLiteAmiibo_wellFormed e l :
  wellFormed e → toLiteAmiibo e = ok l → wellFormed l.
Proof.
  intros He. unfold toLiteAmiibo, normalizeImagePath.
  destruct e; simpl; try done; intros [= <-];
    (constructor; [by apply (bool_decide_unpack _)|]);
    repeat (apply Forall_cons; split); try apply Forall_nil; simpl;
    try apply (nullish_wellFormed _ _ _ He); constructor.
Qed.

Lemma toLiteSkylander_wellFormed e l :
  wellFormed e → toLiteSkylander e = ok l → wellFormed l.
Proof.
  intros He. unfold toLiteSkylander, normalizeImagePath.
  destruct e; simpl; try done; intros [= <-];
    (constructor; [by apply (bool_decide_unpack _)|]);
    repeat (apply Forall_cons; split); try apply Forall_nil; simpl;
    repeat apply (nullish_wellFormed _ _ _ He); constructor.
Qed.

Lemma mapResult_Forall {A B} (f : A → result B) (P : A → Prop) (Q : B → Prop)
    l ys :
  (∀ x y, P x → f x = ok y → Q y) →
  Forall P l → mapResult f l = ok ys → Forall Q ys.
Proof.
  intros Hf Hl. revert ys. induction Hl as [|x l Hx _ IH]; intros ys; simpl.
  - by intros [= <-].
  - destruct (f x) as [e|y] eqn:E; simpl; [done|].
    destruct (mapResult f l) as [e|ys']; simpl; [done|].
    intros [= <-]. constructor; [by eapply Hf|by apply IH].
Qed.

Lemma outputs_wellFormed amiibo sky full lite :
  Forall wellFormed amiibo → Forall wellFormed sky →
  fullOut amiibo sky = ok full → liteOut amiibo sky = ok lite →
  wellFormed full ∧ wellFormed lite.
Proof.
  intros Ha Hs. unfold fullOut, liteOut, normalizedAmiibo, normalizedSkylanders.
  destruct (mapResult _ amiibo) as [?|na] eqn:Ena; simpl; [done|].
  destruct (mapResult _ sky) as [?|ns] eqn:Ens; simpl; [done|].
  intros [= <-].
  destruct (mapResult toLiteAmiibo na) as [?|la] eqn:Ela; simpl; [done|].
  destruct (mapResult toLiteSkylander ns) as [?|ls] eqn:Els; simpl; [done|].
  intros [= <-].
  assert (Hna : Forall wellFormed na).
  { eapply mapResult_Forall; [|exact Ha|exact Ena].
    intros x y. apply normalizeEntry_wellFormed. }
  assert (Hns : Forall wellFormed ns).
  { eapply mapResult_Forall; [|exact Hs|exact Ens].
    intros x y. apply normalizeEntry_wellFormed. }
  assert (Hla : Forall wellFormed la).
  { eapply mapResult_Forall; [|exact Hna|exact Ela].
    intros x y. apply toLiteAmiibo_wellFormed. }
  assert (Hls : Forall wellFormed ls).
  { eapply mapResult_Forall; [|exact Hns|exact Els].
    intros x y. apply toLiteSkylander_wellFormed. }
  split; (constructor; [by apply (bool_decide_unpack _)|]);
    repeat (apply Forall_cons; split); try apply Forall_nil; simpl;
    by constructor.
Qed.

Lemma parseBaseNamespace_wellFormed parsed keyName entries :
  wellFormed parsed → parseBaseNamespace parsed keyName = ok entries →
  Forall wellFormed entries.
Proof.
  intros Hwf. unfold parseBaseNamespace.
  destruct parsed as [| | | |items|props]; simpl; try done.
  - intros [= <-]. by inversion Hwf.
  - destruct (assoc keyName props) as [[| | | |items|]|] eqn:E; try done.
    intros [= <-]. apply assoc_Some_elem in E.
    inversion Hwf as [| | | | |? Hnd Hall]; subst.
    rewrite Forall_forall in Hall. specialize (Hall _ E). by inversion Hall.
Qed.

Lemma classifyEntries_wellFormed parsed :
  ∀ amiibo sky acc,
    Forall wellFormed parsed → Forall wellFormed amiibo →
    Forall wellFormed sky →
    classifyEntries parsed amiibo sky = ok acc →
    Forall wellFormed acc.1 ∧ Forall wellFormed acc.2.
Proof.
  induction parsed as [|e rest IH]; intros amiibo sky acc Hp Ha Hs; simpl.
  - by intros [= <-].
  - apply Forall_cons in Hp as [He Hrest].
    destruct (classify e) as [?|[|]]; simpl; [done| |];
      apply IH; try done; apply Forall_app; split; try done; by constructor.
Qed.

Lemma loadPatchFiles_wellFormed read files :
  (∀ f v, read f = ok v → wellFormed v) →
  ∀ amiibo sky acc,
    Forall wellFormed amiibo → Forall wellFormed sky →
    loadPatchFiles read files amiibo sky = ok acc →
    Forall wellFormed acc.1 ∧ Forall wellFormed acc.2.
Proof.
  intros Hread. induction files as [|f files IH]; intros amiibo sky acc Ha Hs;
    simpl.
  - by intros [= <-].
  - destruct (read f) as [?|parsed] eqn:Ef; simpl; [done|].
    apply Hread in Ef. destruct parsed as [| | | |entries|]; try done.
    destruct (classifyEntries entries amiibo sky) as [?|acc'] eqn:Ec; simpl;
      [done|].
    apply classifyEntries_wellFormed in Ec as [? ?]; [|by inversion Ef|done..].
    by apply IH.
Qed.

(** ** Copying a directory *)

Lemma relative_app srcDir rel : relative srcDir (srcDir ++ rel) = rel.
Proof.
  induction srcDir as [|a srcDir IH]; simpl; [by destruct rel|].
  by rewrite decide_True.
Qed.

Lemma copyDirPreserve_calls srcDir dstDir items c :
  c ∈ copyDirPreserve srcDir dstDir (Some items)
  ↔ ∃ rel, rel ≠ [] ∧ locates (Dir items) rel File
      ∧ (c = Mkdir (dstDir ++ removelast rel)
         ∨ c = CopyFile (srcDir ++ rel) (dstDir ++ rel)).
Proof.
  unfold copyDirPreserve, listFilesRecursive.
  rewrite list_elem_of_bind. split.
  - intros (src & Hc & (rel & -> & Hrel)%listFilesUnder_locates).
    rewrite relative_app in Hc. exists rel.
    assert (Hne : rel ≠ []) by (intros ->; by inversion Hrel).
    do 2 (split; [done|]). unfold dirname in Hc.
    rewrite removelast_app in Hc by done. set_solver.
  - intros (rel & Hne & Hrel & Hc). exists (srcDir ++ rel). split.
    + rewrite relative_app. unfold dirname.
      rewrite removelast_app by done. set_solver.
    + apply listFilesUnder_locates. by exists rel.
Qed.

Lemma destinations_copyDirPreserve srcDir dstDir items :
  destinations (copyDirPreserve srcDir dstDir (Some items))
  = (fun src => dstDir ++ relative srcDir src)
    <$> listFilesRecursive srcDir items.
Proof.
  unfold copyDirPreserve, destinations.
  induction (listFilesRecursive srcDir items) as [|f files IH]; [done|].
  csimpl. by rewrite IH.
Qed.

(** X17: [copyDirPreserve] copies every regular file of the source tree,
    and nothing else, to the same relative path under the destination:
    the file at [srcDir/rel] goes to [dstDir/rel], and the call that
    copies it comes right after the recursive mkdir of the directory of
    [dstDir/rel]. When no directory holds two
    entries of one name, no two copies have the same destination. It
    makes no call outside the destination directory, and none at all for
    a source directory that does not exist. *)
Theorem copyDirPreserve_spec (srcDir dstDir : path)
    (items : list (string * fsnode)) :
  uniqueNames (Dir items) →
  (∀ src dst,
     CopyFile src dst ∈ copyDirPreserve srcDir dstDir (Some items)
     ↔ ∃ rel, rel ≠ [] ∧ locates (Dir items) rel File
         ∧ src = srcDir ++ rel ∧ dst = dstDir ++ rel)
  ∧ NoDup (destinations (copyDirPreserve srcDir dstDir (Some items)))
  ∧ (∀ src dst,
       CopyFile src dst ∈ copyDirPreserve srcDir dstDir (Some items) →
       ∃ before after,
         copyDirPreserve srcDir dstDir (Some items)
         = before ++ [Mkdir (dirname dst); CopyFile src dst] ++ after)
  ∧ (∀ dir, Mkdir dir ∈ copyDirPreserve srcDir dstDir (Some items) →
            dstDir `prefix_of` dir)
  ∧ copyDirPreserve srcDir dstDir None = [].
Proof.
  intros Hu. split_and!; [| | | |done].
  - intros src dst. rewrite copyDirPreserve_calls. split.
    + intros (rel & Hne & Hrel & [?|[= -> ->]]); [done|]. by exists rel.
    + intros (rel & Hne & Hrel & -> & ->). exists rel. auto.
  - rewrite destinations_copyDirPreserve.
    apply NoDup_fmap_2_strong; [|by apply listFilesUnder_NoDup].
    intros f1 f2 (r1 & -> & _)%listFilesUnder_locates
      (r2 & -> & _)%listFilesUnder_locates.
    rewrite !relative_app. by intros ->%app_inv_head.
  - intros src dst. unfold copyDirPreserve.
    intros (f & Hc & Hf)%list_elem_of_bind.
    apply elem_of_cons in Hc as [?|Hc]; [done|].
    apply list_elem_of_singleton in Hc. injection Hc as -> ->.
    apply list_elem_of_split in Hf as (l1 & l2 & ->).
    rewrite bind_app, bind_cons. by eexists _, _.
  - intros dir (rel & Hne & Hrel & [[= ->]|?])%copyDirPreserve_calls; [|done].
    by apply prefix_app_r.
Qed.

Lemma copyDirPreserve_spec_witness :
  let items := [("a.png", File); ("sky", Dir [("b.png", File)]);
                ("link", Other)] in
  let src := [""; "repo"; "resources"; "images"] in
  let dst := [""; "repo"; "dist"; "images"] in
  uniqueNames (Dir items)
  ∧ copyDirPreserve src dst (Some items)
    = [Mkdir dst; CopyFile (src ++ ["a.png"]) (dst ++ ["a.png"]);
       Mkdir (dst ++ ["sky"]);
       CopyFile (src ++ ["sky"; "b.png"]) (dst ++ ["sky"; "b.png"])]
  ∧ NoDup (destinations (copyDirPreserve src dst (Some items))).
Proof.
  intros items src dst.
  assert (Hu : uniqueNames (Dir items)).
  { assert (Hs : uniqueNames (Dir [("b.png", File)])).
    { constructor; [by apply (bool_decide_unpack _)|repeat constructor]. }
    unfold items. constructor; [by apply (bool_decide_unpack _)|].
    rewrite !Forall_cons. simpl.
    split_and!; [constructor|exact Hs|constructor|constructor]. }
  split; [exact Hu|]. split; [reflexivity|].
  exact (proj1 (proj2 (copyDirPreserve_spec src dst items Hu))).
Defined.

(** ** The identities of the published records *)

Lemma assoc_indexed {A B} (f : A → B) (l : list A) k :
  NilZero.uint_of_string k = None →
  assoc k (imap (fun i v => (indexKey i, f v)) l) = None.
Proof.
  intros Hk. apply eq_None_not_Some. intros Hin%assoc_is_Some.
  rewrite keys_indexed in Hin.
  apply list_elem_of_fmap in Hin as (i & -> & _).
  unfold indexKey in Hk. rewrite NilZero.usu in Hk by apply to_uint_digits.
  done.
Qed.

(** Normalization leaves alone the fields by which records are told
    apart. *)
Lemma normalizeEntry_keeps tag e r k :
  normalizeEntry tag e = ok r →
  k ≠ "type" → k ≠ "image" → NilZero.uint_of_string k = None →
  getOpt r k = getOpt e k.
Proof.
  intros Hr Ht Hi Hk.
  assert (Hn : e ≠ JNull) by (intros ->; by rewrite normalizeEntry_null in Hr).
  rewrite (normalizeEntry_not_null tag e Hn) in Hr. injection Hr as <-.
  simpl. rewrite !assoc_setProp, !decide_False by done.
  destruct e as [|b|n|s|items|props]; simpl; try done.
  - by apply (assoc_indexed (fun c => JStr (String c EmptyString))).
  - by apply (assoc_indexed id).
Qed.

Lemma normalizeEntry_amiiboKey tag e r :
  normalizeEntry tag e = ok r →
  amiiboHead r = amiiboHead e ∧ amiiboTail r = amiiboTail e
  ∧ amiiboKey r = amiiboKey e.
Proof.
  intros Hr. unfold amiiboKey, amiiboHead, amiiboTail.
  by rewrite (normalizeEntry_keeps _ _ _ "head" Hr),
    (normalizeEntry_keeps _ _ _ "tail" Hr).
Qed.

Lemma normalizeEntry_skylanderIdentity tag e r :
  normalizeEntry tag e = ok r → skylanderIdentity r = skylanderIdentity e.
Proof.
  intros Hr. unfold skylanderIdentity.
  by rewrite (normalizeEntry_keeps _ _ _ "sig" Hr),
    (normalizeEntry_keeps _ _ _ "figureId" Hr),
    (normalizeEntry_keeps _ _ _ "variant" Hr).
Qed.

Lemma mapResult_ok_Forall2 {A B} (f : A → result B) l ys :
  mapResult f l = ok ys → Forall2 (fun x y => f x = ok y) l ys.
Proof.
  revert ys. induction l as [|x l IH]; intros ys; simpl.
  - intros [= <-]. constructor.
  - destruct (f x) as [e|y] eqn:E; simpl; [done|].
    destruct (mapResult f l) as [e|ys']; simpl; [done|].
    intros [= <-]. constructor; [done|by apply IH].
Qed.

Lemma amiiboKeysApart_normalized tag entries records :
  Forall2 (fun e r => normalizeEntry tag e = ok r) entries records →
  amiiboKeysApart entries → amiiboKeysApart records.
Proof.
  intros Hall Hapart i j ri rj Hij Hi Hj Hk.
  destruct (Forall2_lookup_r _ _ _ _ _ Hall Hi) as (ei & Hei & Hni).
  destruct (Forall2_lookup_r _ _ _ _ _ Hall Hj) as (ej & Hej & Hnj).
  destruct (normalizeEntry_amiiboKey _ _ _ Hni) as (_ & _ & Hki).
  destruct (normalizeEntry_amiiboKey _ _ _ Hnj) as (Hh & Ht & Hkj).
  rewrite Hh, Ht. apply (Hapart i j ei ej); try done. congruence.
Qed.

Lemma skylanderIdentity_normalized tag entries records :
  Forall2 (fun e r => normalizeEntry tag e = ok r) entries records →
  skylanderIdentity <$> records = skylanderIdentity <$> entries.
Proof.
  induction 1 as [|e r entries records Hr _ IH]; [done|]. csimpl.
  by rewrite IH, (normalizeEntry_skylanderIdentity _ _ _ Hr).
Qed.

Lemma fullOut_ok amiibo sky full :
  fullOut amiibo sky = ok full →
  Forall2 (fun e r => normalizeEntry "amiibo" e = ok r)
    amiibo (recordsOf full "amiibo")
  ∧ Forall2 (fun e r => normalizeEntry "skylander" e = ok r)
      sky (recordsOf full "skylanders").
Proof.
  unfold fullOut, normalizedAmiibo, normalizedSkylanders.
  destruct (mapResult _ amiibo) as [?|na] eqn:Ena; simpl; [done|].
  destruct (mapResult _ sky) as [?|ns] eqn:Ens; simpl; [done|].
  intros [= <-]. split; by apply mapResult_ok_Forall2.
Qed.

Lemma printsKey_normalized tag entries records :
  Forall2 (fun e r => normalizeEntry tag e = ok r) entries records →
  Forall printsKey entries → Forall printsKey records.
Proof.
  induction 1 as [|e r entries records Hr _ IH]; [done|].
  intros [He Hall]%Forall_cons. constructor; [|by apply IH].
  unfold printsKey.
  by destruct (normalizeEntry_amiiboKey _ _ _ Hr) as (_ & _ & ->).
Qed.

(** X18: the catalog that [main] publishes, the full output built from
    the merged entries once validation has passed, holds the merged
    entries in their order, each normalized, and keeps what validation
    established on them: the key of every amiibo record of the full
    output can be built, no amiibo record of the full output with a
    non-empty head and a non-empty tail has the key of a record before
    it, and no two skylander records of the full output have the same
    identity. *)
Theorem fullOut_published_identities (amiiboEntries skylanderEntries : list json)
    (full : json) :
  validateNoDuplicates amiiboEntries skylanderEntries = ok () →
  fullOut amiiboEntries skylanderEntries = ok full →
  Forall2 (fun e r => normalizeEntry "amiibo" e = ok r)
    amiiboEntries (recordsOf full "amiibo")
  ∧ Forall2 (fun e r => normalizeEntry "skylander" e = ok r)
      skylanderEntries (recordsOf full "skylanders")
  ∧ Forall printsKey (recordsOf full "amiibo")
  ∧ amiiboKeysApart (recordsOf full "amiibo")
  ∧ NoDup (skylanderIdentity <$> recordsOf full "skylanders").
Proof.
  intros (Hp & Hapart & Hnd)%validateNoDuplicates_passes
    [Ha Hs]%fullOut_ok.
  split_and!; try done.
  - by eapply printsKey_normalized.
  - by eapply amiiboKeysApart_normalized.
  - by rewrite (skylanderIdentity_normalized _ _ _ Hs).
Qed.

Lemma fullOut_published_identities_witness :
  let a := JObj [("head", JStr "04"); ("tail", JStr "A")] in
  let s := JObj [("sig", JNum (NumInt 7)); ("image", JStr "x\spyro.png")] in
  let full :=
    JObj [("amiibo", JArr [JObj [("head", JStr "04"); ("tail", JStr "A");
                                 ("type", JStr "amiibo");
                                 ("image", JStr "")]]);
          ("skylanders",
           JArr [JObj [("sig", JNum (NumInt 7));
                       ("image", JStr "images/spyro.png");
                       ("type", JStr "skylander")]])] in
  validateNoDuplicates [a] [s] = ok ()
  ∧ fullOut [a] [s] = ok full
  ∧ amiiboKeysApart (recordsOf full "amiibo")
  ∧ NoDup (skylanderIdentity <$> recordsOf full "skylanders").
Proof.
  intros a s full.
  assert (Hv : validateNoDuplicates [a] [s] = ok ()) by (by vm_compute).
  assert (Hf : fullOut [a] [s] = ok full) by (by vm_compute).
  split; [exact Hv|]. split; [exact Hf|].
  exact (proj2 (proj2 (proj2
           (fullOut_published_identities [a] [s] full Hv Hf)))).
Defined.

(** ** The current script and the older one *)

Lemma old_normalizeImage_cases x :
  Old.normalizeImage x = ""
  ∨ ∃ s, x = Some (JStr s) ∧ s ≠ "" ∧ JsString.basename s ≠ ""
         ∧ Old.normalizeImage x = "images/" +:+ JsString.basename s.
Proof.
  unfold Old.normalizeImage.
  destruct x as [[| | |s| |]|]; try (by left).
  destruct (decide (s = "")) as [->|Hs]; [by left|].
  destruct (decide (JsString.basename s = "")) as [Hb|Hb]; [by left|].
  right. by exists s.
Qed.

(** X19: the current [normalizeImagePath] is backwards compatible with
    the older one wherever the older one was meant to work. On an entry
    whose image is written without backslashes and does not start with
    [images/], both return the same path; and a path that the older
    version returned for an image without backslashes is returned
    unchanged by the current one. *)
Theorem normalizeImagePath_backwards_compatible (e : json) :
  (∀ s, getOpt e "image" = Some (JStr s) → JsString.no_backslash s) →
  ((∀ s, getOpt e "image" = Some (JStr s) →
         JsString.startsWith s "images/" = false) →
   normalizeImagePath e = Old.normalizeImagePath e)
  ∧ normalizeImage (Some (JStr (Old.normalizeImage (getOpt e "image"))))
    = Old.normalizeImage (getOpt e "image").
Proof.
  intros Hnb. split.
  - intros Hout. unfold normalizeImagePath, Old.normalizeImagePath.
    destruct (get e "image") as [err|x] eqn:Eg; simpl; [done|]. f_equal.
    assert (Hx : x = getOpt e "image") by (destruct e; by inversion Eg).
    subst x. unfold normalizeImage, Old.normalizeImage.
    destruct (getOpt e "image") as [[| | |s| |]|]; try done.
    destruct (decide (s = "")) as [->|Hs]; [done|].
    rewrite (replaceAll_fixed s) by by apply Hnb.
    by rewrite Hout.
  - destruct (old_normalizeImage_cases (getOpt e "image"))
      as [-> | (s & Hs & Hne & Hb & ->)]; [done|].
    apply normalizeImage_fixed.
    + apply no_backslash_app; [by repeat constructor|].
      apply basename_no_backslash. by apply Hnb.
    + apply startsWith_app.
Qed.

Lemma normalizeImagePath_backwards_compatible_witness :
  let e := JObj [("image", JStr "art/mario.png")] in
  (∀ s, getOpt e "image" = Some (JStr s) → JsString.no_backslash s)
  ∧ (∀ s, getOpt e "image" = Some (JStr s) →
          JsString.startsWith s "images/" = false)
  ∧ normalizeImagePath e = Old.normalizeImagePath e
  ∧ normalizeImagePath e = ok "images/mario.png".
Proof.
  intros e.
  assert (Hnb : ∀ s, getOpt e "image" = Some (JStr s) → JsString.no_backslash s).
  { intros s [= <-]. unfold JsString.no_backslash. simpl.
    repeat constructor; by intros [=]. }
  assert (Hout : ∀ s, getOpt e "image" = Some (JStr s) →
                      JsString.startsWith s "images/" = false).
  { by intros s [= <-]. }
  split; [exact Hnb|]. split; [exact Hout|]. split; [|reflexivity].
  exact (proj1 (normalizeImagePath_backwards_compatible e Hnb) Hout).
Defined.

Lemma old_validate_ok seen entries :
  Old.validate seen entries = ok ()
  ↔ Forall printsKey entries
    ∧ NoDup (keyText <$> entries)
    ∧ ∀ k, k ∈ keyText <$> entries → k ∉ seen.
Proof.
  revert seen. induction entries as [|e rest IH]; intros seen; csimpl.
  - split; [intros _|done].
    split_and!; [constructor|constructor|by intros k ?%elem_of_nil].
  - destruct (amiiboKey e) as [err|key] eqn:E; simpl.
    + split; [done|]. intros [[[key Hkey] _]%Forall_cons _].
      by rewrite Hkey in E.
    + assert (Hkey : keyText e = key) by (unfold keyText; by rewrite E).
      assert (Hp : printsKey e) by (by exists key).
      rewrite Hkey. case_bool_decide as Hin.
      * split; [done|]. intros (_ & _ & Hk). destruct (Hk key); [|done].
        by left.
      * rewrite IH, Forall_cons, NoDup_cons. split.
        -- intros (Hall & Hnd & Hk). split_and!; try done.
           ++ intros Hr. apply Hk in Hr. set_solver.
           ++ intros k [->|Hr]%elem_of_cons; [done|]. apply Hk in Hr.
              set_solver.
        -- intros ([_ Hall] & [Hne Hnd] & Hk). split_and!; try done.
           intros k Hr. assert (k ∉ seen) by (apply Hk; by right).
           assert (k ≠ key) by (by intros ->). set_solver.
Qed.

Lemma validateAmiibo_old seen entries :
  Forall (fun e => notEmptyString (amiiboHead e) = true
                   ∧ notEmptyString (amiiboTail e) = true) entries →
  validateAmiibo seen entries = Old.validate seen entries.
Proof.
  intros Hall. revert seen.
  induction Hall as [|e rest [Hh Ht] _ IH]; intros seen; simpl; [done|].
  destruct (amiiboKey e) as [err|key]; simpl; [done|].
  rewrite Hh, Ht. simpl. case_bool_decide; [done|apply IH].
Qed.

Lemma validateAmiibo_after_old seen entries :
  Old.validate seen entries = ok () → validateAmiibo seen entries = ok ().
Proof.
  revert seen. induction entries as [|e rest IH]; intros seen; simpl; [done|].
  destruct (amiiboKey e) as [err|key]; simpl; [done|].
  case_bool_decide as Hin; [done|].
  rewrite andb_false_r. apply IH.
Qed.

(** X20: the current validation of the amiibo records relaxes the older
    one and does nothing else. The older one passes exactly when the key
    of every record can be built and no two records have the same key;
    every catalog it passes, the current one passes; and on a catalog
    whose records all have a non-empty head and a non-empty tail the two
    give the same outcome, the same error included. *)
Theorem validateNoDuplicates_relaxes_older (entries : list json) :
  (Old.validateNoDuplicates entries = ok ()
   ↔ Forall printsKey entries ∧ NoDup (keyText <$> entries))
  ∧ (Old.validateNoDuplicates entries = ok () →
     validateNoDuplicates entries [] = ok ())
  ∧ (Forall (fun e => notEmptyString (amiiboHead e) = true
                      ∧ notEmptyString (amiiboTail e) = true) entries →
     validateNoDuplicates entries [] = Old.validateNoDuplicates entries).
Proof.
  unfold Old.validateNoDuplicates, validateNoDuplicates. split_and!.
  - rewrite old_validate_ok. split; [by intros (? & ? & _)|].
    intros [Hp Hnd]. split_and!; try done;
      intros k _; apply not_elem_of_empty.
  - intros Hold. by rewrite (validateAmiibo_after_old _ _ Hold).
  - intros Hall. rewrite (validateAmiibo_old _ _ Hall).
    by destruct (Old.validate ∅ entries) as [?|[]].
Qed.

Lemma copyDirFlat_calls srcDir dstDir items c :
  c ∈ Old.copyDirFlat srcDir dstDir (Some items)
  ↔ ∃ name, (name, File) ∈ items
      ∧ c = CopyFile (srcDir ++ [name]) (dstDir ++ [name]).
Proof.
  unfold Old.copyDirFlat. rewrite list_elem_of_omap. split.
  - intros ([name [| |]] & Hin & Hc); simpl in Hc; try done.
    injection Hc as <-. by exists name.
  - intros (name & Hin & ->). by exists (name, File).
Qed.

Lemma locates_entry items name n :
  locates (Dir items) [name] n ↔ (name, n) ∈ items.
Proof.
  split.
  - inversion 1 as [|? ? child ? ? Hin Hloc]; subst.
    by inversion Hloc; subst.
  - intros Hin. econstructor; [done|constructor].
Qed.

(** X21: [copyDirPreserve] copies what the older [copyDirFlat] copied,
    to the same place: the copies of [copyDirFlat] are those copies of
    [copyDirPreserve] whose destination lies in the destination
    directory itself; the files further down are what the older version
    left behind. *)
Theorem copyDirPreserve_extends_flat (srcDir dstDir : path)
    (items : list (string * fsnode)) (src dst : path) :
  CopyFile src dst ∈ Old.copyDirFlat srcDir dstDir (Some items)
  ↔ CopyFile src dst ∈ copyDirPreserve srcDir dstDir (Some items)
    ∧ length dst = S (length dstDir).
Proof.
  rewrite copyDirFlat_calls, copyDirPreserve_calls. split.
  - intros (name & Hin & [= -> ->]). split.
    + exists [name]. split_and!; [done|by apply locates_entry|by right].
    + rewrite length_app. simpl. lia.
  - intros [(rel & Hne & Hrel & [?|[= -> ->]]) Hlen]; [done|].
    rewrite length_app in Hlen.
    destruct rel as [|name [|? ?]]; simpl in Hlen; [done| |lia].
    exists name. split; [by apply locates_entry|done].
Qed.

(** ** Edge cases of the patch loader *)

(** X22: what [lastIndexOf] finds outside the patch tree and on file
    names. The component named "images" is looked for in the whole path
    of a file, so when the path of the patches root itself has such a
    component, a file with none below the root contributes the ancestor
    directory that bears the name, which lies outside the patches root;
    and a regular file that is itself named "images" contributes its own
    path as an image directory. *)
Theorem patchImageDirs_edge_cases (root : path)
    (items : list (string * fsnode)) (rel : path) :
  locates (Dir items) rel File →
  (∀ pre post, root = pre ++ "images" :: post → "images" ∉ post →
               "images" ∉ rel →
               (pre ++ ["images"]) ∈ patchImageDirs root items)
  ∧ (last rel = Some "images" → (root ++ rel) ∈ patchImageDirs root items).
Proof.
  intros Hrel. split.
  - intros pre post -> Hpost Hnone. apply patchImageDirs_elem.
    exists rel, (post ++ rel). split_and!; [done| | |].
    + by rewrite <- !app_assoc.
    + by rewrite last_snoc.
    + by intros [?|?]%elem_of_app.
  - intros Hlast. apply patchImageDirs_elem.
    exists rel, []. split_and!; [done|by rewrite app_nil_r| |].
    + destruct rel as [|c rel]; [done|]. by rewrite last_app_cons.
    + by intros ?%elem_of_nil.
Qed.

Lemma patchImageDirs_edge_cases_witness :
  let root := [""; "home"; "images"; "repo"; "resources"; "patches"] in
  let items := [("pack", Dir [("tags.json", File); ("images", File)])] in
  locates (Dir items) ["pack"; "tags.json"] File
  ∧ patchImageDirs root items
    = [[""; "home"; "images"]; root ++ ["pack"; "images"]]
  ∧ [""; "home"; "images"] ∈ patchImageDirs root items.
Proof.
  intros root items.
  assert (Hrel : locates (Dir items) ["pack"; "tags.json"] File).
  { econstructor; [by left|]. econstructor; [by left|constructor]. }
  split; [exact Hrel|]. split; [reflexivity|].
  apply (proj1 (patchImageDirs_edge_cases root items _ Hrel)
           [""; "home"] ["repo"; "resources"; "patches"]).
  - reflexivity.
  - set_solver.
  - set_solver.
Defined.

Lemma classifyEntries_classifiable parsed :
  forallb classifiable parsed = true →
  ∀ amiibo sky, ∃ acc, classifyEntries parsed amiibo sky = ok acc.
Proof.
  induction parsed as [|e parsed IH]; simpl; [by eexists|].
  unfold classifiable at 1. intros [He Hall]%andb_prop amiibo sky.
  destruct (classify e) as [?|[|]]; simpl; [done|by apply IH..].
Qed.

(** X23: a patch file that does not hold an array stops the load. When
    the files before it hold arrays whose entries can all be classified,
    the load fails on it with MalformedPatch, whatever the files after it
    hold. *)
Theorem loadPatchFiles_stops_at_malformed
    (read : path → result json) (files : list path) (file : path)
    (rest : list path) (arrays : list (list json)) (v : json) :
  Forall2 (fun f entries => read f = ok (JArr entries)) files arrays →
  forallb classifiable (concat arrays) = true →
  read file = ok v → (∀ entries, v ≠ JArr entries) →
  loadPatchFiles read (files ++ file :: rest) [] [] = throw MalformedPatch.
Proof.
  intros Hall Hclass Hv Hnot.
  destruct (classifyEntries_classifiable _ Hclass [] []) as [acc Hacc].
  by eapply loadPatchFiles_malformed.
Qed.

Lemma loadPatchFiles_stops_at_malformed_witness :
  let a := JObj [("head", JStr "05"); ("tail", JStr "B")] in
  let read := fun f : path =>
    if decide (f = ["p"; "one.json"]) then ok (JArr [a])
    else if decide (f = ["p"; "two.json"]) then ok (JObj [("amiibo", JArr [a])])
    else throw IoFailure in
  Forall2 (fun f entries => read f = ok (JArr entries)) [["p"; "one.json"]] [[a]]
  ∧ forallb classifiable (concat [[a]]) = true
  ∧ read ["p"; "two.json"] = ok (JObj [("amiibo", JArr [a])])
  ∧ loadPatchFiles read ([["p"; "one.json"]] ++ ["p"; "two.json"] :: [["p"; "z.json"]])
      [] []
    = throw MalformedPatch.
Proof.
  intros a read.
  assert (H1 : Forall2 (fun f entries => read f = ok (JArr entries))
                 [["p"; "one.json"]] [[a]]) by repeat constructor.
  assert (H2 : forallb classifiable (concat [[a]]) = true) by reflexivity.
  assert (H3 : read ["p"; "two.json"] = ok (JObj [("amiibo", JArr [a])]))
    by reflexivity.
  split; [exact H1|]. split; [exact H2|]. split; [exact H3|].
  apply (loadPatchFiles_stops_at_malformed read _ _ _ _ _ H1 H2 H3).
  by intros entries.
Defined.

(** ** Order independence on values shaped as trees *)

Lemma stableJsonStringify_treeShaped h v :
  treeShaped h v → ∃ bytes, stableJsonStringify h v = done bytes.
Proof.
  intros (fuel0 & l & Hl & Hnd). unfold stableJsonStringify.
  destruct (entered_sorter h fuel0 (S (length h)) ∅ v l Hl Hnd) as [j ->];
    [|rewrite unseen_empty; lia|by eexists].
  intros a _. apply not_elem_of_empty.
Qed.

(** X24: on values shaped as trees the serializer is a function of the
    content alone. Two such values, in whatever stores, whose contents
    are equal up to the order in which the properties of their objects
    were written (equal primitives, arrays equal element by element in
    order) both serialize, and to one text: the text of a tree in
    canonical form that has the content of both, their properties named
    [__proto__] left out. *)
Theorem stableJsonStringify_tree_order_independent
    (h1 h2 : heap) (v1 v2 : value) (t1 t2 : json) :
  treeShaped h1 v1 → treeShaped h2 v2 →
  unfolds h1 v1 t1 → unfolds h2 v2 t2 →
  sameContent t1 t2 →
  ∃ c, canonical c
       ∧ sameContent (withoutProto t1) c ∧ sameContent (withoutProto t2) c
       ∧ stableJsonStringify h1 v1 = done (Json.stringify c)
       ∧ stableJsonStringify h2 v2 = done (Json.stringify c).
Proof.
  intros [b1 Hb1]%stableJsonStringify_treeShaped
    [b2 Hb2]%stableJsonStringify_treeShaped Hu1 Hu2 Hs.
  destruct (sameContent_wellFormed t1 t2 Hs) as [Hw1 Hw2].
  pose proof (sameContent_sortedCopy t1 t2 Hs) as Hcopy.
  exists (sortedCopy t1). split_and!.
  - apply sortedCopy_canonical.
  - by apply sortedCopy_content.
  - rewrite Hcopy. by apply sortedCopy_content.
  - by rewrite Hb1, (stableJsonStringify_unfolds _ _ _ _ Hu1 Hb1).
  - by rewrite Hb2, (stableJsonStringify_unfolds _ _ _ _ Hu2 Hb2), Hcopy.
Qed.

Lemma stableJsonStringify_tree_order_independent_witness :
  let h1 := [OObj [("tail", VStr "01"); ("head", VStr "04"); ("tags", VRef 1)];
             OArr [VRef 2];
             OObj [("b", VNull); ("a", VBool true)]] in
  let h2 := [OObj [("a", VBool true); ("b", VNull)];
             OArr [VRef 0];
             OObj [("head", VStr "04"); ("tags", VRef 1); ("tail", VStr "01")]] in
  let t1 := JObj [("tail", JStr "01"); ("head", JStr "04");
                  ("tags", JArr [JObj [("b", JNull); ("a", JBool true)]])] in
  let t2 := JObj [("head", JStr "04");
                  ("tags", JArr [JObj [("a", JBool true); ("b", JNull)]]);
                  ("tail", JStr "01")] in
  (treeShaped h1 (VRef 0) ∧ treeShaped h2 (VRef 2)
   ∧ unfolds h1 (VRef 0) t1 ∧ unfolds h2 (VRef 2) t2 ∧ sameContent t1 t2)
  ∧ ∃ c, canonical c
         ∧ sameContent (withoutProto t1) c ∧ sameContent (withoutProto t2) c
         ∧ stableJsonStringify h1 (VRef 0) = done (Json.stringify c)
         ∧ stableJsonStringify h2 (VRef 2) = done (Json.stringify c).
Proof.
  intros h1 h2 t1 t2.
  assert (Hs1 : treeShaped h1 (VRef 0)).
  { exists 4, [0; 1; 2]. split; [reflexivity|by apply (bool_decide_unpack _)]. }
  assert (Hs2 : treeShaped h2 (VRef 2)).
  { exists 4, [2; 1; 0]. split; [reflexivity|by apply (bool_decide_unpack _)]. }
  assert (Hu1 : unfolds h1 (VRef 0) t1).
  { eapply unfolds_obj; [reflexivity|].
    constructor; [split; [done|constructor]|].
    constructor; [split; [done|constructor]|].
    constructor; [split; [done|]|constructor].
    eapply unfolds_arr; [reflexivity|].
    constructor; [|constructor].
    eapply unfolds_obj; [reflexivity|].
    constructor; [split; [done|constructor]|].
    constructor; [split; [done|constructor]|constructor]. }
  assert (Hu2 : unfolds h2 (VRef 2) t2).
  { eapply unfolds_obj; [reflexivity|].
    constructor; [split; [done|constructor]|].
    constructor; [split; [done|]|].
    - eapply unfolds_arr; [reflexivity|].
      constructor; [|constructor].
      eapply unfolds_obj; [reflexivity|].
      constructor; [split; [done|constructor]|].
      constructor; [split; [done|constructor]|constructor].
    - constructor; [split; [done|constructor]|constructor]. }
  assert (Hs : sameContent t1 t2).
  { apply same_obj; [by apply (bool_decide_unpack _)..|].
    intros k. simpl. repeat case_decide; subst; try done; repeat constructor.
    all: try (by apply (bool_decide_unpack _)).
    intros k'. simpl. repeat case_decide; subst; try done;
      repeat constructor. }
  split; [by split_and!|].
  exact (stableJsonStringify_tree_order_independent
           h1 h2 (VRef 0) (VRef 2) t1 t2 Hs1 Hs2 Hu1 Hu2 Hs).
Defined.

(** ** The copy of the patch images *)







